(** * gravmag.convolve: BTTB matrices, their BCCB embeddings and the
    FFT-based matrix-vector product

    A shallow embedding of [src/gravmag/convolve.py].  numpy arrays are
    lists (1D), lists of lists (2D) and so on; Python integers are [Z];
    Python strings are [string]; a raised exception is an [Err] result. *)

From Stdlib Require Import String.
From Stdlib Require Import List ZArith Lia Bool Reals Lra Permutation.
Import ListNotations.

Set Implicit Arguments.

Local Open Scope string_scope.
Local Open Scope list_scope.
Local Open Scope nat_scope.

(** ** Exceptions and results *)

Inductive exn : Type :=
| ValueError
| TypeError
| IndexError
| UnboundLocalError.

Inductive result (A : Type) : Type :=
| Ok (a : A)
| Err (e : exn).

Arguments Ok {A} a.
Arguments Err {A} e.

Definition bind {A B : Type} (m : result A) (k : A -> result B) : result B :=
  match m with
  | Ok a => k a
  | Err e => Err e
  end.

Notation "x <- m ;; k" := (bind m (fun x => k))
  (at level 61, m at next level, right associativity).
Notation "m ;;; k" := (bind m (fun _ => k))
  (at level 61, right associativity).

(** A Python [for] loop that appends one computed item per element. *)
Fixpoint mapM {A B : Type} (f : A -> result B) (l : list A) : result (list B) :=
  match l with
  | [] => Ok []
  | x :: xs => y <- f x ;; ys <- mapM f xs ;; Ok (y :: ys)
  end.

(** ** Scalars

    The assembling functions only need the zero and the negation of the
    array's element type; the dense product needs sums and products. *)

Class Scalar (A : Type) : Type := {
  zero : A;
  neg : A -> A;
  add : A -> A -> A;
  mul : A -> A -> A
}.

#[export] Instance Scalar_Z : Scalar Z :=
  {| zero := 0%Z; neg := Z.opp; add := Z.add; mul := Z.mul |}.

#[export] Instance Scalar_R : Scalar R :=
  {| zero := 0%R; neg := Ropp; add := Rplus; mul := Rmult |}.

(** ** numpy primitives *)

Section Numpy.
Context {A : Type}.

(** [x[i]] for a Python integer [i]: negative indices count from the
    end, anything outside [-len, len) raises IndexError. *)
Definition getitem (x : list A) (i : Z) : result A :=
  let n := Z.of_nat (length x) in
  let k := if (i <? 0)%Z then (i + n)%Z else i in
  if ((0 <=? k) && (k <? n))%Z then
    match nth_error x (Z.to_nat k) with
    | Some a => Ok a
    | None => Err IndexError
    end
  else Err IndexError.

(** [x[indices]] for a 2D integer index array: gather along axis 0. *)
Definition fancy (x : list A) (indices : list (list Z)) : result (list (list A)) :=
  mapM (mapM (getitem x)) indices.

(** [x[-1:0:-1]], which is also [x[:0:-1]]: last down to index 1. *)
Definition slice_rev_to0 (x : list A) : list A := rev (tl x).

(** [x[::-1]] *)
Definition slice_rev (x : list A) : list A := rev x.

(** [x[:n]] and [x[n:]] for a Python integer [n]. *)
Definition slice_to (x : list A) (n : Z) : list A :=
  if (n <? 0)%Z then firstn (length x - Z.to_nat (- n)) x
  else firstn (Z.to_nat n) x.

Definition slice_from (x : list A) (n : Z) : list A :=
  if (n <? 0)%Z then skipn (length x - Z.to_nat (- n)) x
  else skipn (Z.to_nat n) x.

(** [np.stack(blocks)]: an empty sequence raises ValueError. *)
Definition stack (blocks : list A) : result (list A) :=
  match blocks with
  | [] => Err ValueError
  | _ => Ok blocks
  end.

(** [np.hstack] on 1D pieces and [np.concatenate] along axis 0. *)
Definition hstack1 (parts : list (list A)) : list A := concat parts.

(** [np.concatenate] of a Python list of 1D arrays; empty list raises. *)
Definition concatenate (parts : list (list A)) : result (list A) :=
  match parts with
  | [] => Err ValueError
  | _ => Ok (concat parts)
  end.

(** [np.hstack] on a sequence of arrays of two or more dimensions:
    concatenation along axis 1.  An array is the list of its axis-0
    slices, each slice the list of its axis-1 items. *)
Definition hstack (arrs : list (list (list A))) : result (list (list A)) :=
  match arrs with
  | [] => Err ValueError
  | a0 :: _ =>
      if forallb (fun a => length a =? length a0) arrs then
        Ok (map (fun j => concat (map (fun a => nth j a []) arrs))
                (seq 0 (length a0)))
      else Err ValueError
  end.

(** Chunks of [m] consecutive items: the rows of a row-major reshape. *)
Fixpoint chunks (k m : nat) (x : list A) : list (list A) :=
  match k with
  | O => []
  | S k' => firstn m x :: chunks k' m (skipn m x)
  end.

(** [np.split(x, n)]: [n] equal parts, ValueError when [n] does not
    divide the length. *)
Definition split (x : list A) (n : Z) : result (list (list A)) :=
  if (n <=? 0)%Z then Err ValueError
  else if (Z.of_nat (length x) mod n =? 0)%Z then
    Ok (chunks (Z.to_nat n) (length x / Z.to_nat n) x)
  else Err ValueError.

(** [np.reshape(x, (r, c))], row-major. *)
Definition reshape (x : list A) (r c : Z) : result (list (list A)) :=
  if ((0 <=? r) && (0 <=? c) && (Z.of_nat (length x) =? r * c))%Z then
    Ok (chunks (Z.to_nat r) (Z.to_nat c) x)
  else Err ValueError.

(** [M.T] of a 2D array with [c] columns. *)
Definition transpose (c : nat) (M : list (list A)) (d : A) : list (list A) :=
  map (fun j => map (fun row => nth j row d) M) (seq 0 c).

(** Shape test of [check.is_array(x, ndim=2, shape=(r, c))]. *)
Definition has_shape (M : list (list A)) (r c : Z) : bool :=
  (Z.of_nat (length M) =? r)%Z &&
  forallb (fun row => (Z.of_nat (length row) =? c)%Z) M.

End Numpy.

(** [np.arange(start, stop, step)], the 1D range behind each [np.ogrid]
    slice. *)
Definition arange (start stop step : Z) : list Z :=
  let len :=
    if (0 <? step)%Z then ((stop - start + step - 1) / step)%Z
    else if (step <? 0)%Z then ((start - stop - step - 1) / (- step))%Z
    else 0%Z in
  map (fun k => (start + Z.of_nat k * step)%Z) (seq 0 (Z.to_nat len)).

(** [ind_col + ind_row] for the two open grids of [np.ogrid]. *)
Definition outer_sum (ind_col ind_row : list Z) : list (list Z) :=
  map (fun i => map (fun j => (i + j)%Z) ind_row) ind_col.

Definition str_in (s : string) (l : list string) : bool :=
  existsb (String.eqb s) l.

(** ** The validation helpers of [gravmag.check] *)

Section Check.
Context {A : Type}.

(** Modelled from the spec: [check.is_integer(x, positive=True)] is not
    in the sources; it fails unless [x] is a positive integer. *)
Definition is_integer_positive (x : Z) : result unit :=
  if (0 <? x)%Z then Ok tt else Err ValueError.

(** Modelled from the spec: [check.is_array(x, ndim=2)] is not in the
    sources; a list of lists is a 2D array when its rows have one length. *)
Definition is_array2 (x : list (list A)) : result unit :=
  if forallb (fun row => length row =? length (hd [] x)) x
  then Ok tt else Err ValueError.

(** Modelled from the spec: [check.Toeplitz_metadata] is not in the
    sources; the symmetry tag is one of the three, the column is not
    empty, and a generic matrix comes with a row of one item less. *)
Definition Toeplitz_metadata (symmetry : string) (column : list A)
    (row : option (list A)) : result unit :=
  if negb (str_in symmetry ["gene"; "symm"; "skew"]) then Err ValueError
  else if length column =? 0 then Err ValueError
  else if (symmetry =? "gene")%string then
    match row with
    | None => Err ValueError
    | Some r => if length r + 1 =? length column then Ok tt else Err ValueError
    end
  else Ok tt.

(** Modelled from the spec: [check.BTTB_metadata] is not in the sources;
    it fails if a symmetry tag is invalid, if [nblocks] is not a positive
    integer, if the row count of [columns] disagrees with [nblocks] and
    [symmetry_structure], or if generic blocks come without a matching
    [rows] table. *)
Definition BTTB_metadata (symmetry_structure symmetry_blocks : string)
    (nblocks : Z) (columns : list (list A)) (rows : option (list (list A)))
    : result unit :=
  if negb (str_in symmetry_structure ["gene"; "symm"; "skew"]) then Err ValueError
  else if negb (str_in symmetry_blocks ["gene"; "symm"; "skew"]) then Err ValueError
  else
    is_integer_positive nblocks ;;;
    is_array2 columns ;;;
    if negb (Z.of_nat (length columns) =?
               (if (symmetry_structure =? "gene")%string
                then 2 * nblocks - 1 else nblocks))%Z
    then Err ValueError
    else if (symmetry_blocks =? "gene")%string then
      match rows with
      | None => Err ValueError
      | Some rs =>
          is_array2 rs ;;;
          if negb (length rs =? length columns) then Err ValueError
          else if negb (length (hd [] rs) + 1 =? length (hd [] columns))
          then Err ValueError
          else Ok tt
      end
    else Ok tt.

End Check.

(** ** Building the matrices *)

Section Assemble.
Context {A : Type} `{Scalar A}.

(** [-x] on 1D, 2D and 3D arrays. *)
Definition neg1 (x : list A) : list A := map neg x.
Definition neg2 (x : list (list A)) : list (list A) := map neg1 x.
Definition neg3 (x : list (list (list A))) : list (list (list A)) := map neg2 x.

(** [np.zeros(n)] and [np.zeros((1, n, n))]. *)
Definition zeros (n : Z) : list A := repeat zero (Z.to_nat n).
Definition zeros3 (n : Z) : list (list (list A)) := [repeat (zeros n) (Z.to_nat n)].

Definition generic_BTTB (symmetry_structure symmetry_blocks : string)
    (nblocks : Z) (columns : list (list A)) (rows : option (list (list A)))
    (check_input : bool) : result (list (list A)) :=
  (if check_input
   then BTTB_metadata symmetry_structure symmetry_blocks nblocks columns rows
   else Ok tt) ;;;
  let npoints_per_block := Z.of_nat (length (hd [] columns)) in
  let ind_blocks :=
    outer_sum (arange 0 npoints_per_block 1)
              (arange (npoints_per_block - 1) (-1) (-1)) in
  concatenated_blocks <-
    (if (symmetry_structure =? "symm")%string then
       if (symmetry_blocks =? "symm")%string then
         blocks <- mapM (fun column =>
           fancy (slice_rev_to0 column ++ column) ind_blocks) columns ;;
         back <- stack blocks ;; front <- stack blocks ;;
         Ok (slice_rev_to0 back ++ front)
       else if (symmetry_blocks =? "skew")%string then
         blocks <- mapM (fun column =>
           fancy (neg1 (slice_rev_to0 column) ++ column) ind_blocks) columns ;;
         back <- stack blocks ;; front <- stack blocks ;;
         Ok (slice_rev_to0 back ++ front)
       else
         match rows with
         | None => Err TypeError
         | Some rows =>
             blocks <- mapM (fun cr =>
               fancy (slice_rev (snd cr) ++ fst cr) ind_blocks)
               (combine columns rows) ;;
             back <- stack blocks ;; front <- stack blocks ;;
             Ok (slice_rev_to0 back ++ front)
         end
     else if (symmetry_structure =? "skew")%string then
       if (symmetry_blocks =? "symm")%string then
         blocks <- mapM (fun column =>
           fancy (slice_rev_to0 column ++ column) ind_blocks) columns ;;
         back <- stack blocks ;; front <- stack blocks ;;
         Ok (neg3 (slice_rev_to0 back) ++ front)
       else if (symmetry_blocks =? "skew")%string then
         blocks <- mapM (fun column =>
           fancy (neg1 (slice_rev_to0 column) ++ column) ind_blocks) columns ;;
         back <- stack blocks ;; front <- stack blocks ;;
         Ok (neg3 (slice_rev_to0 back) ++ front)
       else
         match rows with
         | None => Err TypeError
         | Some rows =>
             blocks <- mapM (fun cr =>
               fancy (slice_rev (snd cr) ++ fst cr) ind_blocks)
               (combine columns rows) ;;
             back <- stack blocks ;; front <- stack blocks ;;
             Ok (neg3 (slice_rev_to0 back) ++ front)
         end
     else
       if (symmetry_blocks =? "symm")%string then
         blocks_1j <- mapM (fun column =>
           fancy (slice_rev_to0 column ++ column) ind_blocks)
           (slice_to columns nblocks) ;;
         blocks_i1 <- mapM (fun column =>
           fancy (slice_rev_to0 column ++ column) ind_blocks)
           (slice_from columns nblocks) ;;
         back <- stack blocks_i1 ;; front <- stack blocks_1j ;;
         Ok (slice_rev back ++ front)
       else if (symmetry_blocks =? "skew")%string then
         blocks_1j <- mapM (fun column =>
           fancy (neg1 (slice_rev_to0 column) ++ column) ind_blocks)
           (slice_to columns nblocks) ;;
         blocks_i1 <- mapM (fun column =>
           fancy (neg1 (slice_rev_to0 column) ++ column) ind_blocks)
           (slice_from columns nblocks) ;;
         back <- stack blocks_i1 ;; front <- stack blocks_1j ;;
         Ok (slice_rev back ++ front)
       else
         match rows with
         | None => Err TypeError
         | Some rows =>
             blocks_1j <- mapM (fun cr =>
               fancy (slice_rev (snd cr) ++ fst cr) ind_blocks)
               (combine (slice_to columns nblocks) (slice_to rows nblocks)) ;;
             blocks_i1 <- mapM (fun cr =>
               fancy (slice_rev (snd cr) ++ fst cr) ind_blocks)
               (combine (slice_from columns nblocks) (slice_from rows nblocks)) ;;
             back <- stack blocks_i1 ;; front <- stack blocks_1j ;;
             Ok (slice_rev back ++ front)
         end) ;;
  let indices :=
    outer_sum (arange 0 nblocks 1) (arange (nblocks - 1) (-1) (-1)) in
  gathered <- fancy concatenated_blocks indices ;;
  inner <- hstack gathered ;;
  hstack inner.

(** The value of [Circulant_from_Toeplitz] is a matrix or a vector,
    depending on [full]. *)
Definition circulant_out (full : bool) : Type :=
  if full then list (list A) else list A.

Definition Circulant_from_Toeplitz (symmetry : string) (column : list A)
    (row : option (list A)) (full check_input : bool)
    : result (circulant_out full) :=
  (if check_input then Toeplitz_metadata symmetry column row else Ok tt) ;;;
  let P := Z.of_nat (length column) in
  C <- (if (symmetry =? "symm")%string then
          Ok (hstack1 [column; [zero]; slice_rev_to0 column])
        else if (symmetry =? "skew")%string then
          Ok (hstack1 [column; [zero]; neg1 (slice_rev_to0 column)])
        else
          match row with
          | None => Err TypeError
          | Some row => Ok (hstack1 [column; [zero]; slice_rev row])
          end) ;;
  match full return result (circulant_out full) with
  | true =>
      let indices :=
        outer_sum (arange 0 (2 * P) 1) (arange 0 (-2 * P) (-1)) in
      fancy C indices
  | false => Ok C
  end.

End Assemble.

(** ** The dictionaries passed between the spectral functions

    Both dictionaries are built with a fixed list of keys, in a fixed
    order; a record holds one value per key. *)

Module BCCB0.
Record t (A : Type) : Type := make {
  first_column : list A;
  nblocks : Z;
  npoints_per_block : Z;
  symmetry : string
}.
End BCCB0.

Section Embed.
Context {A : Type} `{Scalar A}.

(** [x[-1:stop:-1]]: from the last item down to, not including, index
    [stop]; a negative [stop] counts from the end. *)
Definition slice_last_downto {B : Type} (x : list B) (stop : Z) : list B :=
  let n := Z.of_nat (length x) in
  let stop' := if (stop <? 0)%Z then Z.max (stop + n) (-1) else Z.min stop (n - 1) in
  rev (skipn (Z.to_nat (stop' + 1)) x).

(** An argument of a positional call. *)
Inductive pyarg : Type :=
| ArgStr (s : string)
| ArgArr (x : list A)
| ArgNone.

(** Python binds positional arguments to the parameters from the left:
    TypeError when a parameter without default stays unbound, and when
    there are more arguments than parameters. *)
Definition bind_positional (required optional : nat) (args : list pyarg)
    : result (list pyarg) :=
  if length args <? required then Err TypeError
  else if required + optional <? length args then Err TypeError
  else Ok args.

(** A call [Circulant_from_Toeplitz(a1, ..., ak)] that leaves [full] and
    [check_input] at their defaults.  The signature has three parameters
    without default ([symmetry], [column], [row]) and two with one. *)
Definition Circulant_from_Toeplitz_positional (args : list pyarg)
    : result (list (list A)) :=
  bound <- bind_positional 3 2 args ;;
  match bound with
  | [ArgStr symmetry; ArgArr column; ArgNone] =>
      Circulant_from_Toeplitz symmetry column None true true
  | [ArgStr symmetry; ArgArr column; ArgArr row] =>
      Circulant_from_Toeplitz symmetry column (Some row) true true
  | _ => Err ValueError
  end.

(** The two [if]s that assign [C_blocks]; [None] is the unbound name. *)
Definition C_blocks_of (nblocks : Z) (columns : list (list A))
    (T_npoints_per_block : Z) (nonull_blocks : list (list (list A)))
    : result (option (list (list (list A)))) :=
  let C_npoints_per_block := (2 * T_npoints_per_block)%Z in
  C_blocks <-
    (if (Z.of_nat (length columns) =? nblocks)%Z then
       front <- stack nonull_blocks ;;
       back <- stack (slice_rev_to0 nonull_blocks) ;;
       Ok (Some (front ++ zeros3 C_npoints_per_block ++ back))
     else Ok None) ;;
  if (Z.of_nat (length columns) =? 2 * nblocks - 1)%Z then
    front <- stack (slice_to nonull_blocks nblocks) ;;
    back <- stack (slice_last_downto nonull_blocks (nblocks - 1)) ;;
    Ok (Some (front ++ zeros3 C_npoints_per_block ++ back))
  else Ok C_blocks.

Definition BCCB_from_BTTB (symmetry_structure symmetry_blocks : string)
    (nblocks : Z) (columns : list (list A)) (rows : option (list (list A)))
    (full check_input : bool) : result (list (list A)) :=
  (if check_input
   then BTTB_metadata symmetry_structure symmetry_blocks nblocks columns rows
   else Ok tt) ;;;
  C_blocks <-
    match rows with
    | None =>
        let T_npoints_per_block := Z.of_nat (length (hd [] columns)) in
        nonull_blocks <- mapM (fun column =>
          Circulant_from_Toeplitz_positional [ArgArr column]) columns ;;
        C_blocks_of nblocks columns T_npoints_per_block nonull_blocks
    | Some rows =>
        is_array2 rows ;;;
        if negb (length columns =? length rows) then Err ValueError
        else if negb (length (hd [] columns) =? length (hd [] rows) + 1)
        then Err ValueError
        else
          let T_npoints_per_block := Z.of_nat (length (hd [] columns)) in
          nonull_blocks <- mapM (fun cr =>
            Circulant_from_Toeplitz_positional [ArgArr (fst cr); ArgArr (snd cr)])
            (combine columns rows) ;;
          C_blocks_of nblocks columns T_npoints_per_block nonull_blocks
    end ;;
  match C_blocks with
  | None => Err UnboundLocalError
  | Some C_blocks =>
      let nblocks_C := (2 * nblocks)%Z in
      let indices :=
        outer_sum (arange 0 nblocks_C 1) (arange 0 (- nblocks_C) (-1)) in
      gathered <- fancy C_blocks indices ;;
      inner <- hstack gathered ;;
      hstack inner
  end.

Definition embedding_BCCB_first_column (b0 : list A)
    (nblocks npoints_per_block : Z) (symmetry : string)
    : result (BCCB0.t A) :=
  is_integer_positive nblocks ;;;
  is_integer_positive npoints_per_block ;;;
  if negb (Z.of_nat (length b0) =? nblocks * npoints_per_block)%Z
  then Err ValueError
  else if negb (str_in symmetry ["skew-skew"; "skew-symm"; "symm-skew"; "symm-symm"])
  then Err ValueError
  else
    b_parts <- split b0 nblocks ;;
    let c0 := [] in
    let c0 :=
      if (symmetry =? "skew-skew")%string then
        c0 ++ map (fun bi => hstack1 [bi; [zero]; neg1 (slice_rev_to0 bi)]) b_parts
           ++ [zeros (2 * npoints_per_block)]
           ++ map (fun bi => hstack1 [neg1 bi; [zero]; slice_rev_to0 bi])
                  (slice_rev_to0 b_parts)
      else c0 in
    let c0 :=
      if (symmetry =? "skew-symm")%string then
        c0 ++ map (fun bi => hstack1 [bi; [zero]; slice_rev_to0 bi]) b_parts
           ++ [zeros (2 * npoints_per_block)]
           ++ map (fun bi => hstack1 [neg1 bi; [zero]; neg1 (slice_rev_to0 bi)])
                  (slice_rev_to0 b_parts)
      else c0 in
    let c0 :=
      if (symmetry =? "symm-skew")%string then
        c0 ++ map (fun bi => hstack1 [bi; [zero]; neg1 (slice_rev_to0 bi)]) b_parts
           ++ [zeros (2 * npoints_per_block)]
           ++ map (fun bi => hstack1 [bi; [zero]; neg1 (slice_rev_to0 bi)])
                  (slice_rev_to0 b_parts)
      else c0 in
    let c0 :=
      if (symmetry =? "symm-symm")%string then
        c0 ++ map (fun bi => hstack1 [bi; [zero]; slice_rev_to0 bi]) b_parts
           ++ [zeros (2 * npoints_per_block)]
           ++ map (fun bi => hstack1 [bi; [zero]; slice_rev_to0 bi])
                  (slice_rev_to0 b_parts)
      else c0 in
    c0 <- concatenate c0 ;;
    Ok (BCCB0.make c0 nblocks npoints_per_block symmetry).

End Embed.

Definition transposition_factor (symmetry : string) : result Z :=
  if negb (str_in symmetry ["skew-skew"; "skew-symm"; "symm-skew"; "symm-symm"])
  then Err ValueError
  else
    let transposition_factor_dict :=
      [("skew-skew", 1%Z); ("skew-symm", (-1)%Z);
       ("symm-skew", (-1)%Z); ("symm-symm", 1%Z)] in
    match find (fun kv => (fst kv =? symmetry)%string) transposition_factor_dict with
    | Some kv => Ok (snd kv)
    | None => Err ValueError
    end.

(** ** Complex numbers and the 2D discrete Fourier transform *)

Definition C : Type := (R * R)%type.

Definition C0 : C := (0%R, 0%R).
Definition RtoC (x : R) : C := (x, 0%R).
Definition Re (z : C) : R := fst z.
Definition Cadd (a b : C) : C := (fst a + fst b, snd a + snd b)%R.
Definition Cmul (a b : C) : C :=
  (fst a * fst b - snd a * snd b, fst a * snd b + snd a * fst b)%R.
Definition Cscale (r : R) (a : C) : C := (r * fst a, r * snd a)%R.

(** [exp(i * theta)] *)
Definition cis (theta : R) : C := (cos theta, sin theta).

Definition Csum {I : Type} (l : list I) (f : I -> C) : C :=
  fold_right (fun i acc => Cadd (f i) acc) C0 l.

Definition entry (x : list (list C)) (n1 n2 : nat) : C :=
  nth n2 (nth n1 x []) C0.

(** The phase [2 pi (k1 n1 / M + k2 n2 / N)] of the 2D transform. *)
Definition phase (M N k1 k2 n1 n2 : nat) : R :=
  (2 * PI * (INR k1 * INR n1 / INR M + INR k2 * INR n2 / INR N))%R.

(** [scipy.fft.fft2(x, norm="ortho")] on an [M] x [N] array:
    [X[k1,k2] = 1/sqrt(M N) * sum x[n1,n2] exp(-2 pi i (k1 n1/M + k2 n2/N))]. *)
Definition fft2_ortho (x : list (list C)) : list (list C) :=
  let M := length x in
  let N := length (hd [] x) in
  map (fun k1 => map (fun k2 =>
         Cscale (/ sqrt (INR (M * N)))
           (Csum (seq 0 M) (fun n1 => Csum (seq 0 N) (fun n2 =>
              Cmul (entry x n1 n2) (cis (- phase M N k1 k2 n1 n2))))))
       (seq 0 N)) (seq 0 M).

(** [scipy.fft.ifft2(X, norm="ortho")]: the same sum with the conjugate
    phases. *)
Definition ifft2_ortho (X : list (list C)) : list (list C) :=
  let M := length X in
  let N := length (hd [] X) in
  map (fun n1 => map (fun n2 =>
         Cscale (/ sqrt (INR (M * N)))
           (Csum (seq 0 M) (fun k1 => Csum (seq 0 N) (fun k2 =>
              Cmul (entry X k1 k2) (cis (phase M N k1 k2 n1 n2))))))
       (seq 0 N)) (seq 0 M).

(** Elementwise product of two arrays of one shape. *)
Definition hadamard (X Y : list (list C)) : list (list C) :=
  map (fun rows => map (fun xy => Cmul (fst xy) (snd xy))
                       (combine (fst rows) (snd rows)))
      (combine X Y).

(** [np.zeros((r, c))] and [np.vstack]. *)
Definition zeros2 (r c : Z) : list (list R) := repeat (zeros c) (Z.to_nat r).
Definition vstack {A : Type} (parts : list (list (list A))) : list (list A) :=
  concat parts.

(** ** Eigenvalues of the BCCB and the fast product *)

Module BCCB_eigen.
Record t : Type := make {
  eigenvalues : list (list C);
  ordering : string;
  nblocks : Z;
  npoints_per_block : Z;
  symmetry : string
}.
End BCCB_eigen.

(** [eigenvalues_BCCB] on a dictionary that holds the four keys in
    order, from line 816 on; the tests of the dictionary itself (lines
    805-815) are in [Dynamic.eigenvalues_BCCB] below. *)
Definition eigenvalues_BCCB (BCCB0 : BCCB0.t R) (ordering : string)
    : result BCCB_eigen.t :=
  let c0 := BCCB0.first_column BCCB0 in
  let nblocks := BCCB0.nblocks BCCB0 in
  let npoints_per_block := BCCB0.npoints_per_block BCCB0 in
  let symmetry := BCCB0.symmetry BCCB0 in
  is_integer_positive nblocks ;;;
  is_integer_positive npoints_per_block ;;;
  if negb (Z.of_nat (length c0) =? 4 * nblocks * npoints_per_block)%Z
  then Err ValueError
  else if negb (str_in symmetry
    ["skew-skew"; "skew-symm"; "symm-skew"; "symm-symm"; "gene-symm";
     "symm-gene"; "gene-skew"; "skew-gene"; "gene-gene"])
  then Err ValueError
  else if negb (str_in ordering ["row"; "column"]) then Err ValueError
  else
    G <- (if (ordering =? "row")%string then
            reshape c0 (2 * nblocks) (2 * npoints_per_block)
          else
            G <- reshape c0 (2 * nblocks) (2 * npoints_per_block) ;;
            Ok (transpose (Z.to_nat (2 * npoints_per_block)) G 0%R)) ;;
    let L :=
      map (map (Cscale (sqrt (IZR (4 * nblocks * npoints_per_block)))))
          (fft2_ortho (map (map RtoC) G)) in
    Ok (BCCB_eigen.make L ordering nblocks npoints_per_block symmetry).

(** The names that the validation block of [product_BCCB_vector] binds. *)
Record product_locals : Type := {
  loc_L : list (list C);
  loc_ordering : string;
  loc_nblocks : Z;
  loc_npoints_per_block : Z
}.

(** [product_BCCB_vector] on a dictionary that holds the five keys in
    order; the tests of the dictionary itself (lines 913-924) are in
    [Dynamic.product_BCCB_vector] below. *)
Definition product_BCCB_vector (BCCB_eigen : BCCB_eigen.t) (v : list R)
    (check_input : bool) : result (list R) :=
  locals <-
    (if check_input then
       let L := BCCB_eigen.eigenvalues BCCB_eigen in
       let ordering := BCCB_eigen.ordering BCCB_eigen in
       let nblocks := BCCB_eigen.nblocks BCCB_eigen in
       let npoints_per_block := BCCB_eigen.npoints_per_block BCCB_eigen in
       if negb (str_in ordering ["row"; "column"]) then Err ValueError
       else
         is_integer_positive nblocks ;;;
         is_integer_positive npoints_per_block ;;;
         (if (ordering =? "row")%string then
            if has_shape L (2 * nblocks) (2 * npoints_per_block)
            then Ok tt else Err ValueError
          else
            if has_shape L (2 * npoints_per_block) (2 * nblocks)
            then Ok tt else Err ValueError) ;;;
         if negb (Z.of_nat (length v) =? nblocks * npoints_per_block)%Z
         then Err ValueError
         else Ok (Some {| loc_L := L; loc_ordering := ordering;
                          loc_nblocks := nblocks;
                          loc_npoints_per_block := npoints_per_block |})
     else Ok None) ;;
  match locals with
  | None => Err UnboundLocalError
  | Some (Build_product_locals L ordering nblocks npoints_per_block) =>
      V <- (if (ordering =? "row")%string then
              V <- reshape v nblocks npoints_per_block ;;
              V <- hstack [V; zeros2 nblocks npoints_per_block] ;;
              Ok (vstack [V; zeros2 nblocks (2 * npoints_per_block)])
            else
              V <- reshape v nblocks npoints_per_block ;;
              let V := transpose (Z.to_nat npoints_per_block) V 0%R in
              V <- hstack [V; zeros2 npoints_per_block nblocks] ;;
              Ok (vstack [V; zeros2 npoints_per_block (2 * nblocks)])) ;;
      let H := hadamard L (fft2_ortho (map (map RtoC) V)) in
      if (ordering =? "row")%string then
        let w := map (fun row => map Re (slice_to row npoints_per_block))
                     (slice_to (ifft2_ortho H) nblocks) in
        Ok (concat w)
      else
        let w := map (fun row => map Re (slice_to row nblocks))
                     (slice_to (ifft2_ortho H) npoints_per_block) in
        Ok (concat (transpose (Z.to_nat nblocks) w 0%R))
  end.

(** ** The dictionaries as a caller passes them

    [eigenvalues_BCCB] and [product_BCCB_vector] first test that their
    argument is a dictionary and that the list of its keys is the expected
    one, in the expected order.  The records above stand for the
    dictionaries that pass these tests, the ones the code builds itself.
    Here the argument is any Python object: a plain value, which is an
    integer, a string, a 1D array of reals or a 2D array of complex
    numbers, or a dictionary of plain values, which is a list of
    [(key, value)] pairs in insertion order. *)

Inductive pyvalue : Type :=
| PyInt (n : Z)
| PyStr (s : string)
| PyArray1 (x : list R)
| PyArray2 (x : list (list C)).

Inductive pyobject : Type :=
| PyDict (items : list (string * pyvalue))
| PyValue (x : pyvalue).

(** [list(d.keys()) == names]. *)
Fixpoint keys_eqb (keys names : list string) : bool :=
  match keys, names with
  | [], [] => true
  | k :: keys, n :: names => (k =? n)%string && keys_eqb keys names
  | _, _ => false
  end.

(** Modelled from the spec: [check.is_array(x, ndim=1)] is not in the
    sources; it fails unless [x] is an array of one dimension. *)
Definition is_array1 (x : pyvalue) : result (list R) :=
  match x with
  | PyArray1 a => Ok a
  | _ => Err ValueError
  end.

(** Modelled from the spec: [check.is_integer(x, positive=True)] is not
    in the sources; it fails unless [x] is a positive integer. *)
Definition is_integer (x : pyvalue) : result Z :=
  match x with
  | PyInt n => is_integer_positive n ;;; Ok n
  | _ => Err ValueError
  end.

Module Dynamic.

(** Lines 805-823 test the dictionary, read its four entries and test
    their types; the function then goes on as on the record.  A symmetry
    that is not a string is in no list of strings. *)
Definition eigenvalues_BCCB (BCCB0 : pyobject) (ordering : string)
    : result BCCB_eigen.t :=
  match BCCB0 with
  | PyDict items =>
      if negb (keys_eqb (map fst items)
                 ["first_column"; "nblocks"; "npoints_per_block"; "symmetry"])
      then Err ValueError
      else
        match map snd items with
        | [c0; nblocks; npoints_per_block; symmetry] =>
            c0 <- is_array1 c0 ;;
            nblocks <- is_integer nblocks ;;
            npoints_per_block <- is_integer npoints_per_block ;;
            match symmetry with
            | PyStr symmetry =>
                eigenvalues_BCCB
                  (BCCB0.make c0 nblocks npoints_per_block symmetry) ordering
            | _ => Err ValueError
            end
        | _ => Err ValueError
        end
  | _ => Err ValueError
  end.

(** Lines 913-931 test the dictionary, read its five entries and test the
    ordering and the two integers; the matrix of eigenvalues must be a 2D
    array, and the function then goes on as on the record.  The symmetry
    is read and never used.  Without [check_input] nothing is read and
    the names of the entries stay unbound. *)
Definition product_BCCB_vector (BCCB_eigen : pyobject) (v : list R)
    (check_input : bool) : result (list R) :=
  if check_input then
    match BCCB_eigen with
    | PyDict items =>
        if negb (keys_eqb (map fst items)
                   ["eigenvalues"; "ordering"; "nblocks"; "npoints_per_block";
                    "symmetry"])
        then Err ValueError
        else
          match map snd items with
          | [L; ordering; nblocks; npoints_per_block; symmetry] =>
              match ordering with
              | PyStr ordering =>
                  if negb (str_in ordering ["row"; "column"])
                  then Err ValueError
                  else
                    nblocks <- is_integer nblocks ;;
                    npoints_per_block <- is_integer npoints_per_block ;;
                    match L with
                    | PyArray2 L =>
                        product_BCCB_vector
                          (BCCB_eigen.make L ordering nblocks npoints_per_block
                             (match symmetry with PyStr s => s | _ => "" end))
                          v true
                    | _ => Err ValueError
                    end
              | _ => Err ValueError
              end
          | _ => Err ValueError
          end
    | _ => Err ValueError
    end
  else Err UnboundLocalError.

End Dynamic.

(** ** The dense product [T @ v] *)

Section Dense.
Context {A : Type} `{Scalar A}.

Definition dot (x y : list A) : A :=
  fold_right (fun xy acc => add (mul (fst xy) (snd xy)) acc) zero (combine x y).

Definition matvec (T : list (list A)) (v : list A) : list A :=
  map (fun row => dot row v) T.

End Dense.

(** ** The signatures of the public functions *)



(** ** Tables: arrays given by their entries *)

Definition tab {A : Type} (n : nat) (f : nat -> A) : list A := map f (seq 0 n).

Definition tab2 {A : Type} (m n : nat) (f : nat -> nat -> A) : list (list A) :=
  tab m (fun i => tab n (f i)).

(** ** Filtering in the Fourier domain *)















(** ** Functions used to state the properties *)

Section EntrySigns.
Context {A : Type} `{Scalar A}.

(** The sign that a skew symmetry puts above the diagonal. *)
Definition sgn (s : string) (above : bool) (a : A) : A :=
  if above && (s =? "skew")%string then neg a else a.

(** [|a - b|] *)
Definition dist (a b : nat) : nat := if a <? b then b - a else a - b.

(** Entry [(r, c)] of block [(i, j)]. *)
Definition BTTB_entry (ss sb : string) (columns : list (list A))
    (i j r c : nat) : A :=
  sgn ss (i <? j) (sgn sb (r <? c)
    (nth (dist r c) (nth (dist i j) columns []) zero)).

(** The reflected column of one block, negated for skew blocks. *)
Definition reflect1 (sb : string) (x : list A) : list A :=
  if (sb =? "skew")%string then neg1 x else x.

(** The mirrored block column, negated for a skew structure. *)
Definition mirror3 (ss : string) (x : list (list (list A))) :=
  if (ss =? "skew")%string then neg3 x else x.

(** The signs of the three parts of a backward piece of the first column
    of the BCCB. *)
Definition lead_sign (ss : string) (x : list A) : list A :=
  if (ss =? "skew")%string then neg1 x else x.

Definition third_sign (ss sb : string) (x : list A) : list A :=
  if xorb (ss =? "skew")%string (sb =? "skew")%string then neg1 x else x.

(** A forward and a backward piece of the first column of the BCCB. *)
Definition fwd_piece (sb : string) (bi : list A) : list A :=
  hstack1 [bi; [zero]; reflect1 sb (slice_rev_to0 bi)].

Definition bwd_piece (ss sb : string) (bi : list A) : list A :=
  hstack1 [lead_sign ss bi; [zero]; third_sign ss sb (slice_rev_to0 bi)].

(** The name of a pure symmetry from its two tags. *)
Definition symmetry_name (ss sb : string) : string := ss ++ "-" ++ sb.

End EntrySigns.

(** The pieces that [embedding_BCCB_first_column] concatenates. *)
Definition pieces {A : Type} `{Scalar A} (ss sb : string)
    (parts : list (list A)) (p : nat) : list (list A) :=
  map (fwd_piece sb) parts ++ [zeros (2 * Z.of_nat p)]
    ++ map (bwd_piece ss sb) (slice_rev_to0 parts).

(** One, opposite, difference and powers of complex numbers. *)
Definition C1 : C := (1%R, 0%R).

Definition Copp (a : C) : C := (- fst a, - snd a)%R.

Definition Csub (a b : C) : C := Cadd a (Copp b).

Fixpoint Cpow (z : C) (k : nat) : C :=
  match k with
  | O => C1
  | S k' => Cmul z (Cpow z k')
  end.

(** [a + b = m] modulo [M]. *)
Definition delta (M m a b : nat) : bool :=
  ((Z.of_nat m - Z.of_nat a - Z.of_nat b) mod Z.of_nat M =? 0)%Z.

(** [(m - b) mod M], the index of a circular shift. *)
Definition cmod (M m b : nat) : nat :=
  Z.to_nat ((Z.of_nat m - Z.of_nat b) mod Z.of_nat M).

(** The index pairs of an [M] x [N] array. *)
Definition grid (M N : nat) : list (nat * nat) :=
  list_prod (seq 0 M) (seq 0 N).

(** The two transforms on arrays given by their entries. *)
Definition dft2 (M N : nat) (x : nat -> nat -> C) (k1 k2 : nat) : C :=
  Cscale (/ sqrt (INR (M * N)))
    (Csum (seq 0 M) (fun n1 => Csum (seq 0 N) (fun n2 =>
       Cmul (x n1 n2) (cis (- phase M N k1 k2 n1 n2))))).

Definition idft2 (M N : nat) (X : nat -> nat -> C) (n1 n2 : nat) : C :=
  Cscale (/ sqrt (INR (M * N)))
    (Csum (seq 0 M) (fun k1 => Csum (seq 0 N) (fun k2 =>
       Cmul (X k1 k2) (cis (phase M N k1 k2 n1 n2))))).

(** The symmetries that [eigenvalues_BCCB] accepts. *)
Definition nine_symmetries : list string :=
  ["skew-skew"; "skew-symm"; "symm-skew"; "symm-symm"; "gene-symm";
   "symm-gene"; "gene-skew"; "skew-gene"; "gene-gene"].

(** The reshaped first column as a function of the two grid indices. *)
Definition G_of (c0 : list R) (ncols : nat) (a b : nat) : C :=
  RtoC (nth (a * ncols + b) c0 0%R).

(** The zero-padded right-hand side as a function of the grid indices. *)
Definition V_of (v : list R) (q p : nat) (a b : nat) : C :=
  RtoC (if (a <? q) && (b <? p) then nth (a * p + b) v 0%R else 0%R).

(** Finite sums of real numbers. *)
Definition Rsum {I : Type} (l : list I) (f : I -> R) : R :=
  fold_right (fun i acc => (f i + acc)%R) 0%R l.

(** Entry [x] of the result: the sum over the [q] x [p] grid of [v] times
    the circularly shifted first column, read on the [2q] x [2p] grid. *)
Definition circ_product (c0 v : list R) (q p : nat) : list R :=
  tab (q * p) (fun x =>
    Rsum (seq 0 q) (fun j => Rsum (seq 0 p) (fun c =>
      (nth (j * p + c) v 0 *
       nth (cmod (2 * q) (x / p) j * (2 * p) + cmod (2 * p) (x mod p) c) c0 0)%R))).

(** The whole spectral route: first column, eigenvalues, product. *)
Definition fast_product (b0 : list R) (nblocks npoints_per_block : Z)
    (symmetry ordering : string) (v : list R) : result (list R) :=
  BCCB0 <- embedding_BCCB_first_column b0 nblocks npoints_per_block symmetry ;;
  BCCB_eigen <- eigenvalues_BCCB BCCB0 ordering ;;
  product_BCCB_vector BCCB_eigen v true.

(** An integer factor times a vector and times a matrix. *)
Definition scale_vec (f : Z) (w : list R) : list R :=
  map (fun x => (IZR f * x)%R) w.

Definition scale_mat (f : Z) (T : list (list R)) : list (list R) :=
  map (scale_vec f) T.

(** The generating entries that must vanish for the transposed matrix to
    be the factor times the matrix: with skew blocks the diagonal entry of
    each block (of each off-diagonal block when the structure is skew
    too), with a skew structure the diagonal block (off its diagonal when
    the blocks are skew too). *)
Definition transpose_compatible (ss sb : string) (columns : list (list R))
    : Prop :=
  (sb = "skew" -> forall d, (ss = "skew" -> 1 <= d) ->
     nth 0 (nth d columns []) 0%R = 0%R) /\
  (ss = "skew" -> forall k, (sb = "skew" -> 1 <= k) ->
     nth k (nth 0 columns []) 0%R = 0%R).

(** The row of the tables that holds block [(i, j)]: the distance to the
    block diagonal or, for a generic structure, the block column first
    and the block row after it. *)
Definition block_row (ss : string) (q i j : nat) : nat :=
  if (ss =? "gene")%string
  then (if i <? j then q + (j - i) - 1 else i - j)
  else dist i j.

(** Entry [(r, c)] of the Toeplitz block with first column [column] and,
    for a generic block, first row [row] (without the diagonal term). *)
Definition Toeplitz_entry {A : Type} `{Scalar A} (sb : string)
    (column row : list A) (r c : nat) : A :=
  if (sb =? "gene")%string
  then (if r <? c then nth (c - r - 1) row zero else nth (r - c) column zero)
  else sgn sb (r <? c) (nth (dist r c) column zero).

(** Entry [(r, c)] of block [(i, j)] for any of the nine symmetries. *)
Definition generic_entry {A : Type} `{Scalar A} (ss sb : string) (q : nat)
    (columns : list (list A)) (rows : option (list (list A)))
    (i j r c : nat) : A :=
  let k := block_row ss q i j in
  sgn ss (i <? j)
    (Toeplitz_entry sb (nth k columns [])
       (nth k (match rows with Some rs => rs | None => [] end) []) r c).

(** [a * x + y] on two vectors of one length. *)
Definition axpy (a : R) (x y : list R) : list R :=
  map (fun xy => (a * fst xy + snd xy)%R) (combine x y).

(** [c0] is the first column of a block circulant matrix with circulant
    blocks, of [2q] x [2q] blocks of [2p] x [2p] entries, that embeds the
    matrix [T] of [q] x [q] blocks of [p] x [p] entries.  Entry [(r, c)]
    of block [(i, j)] of the circulant matrix is the item of [c0] at
    [((i - j) mod 2q) * 2p + ((r - c) mod 2p)]; for [i, j < q] and
    [r, c < p] it is entry [(r, c)] of block [(i, j)] of [T]. *)
Definition embeds (c0 : list R) (q p : nat) (T : list (list R)) : Prop :=
  length c0 = 4 * q * p /\
  forall i j r c, i < q -> j < q -> r < p -> c < p ->
    nth (cmod (2 * q) i j * (2 * p) + cmod (2 * p) r c) c0 0%R =
    nth (j * p + c) (nth (i * p + r) T []) 0%R.

(** * Properties *)

(** ** Tables and list bookkeeping *)

Section TableFacts.
Context {A : Type}.

Lemma tab_length n (f : nat -> A) : length (tab n f) = n.
Proof. unfold tab. now rewrite length_map, length_seq. Qed.

Lemma tab_nth n (f : nat -> A) i d : i < n -> nth i (tab n f) d = f i.
Proof.
  intros Hi. unfold tab.
  rewrite nth_indep with (d' := f 0) by now rewrite length_map, length_seq.
  rewrite map_nth with (d := 0). now rewrite seq_nth.
Qed.

Lemma tab_ext n (f g : nat -> A) :
  (forall i, i < n -> f i = g i) -> tab n f = tab n g.
Proof.
  intros E. unfold tab. apply map_ext_in. intros i Hi.
  apply in_seq in Hi. apply E. lia.
Qed.

Lemma tab_S n (f : nat -> A) : tab (S n) f = f 0 :: tab n (fun i => f (S i)).
Proof. unfold tab. simpl. f_equal. rewrite <- seq_shift, map_map. reflexivity. Qed.

Lemma tab_app m n (f : nat -> A) :
  tab (m + n) f = tab m f ++ tab n (fun i => f (m + i)).
Proof.
  unfold tab. rewrite seq_app, map_app. f_equal. simpl.
  induction n as [|n IH] in m, f |- *; simpl; [reflexivity|].
  rewrite Nat.add_0_r. f_equal.
  rewrite (IH (S m)), <- seq_shift, map_map.
  apply map_ext. intros i. f_equal. lia.
Qed.

Lemma list_as_tab (l : list A) d : l = tab (length l) (fun i => nth i l d).
Proof.
  induction l as [|x l IH]; [reflexivity|].
  simpl length. rewrite tab_S. simpl. f_equal. exact IH.
Qed.

Lemma tab_eq_nth (l : list A) n f d :
  length l = n -> (forall i, i < n -> nth i l d = f i) -> l = tab n f.
Proof.
  intros L E. rewrite (list_as_tab l d), L. now apply tab_ext.
Qed.

Lemma map_tab {B : Type} (g : A -> B) n (f : nat -> A) :
  map g (tab n f) = tab n (fun i => g (f i)).
Proof. unfold tab. now rewrite map_map. Qed.

Lemma rev_tab n (f : nat -> A) : rev (tab n f) = tab n (fun i => f (n - 1 - i)).
Proof.
  induction n as [|n IH] in f |- *; [reflexivity|].
  rewrite tab_S. simpl rev. rewrite IH.
  replace (S n) with (n + 1) at 1 by lia. rewrite tab_app.
  f_equal.
  - apply tab_ext. intros i Hi. f_equal. lia.
  - unfold tab. simpl. do 2 f_equal. lia.
Qed.

Lemma firstn_tab k n (f : nat -> A) : k <= n -> firstn k (tab n f) = tab k f.
Proof.
  intros Hk. replace n with (k + (n - k)) by lia. rewrite tab_app.
  rewrite firstn_app, tab_length, Nat.sub_diag. simpl.
  rewrite app_nil_r. apply firstn_all2. now rewrite tab_length.
Qed.

Lemma skipn_tab k n (f : nat -> A) :
  k <= n -> skipn k (tab n f) = tab (n - k) (fun i => f (k + i)).
Proof.
  intros Hk. replace n with (k + (n - k)) at 1 by lia. rewrite tab_app.
  rewrite skipn_app, tab_length, Nat.sub_diag. simpl.
  rewrite skipn_all2 by now rewrite tab_length. reflexivity.
Qed.

Lemma tl_tab n (f : nat -> A) : tl (tab n f) = tab (n - 1) (fun i => f (S i)).
Proof.
  destruct n; [reflexivity|]. rewrite tab_S. simpl.
  now rewrite Nat.sub_0_r.
Qed.

End TableFacts.

Section Table2Facts.
Context {A : Type}.

Lemma tab2_ext m n (f g : nat -> nat -> A) :
  (forall i j, i < m -> j < n -> f i j = g i j) -> tab2 m n f = tab2 m n g.
Proof.
  intros E. unfold tab2. apply tab_ext. intros i Hi.
  apply tab_ext. intros j Hj. now apply E.
Qed.

Lemma tab2_length m n (f : nat -> nat -> A) : length (tab2 m n f) = m.
Proof. apply tab_length. Qed.

Lemma tab2_nth m n (f : nat -> nat -> A) i j d :
  i < m -> j < n -> nth j (nth i (tab2 m n f) []) d = f i j.
Proof.
  intros Hi Hj. unfold tab2. rewrite tab_nth by assumption.
  now apply tab_nth.
Qed.

Lemma concat_tab2 m n (f : nat -> nat -> A) :
  concat (tab2 m n f) = tab (m * n) (fun x => f (x / n) (x mod n)).
Proof.
  unfold tab2. induction m as [|m IH] in f |- *; [reflexivity|].
  rewrite tab_S. simpl concat. rewrite IH.
  replace (S m * n) with (n + m * n) by lia. rewrite tab_app.
  destruct (Nat.eq_dec n 0) as [->|Hn].
  { simpl. rewrite Nat.mul_0_r. reflexivity. }
  f_equal.
  - apply tab_ext. intros i Hi.
    now rewrite Nat.div_small, Nat.mod_small.
  - apply tab_ext. intros i Hi.
    replace (n + i) with (i + 1 * n) by lia.
    rewrite Nat.div_add, Nat.Div0.mod_add by lia.
    f_equal. lia.
Qed.

Lemma chunks_tab k m (f : nat -> A) :
  chunks k m (tab (k * m) f) = tab2 k m (fun i j => f (i * m + j)).
Proof.
  unfold tab2. induction k as [|k IH] in f |- *; [reflexivity|].
  simpl chunks. rewrite tab_S. f_equal.
  - rewrite firstn_tab by lia. reflexivity.
  - rewrite skipn_tab by lia.
    replace (m + k * m - m) with (k * m) by lia. rewrite IH.
    apply tab_ext. intros i Hi. apply tab_ext. intros j Hj. f_equal. lia.
Qed.

End Table2Facts.

(** ** The numpy primitives on tables *)

Lemma mapM_ok {A B : Type} (f : A -> result B) (g : A -> B) l :
  (forall a, In a l -> f a = Ok (g a)) -> mapM f l = Ok (map g l).
Proof.
  induction l as [|x l IH]; intros E; [reflexivity|].
  simpl. rewrite (E x) by now left. simpl.
  rewrite IH by (intros a Ha; apply E; now right). reflexivity.
Qed.

Lemma mapM_tab {A : Type} (f : nat -> result A) (g : nat -> A) n :
  (forall i, i < n -> f i = Ok (g i)) -> mapM f (seq 0 n) = Ok (tab n g).
Proof.
  intros E. apply mapM_ok. intros i Hi. apply in_seq in Hi. apply E. lia.
Qed.

Lemma mapM_map {A B C : Type} (f : B -> result C) (h : A -> B) l :
  mapM f (map h l) = mapM (fun a => f (h a)) l.
Proof.
  induction l as [|x l IH]; [reflexivity|]. simpl. now rewrite IH.
Qed.

Section GetItem.
Context {A : Type}.

Lemma getitem_wrap (x : list A) (k : Z) d :
  (- Z.of_nat (length x) <= k < Z.of_nat (length x))%Z ->
  getitem x k = Ok (nth (Z.to_nat (k mod Z.of_nat (length x))) x d).
Proof.
  intros Hk. unfold getitem.
  set (n := Z.of_nat (length x)) in *.
  assert (E : (if (k <? 0)%Z then (k + n)%Z else k) = (k mod n)%Z).
  { destruct (Z.ltb_spec k 0).
    - apply Z.mod_unique with (q := (-1)%Z); lia.
    - symmetry. apply Z.mod_small. lia. }
  rewrite E.
  assert (Hm : (0 <= k mod n < n)%Z) by (apply Z.mod_pos_bound; lia).
  replace ((0 <=? k mod n)%Z && (k mod n <? n)%Z) with true
    by (symmetry; apply andb_true_iff; split; [apply Z.leb_le|apply Z.ltb_lt]; lia).
  rewrite nth_error_nth' with (d := d) by (subst n; lia).
  reflexivity.
Qed.

Lemma getitem_nat (x : list A) (k : nat) d :
  k < length x -> getitem x (Z.of_nat k) = Ok (nth k x d).
Proof.
  intros Hk. rewrite getitem_wrap with (d := d) by lia.
  rewrite Z.mod_small by lia. now rewrite Nat2Z.id.
Qed.

(** Gathering with an index table whose entries all are in range. *)
Lemma fancy_tab2 (x : list A) m n (idx : nat -> nat -> Z) d :
  (forall i j, i < m -> j < n ->
     (- Z.of_nat (length x) <= idx i j < Z.of_nat (length x))%Z) ->
  fancy x (tab2 m n idx) =
  Ok (tab2 m n (fun i j =>
        nth (Z.to_nat (idx i j mod Z.of_nat (length x))) x d)).
Proof.
  intros Hr. unfold fancy, tab2, tab at 1. rewrite mapM_map.
  apply mapM_tab. intros i Hi. unfold tab at 1. rewrite mapM_map.
  apply mapM_tab. intros j Hj. apply getitem_wrap. now apply Hr.
Qed.

End GetItem.

Lemma arange_up (n : nat) : arange 0 (Z.of_nat n) 1 = tab n Z.of_nat.
Proof.
  unfold arange. change (0 <? 1)%Z with true. cbv iota.
  replace (Z.of_nat n - 0 + 1 - 1)%Z with (Z.of_nat n) by lia.
  rewrite Z.div_1_r, Nat2Z.id. apply tab_ext. intros k _. lia.
Qed.

Lemma arange_down (n : nat) :
  arange (Z.of_nat n - 1) (-1) (-1) = tab n (fun k => (Z.of_nat n - 1 - Z.of_nat k)%Z).
Proof.
  unfold arange. change (0 <? -1)%Z with false. change (-1 <? 0)%Z with true.
  change (- -1)%Z with 1%Z. cbv iota.
  replace (Z.of_nat n - 1 - -1 - -1 - 1)%Z with (Z.of_nat n) by lia.
  rewrite Z.div_1_r, Nat2Z.id. apply tab_ext. intros k _. lia.
Qed.

Lemma arange_neg (n : nat) :
  arange 0 (- Z.of_nat n) (-1) = tab n (fun k => (- Z.of_nat k)%Z).
Proof.
  unfold arange. change (0 <? -1)%Z with false. change (-1 <? 0)%Z with true.
  change (- -1)%Z with 1%Z. cbv iota.
  replace (0 - - Z.of_nat n - -1 - 1)%Z with (Z.of_nat n) by lia.
  rewrite Z.div_1_r, Nat2Z.id. apply tab_ext. intros k _. lia.
Qed.

Lemma outer_sum_tab m n (f g : nat -> Z) :
  outer_sum (tab m f) (tab n g) = tab2 m n (fun i j => (f i + g j)%Z).
Proof.
  unfold outer_sum, tab2. rewrite map_tab. apply tab_ext. intros i _.
  now rewrite map_tab.
Qed.

Section HStack.
Context {A : Type}.

Lemma hstack_tab q p (g : nat -> nat -> list A) :
  0 < q ->
  hstack (tab q (fun i => tab p (g i))) =
  Ok (tab p (fun j => concat (tab q (fun i => g i j)))).
Proof.
  intros Hq. unfold hstack.
  destruct q as [|q]; [lia|]. rewrite tab_S at 1. cbv beta iota.
  rewrite tab_length.
  replace (forallb _ _) with true.
  2:{ symmetry. apply forallb_forall. intros a Ha.
      unfold tab in Ha. apply in_map_iff in Ha. destruct Ha as [i [<- _]].
      rewrite length_map, length_seq. apply Nat.eqb_refl. }
  f_equal. apply tab_ext. intros j Hj. f_equal.
  rewrite map_tab. apply tab_ext. intros i _.
  now rewrite tab_nth.
Qed.

End HStack.

(** Two [np.hstack]s turn a [q] x [q] table of [p] x [p] blocks into
    the [q p] x [q p] matrix. *)
Section HStackBlocks.
Context {A : Type}.

Lemma hstack_hstack_blocks q p (e : nat -> nat -> nat -> nat -> A) :
  0 < q ->
  (inner <- hstack (tab2 q q (fun i j => tab2 p p (e i j))) ;; hstack inner) =
  Ok (tab2 (q * p) (q * p)
        (fun x y => e (x / p) (y / p) (x mod p) (y mod p))).
Proof.
  intros Hq. unfold tab2 at 1.
  rewrite (hstack_tab q (fun i j => tab2 p p (e i j))) by assumption.
  simpl bind.
  erewrite tab_ext.
  2:{ intros j _. apply (concat_tab2 q p (fun i r => tab p (e i j r))). }
  rewrite (hstack_tab (q * p)
             (fun j x => tab p (e (x / p) j (x mod p)))) by assumption.
  f_equal. unfold tab2. apply tab_ext. intros x _.
  apply (concat_tab2 q p (fun j c => e (x / p) j (x mod p) c)).
Qed.

End HStackBlocks.

(** ** What the validation guarantees *)

Lemma str_in_cases s l : str_in s l = true -> In s l.
Proof.
  unfold str_in. intros E. apply existsb_exists in E.
  destruct E as [x [Hx E]]. apply String.eqb_eq in E. now subst.
Qed.

Lemma is_array2_ok {A : Type} (x : list (list A)) :
  is_array2 x = Ok tt ->
  forall row, In row x -> length row = length (hd [] x).
Proof.
  unfold is_array2. destruct (forallb _ x) eqn:E; [|discriminate].
  intros _ row Hr. rewrite forallb_forall in E.
  now apply Nat.eqb_eq, E.
Qed.

Lemma bind_Ok_inv {A B : Type} (m : result A) (k : A -> result B) b :
  bind m k = Ok b -> exists a, m = Ok a /\ k a = Ok b.
Proof. destruct m as [a|e]; simpl; [eauto|discriminate]. Qed.

Lemma BTTB_metadata_ok {A : Type} ss sb Q (columns : list (list A)) rows :
  BTTB_metadata ss sb Q columns rows = Ok tt ->
  In ss ["gene"; "symm"; "skew"] /\ In sb ["gene"; "symm"; "skew"] /\
  (0 < Q)%Z /\
  (forall row, In row columns -> length row = length (hd [] columns)) /\
  Z.of_nat (length columns) = (if (ss =? "gene")%string then 2 * Q - 1 else Q)%Z.
Proof.
  unfold BTTB_metadata. intros E.
  destruct (str_in ss _) eqn:E1; [|discriminate].
  destruct (str_in sb _) eqn:E2; [|discriminate].
  cbv beta iota delta [negb] in E.
  apply bind_Ok_inv in E. destruct E as [[] [E0 E]].
  apply bind_Ok_inv in E. destruct E as [[] [E3 E]].
  unfold is_integer_positive in E0.
  destruct (Z.ltb_spec 0 Q); [|discriminate].
  destruct (Z.eqb_spec (Z.of_nat (length columns))
              (if (ss =? "gene")%string then 2 * Q - 1 else Q)%Z) as [E4|];
    [|discriminate].
  repeat split; auto using str_in_cases.
  now apply is_array2_ok.
Qed.

(** ** The entries of the dense BTTB matrix, pure symmetries *)

Section PureBTTB.
Context {A : Type} `{Scalar A}.

Lemma generic_BTTB_pure ss sb Q columns rows ci :
  In ss ["symm"; "skew"] -> In sb ["symm"; "skew"] ->
  generic_BTTB ss sb Q columns rows ci =
  ((if ci then BTTB_metadata ss sb Q columns rows else Ok tt) ;;;
   let P := Z.of_nat (length (hd [] columns)) in
   let ind_blocks := outer_sum (arange 0 P 1) (arange (P - 1) (-1) (-1)) in
   blocks <- mapM (fun column =>
     fancy (reflect1 sb (slice_rev_to0 column) ++ column) ind_blocks) columns ;;
   back <- stack blocks ;; front <- stack blocks ;;
   gathered <- fancy (mirror3 ss (slice_rev_to0 back) ++ front)
     (outer_sum (arange 0 Q 1) (arange (Q - 1) (-1) (-1))) ;;
   inner <- hstack gathered ;; hstack inner).
Proof.
  intros Hs Hb. simpl in Hs, Hb.
  destruct Hs as [<-|[<-|[]]]; destruct Hb as [<-|[<-|[]]];
    unfold generic_BTTB, reflect1, mirror3;
    (destruct (if ci then _ else _) as [[]|]; [|reflexivity]);
    cbn [bind String.eqb Ascii.eqb Bool.eqb];
    (destruct (mapM _ columns) as [blocks|]; [|reflexivity]);
    cbn [bind]; (destruct (stack blocks); reflexivity).
Qed.

(** One Toeplitz block, gathered from the reflected column. *)
Lemma Toeplitz_block sb (column : list A) :
  In sb ["symm"; "skew"] ->
  let p := length column in
  fancy (reflect1 sb (slice_rev_to0 column) ++ column)
    (outer_sum (arange 0 (Z.of_nat p) 1) (arange (Z.of_nat p - 1) (-1) (-1))) =
  Ok (tab2 p p (fun r c => sgn sb (r <? c) (nth (dist r c) column zero))).
Proof.
  intros Hb p.
  rewrite arange_up, arange_down, outer_sum_tab.
  set (x := reflect1 sb (slice_rev_to0 column) ++ column).
  assert (Lr : length (reflect1 sb (slice_rev_to0 column)) = p - 1).
  { unfold reflect1, neg1, slice_rev_to0.
    destruct (sb =? "skew")%string; rewrite ?length_map, length_rev;
      destruct column; simpl; subst p; simpl; lia. }
  assert (Lx : length x = 2 * p - 1 \/ p = 0).
  { unfold x. rewrite length_app, Lr. fold p. lia. }
  rewrite fancy_tab2 with (d := zero) by (intros; lia).
  f_equal. unfold tab2. apply tab_ext. intros r Hr. apply tab_ext. intros c Hc.
  rewrite Z.mod_small by lia.
  replace (Z.to_nat (Z.of_nat r + (Z.of_nat p - 1 - Z.of_nat c)))
    with (r + (p - 1 - c)) by lia.
  unfold x, dist, sgn. destruct (Nat.ltb_spec r c) as [Hrc|Hrc]; simpl andb.
  - rewrite app_nth1 by lia.
    unfold reflect1, neg1, slice_rev_to0.
    assert (Hn : nth (r + (p - 1 - c)) (rev (tl column)) zero
                 = nth (c - r) column zero).
    { rewrite rev_nth by (destruct column; simpl in *; subst p; simpl in *; lia).
      destruct column as [|a column]; [simpl in *; subst p; simpl in *; lia|].
      simpl tl. simpl length in p. subst p.
      replace (c - r) with (S (length column - S (r + (S (length column) - 1 - c))))
        by lia.
      reflexivity. }
    simpl in Hb. destruct Hb as [<-|[<-|[]]]; simpl String.eqb; cbv iota.
    + exact Hn.
    + rewrite <- Hn.
      rewrite nth_indep with (d' := neg zero)
        by (rewrite length_map, length_rev;
            destruct column; simpl in *; subst p; simpl in *; lia).
      apply map_nth.
  - rewrite app_nth2 by lia. rewrite Lr. f_equal. lia.
Qed.

End PureBTTB.

Section PureBTTBEntries.
Context {A : Type} `{Scalar A}.

Lemma neg2_tab2 m n (f : nat -> nat -> A) :
  neg2 (tab2 m n f) = tab2 m n (fun i j => neg (f i j)).
Proof.
  unfold neg2, neg1, tab2. rewrite map_tab. apply tab_ext. intros i _.
  now rewrite map_tab.
Qed.

Lemma nth_map_in {X Y : Type} (g : X -> Y) l k dx dy :
  k < length l -> nth k (map g l) dy = g (nth k l dx).
Proof.
  intros Hk. rewrite nth_indep with (d' := g dx) by now rewrite length_map.
  apply map_nth.
Qed.

(** The dense matrix of a pure symmetry, entry by entry. *)
Lemma generic_BTTB_pure_entries ss sb (q p : nat)
    (columns : list (list A)) rows (ci : bool) :
  In ss ["symm"; "skew"] -> In sb ["symm"; "skew"] ->
  0 < q -> length columns = q ->
  (forall col, In col columns -> length col = p) ->
  (if ci then BTTB_metadata ss sb (Z.of_nat q) columns rows else Ok tt) = Ok tt ->
  generic_BTTB ss sb (Z.of_nat q) columns rows ci =
  Ok (tab2 (q * p) (q * p) (fun x y =>
        BTTB_entry ss sb columns (x / p) (y / p) (x mod p) (y mod p))).
Proof.
  intros Hs Hb Hq Lc Lp Hci.
  rewrite generic_BTTB_pure by assumption. rewrite Hci. cbn [bind].
  assert (Lh : length (hd [] columns) = p).
  { apply Lp. destruct columns; [simpl in Lc; lia|now left]. }
  rewrite Lh. cbv zeta.
  set (g := fun column : list A =>
         tab2 p p (fun r c => sgn sb (r <? c) (nth (dist r c) column zero))).
  rewrite mapM_ok with (g := g).
  2:{ intros col Hcol. unfold g. rewrite <- (Lp col Hcol).
      now apply Toeplitz_block. }
  cbn [bind].
  assert (Lb : length (map g columns) = q) by now rewrite length_map.
  assert (Es : stack (map g columns) = Ok (map g columns)).
  { destruct (map g columns); [simpl in Lb; lia|reflexivity]. }
  rewrite Es. cbn [bind].
  rewrite arange_up, arange_down, outer_sum_tab.
  set (cat := mirror3 ss (slice_rev_to0 (map g columns)) ++ map g columns).
  assert (Lm : length (mirror3 ss (slice_rev_to0 (map g columns))) = q - 1).
  { unfold mirror3, neg3, slice_rev_to0.
    destruct (ss =? "skew")%string; rewrite ?length_map, length_rev;
      destruct columns; simpl in *; lia. }
  assert (Lcat : length cat = 2 * q - 1).
  { unfold cat. rewrite length_app, Lm, Lb. lia. }
  rewrite fancy_tab2 with (d := @nil (list A)) by (intros; lia).
  cbn [bind]. rewrite Lcat.
  rewrite tab2_ext
    with (g := fun i j => tab2 p p (BTTB_entry ss sb columns i j)).
  2:{ intros i j Hi Hj.
      rewrite Z.mod_small by lia.
      replace (Z.to_nat (Z.of_nat i + (Z.of_nat q - 1 - Z.of_nat j)))
        with (i + (q - 1 - j)) by lia.
      unfold cat, BTTB_entry, dist.
      destruct (Nat.ltb_spec i j) as [Hij|Hij].
      - rewrite app_nth1 by lia.
        assert (Hr : nth (i + (q - 1 - j)) (slice_rev_to0 (map g columns)) []
                     = g (nth (j - i) columns [])).
        { unfold slice_rev_to0.
          rewrite rev_nth
            by (destruct columns; simpl in *; rewrite ?length_map; lia).
          destruct columns as [|c0 columns]; [simpl in Lc; lia|].
          simpl tl. simpl length in Lc. rewrite length_map.
          replace (j - i) with (S (length columns - S (i + (q - 1 - j)))) by lia.
          simpl nth. apply nth_map_in. lia. }
        unfold mirror3, sgn. simpl in Hs.
        destruct Hs as [<-|[<-|[]]]; simpl String.eqb; cbv iota.
        + rewrite Hr. unfold g, tab2. apply tab_ext. intros r _.
          apply tab_ext. intros c _. now rewrite andb_false_r.
        + unfold neg3.
          rewrite nth_map_in with (dx := [])
            by (unfold slice_rev_to0; rewrite length_rev;
                destruct columns; simpl in *; rewrite ?length_map; lia).
          rewrite Hr. unfold g. rewrite neg2_tab2. reflexivity.
      - rewrite app_nth2 by lia. rewrite Lm.
        replace (i + (q - 1 - j) - (q - 1)) with (i - j) by lia.
        rewrite nth_map_in with (dx := []) by lia.
        unfold g, sgn. reflexivity. }
  apply hstack_hstack_blocks. exact Hq.
Qed.

End PureBTTBEntries.

Lemma divmod_block i r p : r < p -> (i * p + r) / p = i /\ (i * p + r) mod p = r.
Proof.
  intros Hr. split.
  - rewrite Nat.add_comm, Nat.div_add by lia. rewrite Nat.div_small by lia. lia.
  - rewrite Nat.add_comm, Nat.Div0.mod_add. now apply Nat.mod_small.
Qed.

Lemma block_index_lt i r q p : i < q -> r < p -> i * p + r < q * p.
Proof. intros. nia. Qed.

Lemma transpose_tab2 {A : Type} m n (f : nat -> nat -> A) d :
  transpose n (tab2 m n f) d = tab2 n m (fun j i => f i j).
Proof.
  unfold transpose. fold (tab n (fun j => map (fun row => nth j row d) (tab2 m n f))).
  unfold tab2. apply tab_ext. intros j Hj. rewrite map_tab.
  apply tab_ext. intros i Hi. now apply tab_nth.
Qed.

Lemma pure_valid_shape {A : Type} ss sb Q (columns : list (list A)) rows :
  In ss ["symm"; "skew"] ->
  BTTB_metadata ss sb Q columns rows = Ok tt ->
  0 < Z.to_nat Q /\ Q = Z.of_nat (Z.to_nat Q) /\
  length columns = Z.to_nat Q /\
  forall col, In col columns -> length col = length (hd [] columns).
Proof.
  intros Hs Hv. apply BTTB_metadata_ok in Hv.
  destruct Hv as (_ & _ & HQ & Hrect & Hlen).
  assert (E : (ss =? "gene")%string = false)
    by (simpl in Hs; destruct Hs as [<-|[<-|[]]]; reflexivity).
  rewrite E in Hlen. repeat split; try lia. exact Hrect.
Qed.

Lemma dist_sym a b : dist a b = dist b a.
Proof.
  unfold dist. destruct (Nat.ltb_spec a b), (Nat.ltb_spec b a); lia.
Qed.

(** [generic_BTTB] returns a matrix on every valid table of a pure
    symmetry, with or without the validation. *)
Lemma generic_BTTB_pure_valid {A : Type} `{Scalar A} ss sb Q
    (columns : list (list A)) rows (ci : bool) :
  In ss ["symm"; "skew"] -> In sb ["symm"; "skew"] ->
  BTTB_metadata ss sb Q columns rows = Ok tt ->
  let q := Z.to_nat Q in
  let p := length (hd [] columns) in
  generic_BTTB ss sb Q columns rows ci =
  Ok (tab2 (q * p) (q * p) (fun x y =>
        BTTB_entry ss sb columns (x / p) (y / p) (x mod p) (y mod p))).
Proof.
  intros Hs Hb Hv q p.
  destruct (pure_valid_shape _ _ _ _ Hs Hv) as (Hq & EQ & Lc & Lp).
  fold q in Hq, EQ, Lc. clearbody q. subst Q.
  apply generic_BTTB_pure_entries; try assumption.
  destruct ci; [exact Hv|reflexivity].
Qed.

(** ** Complex arithmetic *)

Lemma C_eq (a b : C) : fst a = fst b -> snd a = snd b -> a = b.
Proof. destruct a, b; simpl; intros; subst; reflexivity. Qed.

Ltac c_ring := intros; apply C_eq; unfold Cadd, Cmul, Csub, Copp, Cscale, RtoC, C0, C1; simpl; ring.

Lemma C_ring_theory : ring_theory C0 C1 Cadd Cmul Csub Copp eq.
Proof.
  constructor; c_ring.
Qed.

Add Ring C_ring : C_ring_theory.

Lemma Cscale_mul r a : Cscale r a = Cmul (RtoC r) a.
Proof. c_ring. Qed.

Lemma RtoC_mul a b : RtoC (a * b) = Cmul (RtoC a) (RtoC b).
Proof. c_ring. Qed.

Lemma RtoC_add a b : RtoC (a + b) = Cadd (RtoC a) (RtoC b).
Proof. c_ring. Qed.

Lemma Re_RtoC a : Re (RtoC a) = a.
Proof. reflexivity. Qed.

Lemma Cmul_eq0 a b : a <> C0 -> Cmul a b = C0 -> b = C0.
Proof.
  destruct a as [x y], b as [u v]. unfold Cmul, C0. simpl.
  intros Ha E. injection E as E1 E2.
  assert (Hn : (x * x + y * y <> 0)%R).
  { intros Hz. apply Ha.
    destruct (Rplus_sqr_eq_0 x y Hz) as [-> ->]. reflexivity. }
  assert (Hu : ((x * x + y * y) * u = 0)%R).
  { replace ((x * x + y * y) * u)%R
      with (x * (x * u - y * v) + y * (x * v + y * u))%R by ring.
    rewrite E1, E2. ring. }
  assert (Hv : ((x * x + y * y) * v = 0)%R).
  { replace ((x * x + y * y) * v)%R
      with (x * (x * v + y * u) - y * (x * u - y * v))%R by ring.
    rewrite E1, E2. ring. }
  apply Rmult_integral in Hu, Hv.
  destruct Hu as [?| ->]; [contradiction|].
  destruct Hv as [?| ->]; [contradiction|]. reflexivity.
Qed.

Lemma cis_add a b : cis (a + b) = Cmul (cis a) (cis b).
Proof.
  unfold cis, Cmul. simpl. rewrite cos_plus, sin_plus. apply C_eq; simpl; ring.
Qed.

Lemma cis_0 : cis 0 = C1.
Proof. unfold cis, C1. now rewrite cos_0, sin_0. Qed.

(** [exp(2 pi i n) = 1] for an integer [n]. *)
Lemma cis_2PI_Z (n : Z) : cis (2 * PI * IZR n) = C1.
Proof.
  unfold cis, C1.
  assert (Hs : sin (PI * IZR n) = 0%R).
  { apply sin_eq_0_1. exists n. ring. }
  f_equal.
  - replace (2 * PI * IZR n)%R with (2 * (PI * IZR n))%R by ring.
    rewrite cos_2a_sin, Hs. ring.
  - replace (2 * PI * IZR n)%R with (2 * (PI * IZR n))%R by ring.
    rewrite sin_2a, Hs. ring.
Qed.

(** [exp(2 pi i s / M) = 1] only when [M] divides [s]. *)
Lemma cis_root_eq1 (M : nat) (s : Z) :
  0 < M -> cis (2 * PI * (IZR s / INR M)) = C1 -> (s mod Z.of_nat M = 0)%Z.
Proof.
  intros HM E. unfold cis, C1 in E. injection E as Ec _.
  assert (HMr : (0 < INR M)%R) by (apply lt_0_INR; lia).
  replace (2 * PI * (IZR s / INR M))%R with (2 * (PI * IZR s / INR M))%R in Ec
    by (field; lra).
  rewrite cos_2a_sin in Ec.
  assert (Hs : sin (PI * IZR s / INR M) = 0%R) by nra.
  apply sin_eq_0_0 in Hs. destruct Hs as [k Hk].
  assert (Hpi : (0 < PI)%R) by apply PI_RGT_0.
  assert (E2 : IZR s = IZR (k * Z.of_nat M)).
  { rewrite mult_IZR, <- INR_IZR_INZ.
    apply Rmult_eq_reg_l with (r := PI); [|lra].
    replace (PI * (IZR k * INR M))%R with (IZR k * PI * INR M)%R by ring.
    rewrite <- Hk. field. lra. }
  apply eq_IZR in E2. subst s. apply Z.mod_mul. lia.
Qed.

(** ** Finite sums of complex numbers *)

Section SumFacts.
Context {I : Type}.

Lemma Csum_ext (l : list I) f g :
  (forall i, In i l -> f i = g i) -> Csum l f = Csum l g.
Proof.
  induction l as [|x l IH]; intros E; [reflexivity|].
  simpl. rewrite (E x) by now left.
  rewrite IH by (intros; apply E; now right). reflexivity.
Qed.

Lemma Csum_app (l1 l2 : list I) f :
  Csum (l1 ++ l2) f = Cadd (Csum l1 f) (Csum l2 f).
Proof.
  induction l1 as [|x l IH]; simpl; [ring|]. rewrite IH. ring.
Qed.

Lemma Csum_mul_l c (l : list I) f :
  Cmul c (Csum l f) = Csum l (fun i => Cmul c (f i)).
Proof.
  induction l as [|x l IH]; simpl; [ring|]. rewrite <- IH. ring.
Qed.

Lemma Csum_mul_r c (l : list I) f :
  Cmul (Csum l f) c = Csum l (fun i => Cmul (f i) c).
Proof.
  induction l as [|x l IH]; simpl; [ring|]. rewrite <- IH. ring.
Qed.

Lemma Csum_add (l : list I) f g :
  Csum l (fun i => Cadd (f i) (g i)) = Cadd (Csum l f) (Csum l g).
Proof.
  induction l as [|x l IH]; simpl; [ring|]. rewrite IH. ring.
Qed.

Lemma Csum_zero (l : list I) f :
  (forall i, In i l -> f i = C0) -> Csum l f = C0.
Proof.
  induction l as [|x l IH]; intros E; [reflexivity|].
  simpl. rewrite (E x) by now left.
  rewrite IH by (intros; apply E; now right). ring.
Qed.

Lemma Csum_RtoC (l : list I) (f : I -> R) :
  Csum l (fun i => RtoC (f i)) =
  RtoC (fold_right (fun i acc => (f i + acc)%R) 0%R l).
Proof.
  induction l as [|x l IH]; simpl; [reflexivity|].
  rewrite IH. c_ring.
Qed.

End SumFacts.

Lemma Csum_map {I J : Type} (h : I -> J) (l : list I) f :
  Csum (map h l) f = Csum l (fun i => f (h i)).
Proof. induction l as [|x l IH]; simpl; [reflexivity|]. now rewrite IH. Qed.

Lemma Csum_swap {I J : Type} (l1 : list I) (l2 : list J) f :
  Csum l1 (fun a => Csum l2 (fun b => f a b)) =
  Csum l2 (fun b => Csum l1 (fun a => f a b)).
Proof.
  induction l1 as [|x l IH]; simpl.
  - symmetry. now apply Csum_zero.
  - rewrite IH. now rewrite Csum_add.
Qed.

Lemma Csum_list_prod {I J : Type} (l1 : list I) (l2 : list J) f :
  Csum (list_prod l1 l2) f = Csum l1 (fun a => Csum l2 (fun b => f (a, b))).
Proof.
  induction l1 as [|x l IH]; simpl; [reflexivity|].
  rewrite Csum_app, Csum_map, IH. reflexivity.
Qed.

Lemma Csum_prod {I J : Type} (l1 : list I) (l2 : list J) f g :
  Cmul (Csum l1 f) (Csum l2 g) =
  Csum l1 (fun a => Csum l2 (fun b => Cmul (f a) (g b))).
Proof.
  rewrite Csum_mul_r. apply Csum_ext. intros a _. apply Csum_mul_l.
Qed.

(** A sum with a single non-zero term. *)
Lemma Csum_delta (M a0 : nat) (f : nat -> C) :
  a0 < M ->
  Csum (seq 0 M) (fun a => if a =? a0 then f a else C0) = f a0.
Proof.
  intros Ha.
  replace M with (a0 + (1 + (M - a0 - 1))) by lia.
  rewrite !seq_app, !Csum_app. simpl seq. simpl Csum.
  rewrite Nat.eqb_refl.
  rewrite (Csum_zero (seq 0 a0)).
  2:{ intros i Hi. apply in_seq in Hi.
      destruct (Nat.eqb_spec i a0); [lia|reflexivity]. }
  rewrite (Csum_zero (seq _ _)).
  2:{ intros i Hi. apply in_seq in Hi.
      destruct (Nat.eqb_spec i a0); [lia|reflexivity]. }
  ring.
Qed.

(** ** Orthogonality of the roots of unity *)

Lemma cis_pow theta k : cis (INR k * theta) = Cpow (cis theta) k.
Proof.
  induction k as [|k IH].
  - simpl. rewrite Rmult_0_l. apply cis_0.
  - rewrite S_INR. simpl Cpow. rewrite <- IH, <- cis_add. f_equal. ring.
Qed.

Lemma geometric_sum z M :
  Cmul (Csub z C1) (Csum (seq 0 M) (Cpow z)) = Csub (Cpow z M) C1.
Proof.
  induction M as [|M IH].
  - simpl. ring.
  - rewrite seq_S, Csum_app. simpl seq. simpl Csum. simpl Cpow.
    transitivity (Cadd (Cmul (Csub z C1) (Csum (seq 0 M) (Cpow z)))
                       (Cmul (Csub z C1) (Cpow z M))); [ring|].
    rewrite IH. ring.
Qed.

Lemma Csum_const1 {I : Type} (l : list I) :
  Csum l (fun _ => C1) = RtoC (INR (length l)).
Proof.
  induction l as [|x l IH]; [reflexivity|].
  simpl Csum. rewrite IH. simpl length. rewrite S_INR. c_ring.
Qed.

Lemma cis_sum_orth (M : nat) (s : Z) :
  0 < M ->
  Csum (seq 0 M) (fun k => cis (2 * PI * (INR k * IZR s / INR M))) =
  if (s mod Z.of_nat M =? 0)%Z then RtoC (INR M) else C0.
Proof.
  intros HM.
  assert (HMr : (0 < INR M)%R) by (apply lt_0_INR; lia).
  destruct (Z.eqb_spec (s mod Z.of_nat M) 0) as [E|E].
  - apply Z.mod_divide in E; [|lia]. destruct E as [t ->].
    rewrite Csum_ext with (g := fun _ => C1).
    + now rewrite Csum_const1, length_seq.
    + intros k _. rewrite <- (cis_2PI_Z (Z.of_nat k * t)). f_equal.
      rewrite !mult_IZR, <- !INR_IZR_INZ. field. lra.
  - set (z := cis (2 * PI * (IZR s / INR M))).
    rewrite Csum_ext with (g := Cpow z).
    2:{ intros k _. unfold z. rewrite <- cis_pow. f_equal. field. lra. }
    apply Cmul_eq0 with (a := Csub z C1).
    + intros Hz. apply E. apply cis_root_eq1; [exact HM|].
      fold z. transitivity (Cadd (Csub z C1) C1); [ring|]. rewrite Hz. ring.
    + rewrite geometric_sum. unfold z. rewrite <- cis_pow.
      replace (INR M * (2 * PI * (IZR s / INR M)))%R with (2 * PI * IZR s)%R
        by (field; lra).
      rewrite cis_2PI_Z. ring.
Qed.

(** ** The convolution theorem

    First over an arbitrary finite index list with an orthogonality
    relation, then for the phases of the 2D transform. *)

Section AbstractConvolution.
Context {I : Type}.
Variable idx : list I.
Variables g v : I -> C.
Variable eb : I -> I -> C.
Variable em : I -> C.
Variable delta : I -> I -> bool.
Variables S Rr Nn : C.
Hypothesis S_Rr : Cmul S Rr = C1.
Hypothesis S_S_Nn : Cmul (Cmul S S) Nn = C1.
Hypothesis orth : forall a b, In a idx -> In b idx ->
  Csum idx (fun k => Cmul (Cmul (eb k a) (eb k b)) (em k)) =
  if delta a b then Nn else C0.

Lemma convolution_abstract :
  Cmul S (Csum idx (fun k =>
    Cmul (Cmul (Cmul Rr (Cmul S (Csum idx (fun a => Cmul (g a) (eb k a)))))
               (Cmul S (Csum idx (fun b => Cmul (v b) (eb k b)))))
         (em k))) =
  Csum idx (fun b => Csum idx (fun a =>
    if delta a b then Cmul (v b) (g a) else C0)).
Proof.
  rewrite Csum_ext with (g := fun k => Cmul (Cmul Rr (Cmul S S))
    (Csum idx (fun a => Csum idx (fun b =>
       Cmul (Cmul (g a) (v b)) (Cmul (Cmul (eb k a) (eb k b)) (em k)))))).
  2:{ intros k _.
      transitivity (Cmul (Cmul Rr (Cmul S S))
        (Cmul (Cmul (Csum idx (fun a => Cmul (g a) (eb k a)))
                    (Csum idx (fun b => Cmul (v b) (eb k b)))) (em k)));
        [ring|].
      f_equal. rewrite Csum_prod, Csum_mul_r. apply Csum_ext. intros a _.
      rewrite Csum_mul_r. apply Csum_ext. intros b _. ring. }
  rewrite <- Csum_mul_l.
  rewrite Csum_swap.
  rewrite Csum_ext with (g := fun a => Csum idx (fun b =>
    Cmul (Cmul (g a) (v b)) (if delta a b then Nn else C0))).
  2:{ intros a Ha. rewrite Csum_swap. apply Csum_ext. intros b Hb.
      rewrite <- Csum_mul_l. now rewrite orth. }
  transitivity (Cmul (Cmul (Cmul S Rr) (Cmul S S))
    (Csum idx (fun a => Csum idx (fun b =>
       Cmul (Cmul (g a) (v b)) (if delta a b then Nn else C0)))));
    [ring|].
  rewrite S_Rr. rewrite Csum_swap.
  rewrite Csum_mul_l. apply Csum_ext. intros b _.
  rewrite Csum_mul_l. apply Csum_ext. intros a _.
  destruct (delta a b).
  - transitivity (Cmul (Cmul (Cmul S S) Nn) (Cmul (v b) (g a))); [ring|].
    rewrite S_S_Nn. ring.
  - ring.
Qed.

End AbstractConvolution.

Lemma cmod_lt M m b : 0 < M -> cmod M m b < M.
Proof.
  intros HM. unfold cmod.
  assert (0 <= (Z.of_nat m - Z.of_nat b) mod Z.of_nat M < Z.of_nat M)%Z
    by (apply Z.mod_pos_bound; lia).
  lia.
Qed.

Lemma delta_eqb M m a b : a < M -> delta M m a b = (a =? cmod M m b).
Proof.
  intros Ha. unfold delta, cmod.
  set (Mz := Z.of_nat M). set (t := (Z.of_nat m - Z.of_nat b)%Z).
  assert (HM : (0 < Mz)%Z) by (unfold Mz; lia).
  assert (Hr : (0 <= t mod Mz < Mz)%Z) by (apply Z.mod_pos_bound; lia).
  replace (Z.of_nat m - Z.of_nat a - Z.of_nat b)%Z with (t - Z.of_nat a)%Z
    by (unfold t; lia).
  destruct (Nat.eqb_spec a (Z.to_nat (t mod Mz))) as [E|E].
  - apply Z.eqb_eq. rewrite Zminus_mod, E, Z2Nat.id by lia.
    rewrite Z.mod_mod by lia. rewrite Z.sub_diag. apply Z.mod_0_l. lia.
  - apply Z.eqb_neq. intros Hz. apply E.
    assert (Ea : (Z.of_nat a mod Mz = Z.of_nat a)%Z)
      by (apply Z.mod_small; unfold Mz; lia).
    assert (Et : (t mod Mz = Z.of_nat a mod Mz)%Z).
    { replace t with ((t - Z.of_nat a) + Z.of_nat a)%Z by lia.
      rewrite Zplus_mod, Hz, Z.add_0_l, Z.mod_mod by lia. reflexivity. }
    rewrite Et, Ea. lia.
Qed.

Lemma phase_orth M N a1 a2 b1 b2 m1 m2 :
  0 < M -> 0 < N ->
  Csum (seq 0 M) (fun k1 => Csum (seq 0 N) (fun k2 =>
    Cmul (Cmul (cis (- phase M N k1 k2 a1 a2)) (cis (- phase M N k1 k2 b1 b2)))
         (cis (phase M N k1 k2 m1 m2)))) =
  if delta M m1 a1 b1 && delta N m2 a2 b2 then RtoC (INR (M * N)) else C0.
Proof.
  intros HM HN.
  assert (HMr : (0 < INR M)%R) by (apply lt_0_INR; lia).
  assert (HNr : (0 < INR N)%R) by (apply lt_0_INR; lia).
  set (s1 := (Z.of_nat m1 - Z.of_nat a1 - Z.of_nat b1)%Z).
  set (s2 := (Z.of_nat m2 - Z.of_nat a2 - Z.of_nat b2)%Z).
  rewrite Csum_ext with (g := fun k1 =>
    Cmul (cis (2 * PI * (INR k1 * IZR s1 / INR M)))
         (Csum (seq 0 N) (fun k2 => cis (2 * PI * (INR k2 * IZR s2 / INR N))))).
  2:{ intros k1 _. rewrite Csum_mul_l. apply Csum_ext. intros k2 _.
      rewrite <- !cis_add. f_equal. unfold phase, s1, s2.
      rewrite !minus_IZR, <- !INR_IZR_INZ. field. lra. }
  rewrite <- Csum_mul_r.
  rewrite !cis_sum_orth by assumption.
  unfold delta. fold s1 s2. rewrite mult_INR.
  destruct (s1 mod Z.of_nat M =? 0)%Z, (s2 mod Z.of_nat N =? 0)%Z;
    cbn [andb]; c_ring.
Qed.

Lemma sqrt_scalars (n : nat) :
  0 < n ->
  Cmul (RtoC (/ sqrt (INR n))) (RtoC (sqrt (INR n))) = C1 /\
  Cmul (Cmul (RtoC (/ sqrt (INR n))) (RtoC (/ sqrt (INR n)))) (RtoC (INR n)) = C1.
Proof.
  intros Hn.
  assert (Hr : (0 < INR n)%R) by (apply lt_0_INR; lia).
  assert (Hs : (0 < sqrt (INR n))%R) by now apply sqrt_lt_R0.
  assert (Hq : (sqrt (INR n) * sqrt (INR n) = INR n)%R) by (apply sqrt_sqrt; lra).
  set (s := sqrt (INR n)) in *. clearbody s.
  split; apply C_eq; unfold Cmul, RtoC, C1; simpl; rewrite <- ?Hq; field; lra.
Qed.

(** The inverse transform of the product of two transforms is the
    circular convolution. *)
Lemma convolution2 M N (g v : nat -> nat -> C) m1 m2 :
  0 < M -> 0 < N ->
  idft2 M N (fun k1 k2 =>
    Cmul (Cscale (sqrt (INR (M * N))) (dft2 M N g k1 k2)) (dft2 M N v k1 k2))
    m1 m2 =
  Csum (seq 0 M) (fun b1 => Csum (seq 0 N) (fun b2 =>
    Cmul (v b1 b2) (g (cmod M m1 b1) (cmod N m2 b2)))).
Proof.
  intros HM HN.
  assert (HMN : 0 < M * N) by nia.
  destruct (sqrt_scalars HMN) as [HSR HSS].
  set (eb := fun k a : nat * nat =>
         cis (- phase M N (fst k) (snd k) (fst a) (snd a))).
  set (em := fun k : nat * nat => cis (phase M N (fst k) (snd k) m1 m2)).
  set (dl := fun a b : nat * nat =>
         delta M m1 (fst a) (fst b) && delta N m2 (snd a) (snd b)).
  pose proof (@convolution_abstract _ (grid M N)
    (fun a => g (fst a) (snd a)) (fun b => v (fst b) (snd b))
    eb em dl _ _ _ HSR HSS) as Habs.
  unfold idft2, dft2. rewrite !Cscale_mul.
  transitivity (Csum (grid M N) (fun b => Csum (grid M N) (fun a =>
    if dl a b then Cmul (v (fst b) (snd b)) (g (fst a) (snd a)) else C0))).
  - rewrite <- Habs.
    + f_equal. unfold grid at 1. rewrite Csum_list_prod.
      apply Csum_ext. intros k1 _. apply Csum_ext. intros k2 _.
      rewrite !Cscale_mul. unfold grid. rewrite !Csum_list_prod.
      reflexivity.
    + intros [a1 a2] [b1 b2] _ _. unfold grid. rewrite Csum_list_prod.
      apply phase_orth; assumption.
  - unfold grid at 1. rewrite Csum_list_prod.
    apply Csum_ext. intros b1 _. apply Csum_ext. intros b2 _.
    unfold grid. rewrite Csum_list_prod. unfold dl. cbn [fst snd].
    rewrite Csum_ext with (g := fun a1 =>
      if a1 =? cmod M m1 b1
      then Csum (seq 0 N) (fun a2 =>
             if a2 =? cmod N m2 b2 then Cmul (v b1 b2) (g a1 a2) else C0)
      else C0).
    2:{ intros a1 Ha1. apply in_seq in Ha1.
        rewrite delta_eqb by lia.
        destruct (a1 =? cmod M m1 b1).
        - apply Csum_ext. intros a2 Ha2. apply in_seq in Ha2.
          rewrite delta_eqb by lia. reflexivity.
        - now apply Csum_zero. }
    rewrite (Csum_delta (fun a1 => Csum (seq 0 N) (fun a2 =>
      if a2 =? cmod N m2 b2 then Cmul (v b1 b2) (g a1 a2) else C0)))
      by now apply cmod_lt.
    rewrite (Csum_delta (fun a2 => Cmul (v b1 b2) (g (cmod M m1 b1) a2)))
      by now apply cmod_lt.
    reflexivity.
Qed.

(** ** The transforms on tables *)

Lemma entry_tab2 M N (x : nat -> nat -> C) i j :
  i < M -> j < N -> entry (tab2 M N x) i j = x i j.
Proof. intros. unfold entry. now apply tab2_nth. Qed.

Lemma hd_tab2 {A : Type} M N (x : nat -> nat -> A) :
  0 < M -> hd [] (tab2 M N x) = tab N (x 0).
Proof. intros HM. destruct M; [lia|]. unfold tab2. now rewrite tab_S. Qed.

Lemma fft2_ortho_tab2 M N (x : nat -> nat -> C) :
  0 < M -> fft2_ortho (tab2 M N x) = tab2 M N (dft2 M N x).
Proof.
  intros HM. unfold fft2_ortho.
  rewrite tab2_length, hd_tab2, tab_length by assumption.
  fold (tab M (fun k1 => map (fun k2 =>
    Cscale (/ sqrt (INR (M * N)))
      (Csum (seq 0 M) (fun n1 => Csum (seq 0 N) (fun n2 =>
         Cmul (entry (tab2 M N x) n1 n2) (cis (- phase M N k1 k2 n1 n2))))))
    (seq 0 N))).
  unfold tab2 at 2. apply tab_ext. intros k1 _.
  apply tab_ext. intros k2 _. unfold dft2. f_equal.
  apply Csum_ext. intros n1 H1. apply Csum_ext. intros n2 H2.
  apply in_seq in H1, H2. rewrite entry_tab2 by lia. reflexivity.
Qed.

Lemma ifft2_ortho_tab2 M N (X : nat -> nat -> C) :
  0 < M -> ifft2_ortho (tab2 M N X) = tab2 M N (idft2 M N X).
Proof.
  intros HM. unfold ifft2_ortho.
  rewrite tab2_length, hd_tab2, tab_length by assumption.
  fold (tab M (fun n1 => map (fun n2 =>
    Cscale (/ sqrt (INR (M * N)))
      (Csum (seq 0 M) (fun k1 => Csum (seq 0 N) (fun k2 =>
         Cmul (entry (tab2 M N X) k1 k2) (cis (phase M N k1 k2 n1 n2))))))
    (seq 0 N))).
  unfold tab2 at 2. apply tab_ext. intros n1 _.
  apply tab_ext. intros n2 _. unfold idft2. f_equal.
  apply Csum_ext. intros k1 H1. apply Csum_ext. intros k2 H2.
  apply in_seq in H1, H2. rewrite entry_tab2 by lia. reflexivity.
Qed.

Lemma dft2_ext M N (x y : nat -> nat -> C) k1 k2 :
  (forall a b, a < M -> b < N -> x a b = y a b) ->
  dft2 M N x k1 k2 = dft2 M N y k1 k2.
Proof.
  intros E. unfold dft2. f_equal.
  apply Csum_ext. intros n1 H1. apply Csum_ext. intros n2 H2.
  apply in_seq in H1, H2. rewrite E by lia. reflexivity.
Qed.

Lemma idft2_ext M N (X Y : nat -> nat -> C) n1 n2 :
  (forall a b, a < M -> b < N -> X a b = Y a b) ->
  idft2 M N X n1 n2 = idft2 M N Y n1 n2.
Proof.
  intros E. unfold idft2. f_equal.
  apply Csum_ext. intros k1 H1. apply Csum_ext. intros k2 H2.
  apply in_seq in H1, H2. rewrite E by lia. reflexivity.
Qed.

Lemma combine_tab {A B : Type} n (f : nat -> A) (g : nat -> B) :
  combine (tab n f) (tab n g) = tab n (fun i => (f i, g i)).
Proof.
  induction n as [|n IH] in f, g |- *; [reflexivity|].
  rewrite !tab_S. simpl. f_equal. apply IH.
Qed.

Lemma hadamard_tab2 M N (x y : nat -> nat -> C) :
  hadamard (tab2 M N x) (tab2 M N y) = tab2 M N (fun i j => Cmul (x i j) (y i j)).
Proof.
  unfold hadamard, tab2. rewrite combine_tab, map_tab.
  apply tab_ext. intros i _. cbn [fst snd].
  rewrite combine_tab, map_tab. reflexivity.
Qed.

Lemma map_map_tab2 {A B : Type} (h : A -> B) M N (x : nat -> nat -> A) :
  map (map h) (tab2 M N x) = tab2 M N (fun i j => h (x i j)).
Proof.
  unfold tab2. rewrite map_tab. apply tab_ext. intros i _. apply map_tab.
Qed.

Lemma repeat_tab {A : Type} (a : A) n : repeat a n = tab n (fun _ => a).
Proof.
  induction n as [|n IH]; [reflexivity|]. rewrite tab_S. simpl. now f_equal.
Qed.

Lemma has_shape_tab2 {A : Type} m n (f : nat -> nat -> A) :
  has_shape (tab2 m n f) (Z.of_nat m) (Z.of_nat n) = true.
Proof.
  unfold has_shape. rewrite tab2_length, Z.eqb_refl. simpl.
  apply forallb_forall. intros row Hr. unfold tab2, tab in Hr.
  apply in_map_iff in Hr. destruct Hr as [i [<- _]].
  rewrite length_map, length_seq. apply Z.eqb_refl.
Qed.

Lemma reshape_tab {A : Type} (x : list A) (r c : nat) d :
  length x = r * c ->
  reshape x (Z.of_nat r) (Z.of_nat c) =
  Ok (tab2 r c (fun i j => nth (i * c + j) x d)).
Proof.
  intros L. unfold reshape.
  replace ((0 <=? Z.of_nat r)%Z && (0 <=? Z.of_nat c)%Z &&
           (Z.of_nat (length x) =? Z.of_nat r * Z.of_nat c)%Z) with true.
  2:{ symmetry. rewrite !andb_true_iff. repeat split;
        [apply Z.leb_le; lia|apply Z.leb_le; lia|apply Z.eqb_eq; nia]. }
  rewrite !Nat2Z.id. f_equal.
  rewrite (list_as_tab x d) at 1. rewrite L. apply chunks_tab.
Qed.

Lemma hstack_pair {A : Type} (X Y : list (list A)) :
  length X = length Y ->
  hstack [X; Y] = Ok (tab (length X) (fun j => nth j X [] ++ nth j Y [])).
Proof.
  intros L. unfold hstack. cbn [forallb].
  rewrite Nat.eqb_refl, <- L, Nat.eqb_refl. cbn [andb].
  f_equal. apply tab_ext. intros j _. cbn [map concat].
  now rewrite app_nil_r.
Qed.

(** ** The two spectral functions on tables *)

Lemma slice_to_nat {A : Type} (x : list A) (n : nat) :
  slice_to x (Z.of_nat n) = firstn n x.
Proof.
  unfold slice_to. destruct (Z.ltb_spec (Z.of_nat n) 0); [lia|].
  now rewrite Nat2Z.id.
Qed.

Lemma pos_check (n : nat) : 0 < n -> is_integer_positive (Z.of_nat n) = Ok tt.
Proof.
  intros Hn. unfold is_integer_positive.
  destruct (Z.ltb_spec 0 (Z.of_nat n)); [reflexivity|lia].
Qed.

Lemma sqrt_size (q p : nat) :
  sqrt (IZR (4 * Z.of_nat q * Z.of_nat p)) = sqrt (INR (2 * q * (2 * p))).
Proof. rewrite INR_IZR_INZ. do 2 f_equal. lia. Qed.

Lemma eigenvalues_BCCB_row c0 (q p : nat) sym :
  0 < q -> 0 < p -> length c0 = 4 * q * p ->
  str_in sym nine_symmetries = true ->
  eigenvalues_BCCB (BCCB0.make c0 (Z.of_nat q) (Z.of_nat p) sym) "row" =
  Ok (BCCB_eigen.make
        (tab2 (2 * q) (2 * p) (fun k1 k2 =>
           Cscale (sqrt (INR (2 * q * (2 * p))))
                  (dft2 (2 * q) (2 * p) (G_of c0 (2 * p)) k1 k2)))
        "row" (Z.of_nat q) (Z.of_nat p) sym).
Proof.
  intros Hq Hp L Hs. unfold eigenvalues_BCCB.
  cbn [BCCB0.first_column BCCB0.nblocks BCCB0.npoints_per_block BCCB0.symmetry].
  rewrite !pos_check by assumption. cbn [bind].
  replace (Z.of_nat (length c0) =? 4 * Z.of_nat q * Z.of_nat p)%Z with true
    by (symmetry; apply Z.eqb_eq; lia).
  fold nine_symmetries. rewrite Hs.
  change (str_in "row" ["row"; "column"]) with true.
  change ("row" =? "row")%string with true. cbn [negb].
  replace (2 * Z.of_nat q)%Z with (Z.of_nat (2 * q)) by lia.
  replace (2 * Z.of_nat p)%Z with (Z.of_nat (2 * p)) by lia.
  rewrite reshape_tab with (d := 0%R) by lia. cbn [bind].
  rewrite map_map_tab2, fft2_ortho_tab2, map_map_tab2 by lia.
  rewrite sqrt_size. reflexivity.
Qed.

Lemma eigenvalues_BCCB_column c0 (q p : nat) sym :
  0 < q -> 0 < p -> length c0 = 4 * q * p ->
  str_in sym nine_symmetries = true ->
  eigenvalues_BCCB (BCCB0.make c0 (Z.of_nat q) (Z.of_nat p) sym) "column" =
  Ok (BCCB_eigen.make
        (tab2 (2 * p) (2 * q) (fun k1 k2 =>
           Cscale (sqrt (INR (2 * p * (2 * q))))
                  (dft2 (2 * p) (2 * q) (fun b a => G_of c0 (2 * p) a b) k1 k2)))
        "column" (Z.of_nat q) (Z.of_nat p) sym).
Proof.
  intros Hq Hp L Hs. unfold eigenvalues_BCCB.
  cbn [BCCB0.first_column BCCB0.nblocks BCCB0.npoints_per_block BCCB0.symmetry].
  rewrite !pos_check by assumption. cbn [bind].
  replace (Z.of_nat (length c0) =? 4 * Z.of_nat q * Z.of_nat p)%Z with true
    by (symmetry; apply Z.eqb_eq; lia).
  fold nine_symmetries. rewrite Hs.
  change (str_in "column" ["row"; "column"]) with true.
  change ("column" =? "row")%string with false. cbn [negb].
  replace (2 * Z.of_nat q)%Z with (Z.of_nat (2 * q)) by lia.
  replace (2 * Z.of_nat p)%Z with (Z.of_nat (2 * p)) by lia.
  rewrite reshape_tab with (d := 0%R) by lia. cbn [bind].
  rewrite Nat2Z.id, transpose_tab2.
  rewrite map_map_tab2, fft2_ortho_tab2, map_map_tab2 by lia.
  rewrite sqrt_size.
  replace (2 * q * (2 * p)) with (2 * p * (2 * q)) by lia. reflexivity.
Qed.

Lemma pad_tab2 {A : Type} (q q' p p' : nat) (f : nat -> nat -> A) (z : A) :
  tab q (fun a => tab p (f a) ++ tab p' (fun _ => z))
    ++ tab q' (fun _ => tab (p + p') (fun _ => z)) =
  tab2 (q + q') (p + p')
    (fun a b => if (a <? q) && (b <? p) then f a b else z).
Proof.
  unfold tab2. rewrite (tab_app q q'). f_equal.
  - apply tab_ext. intros a Ha. rewrite (tab_app p p'). f_equal.
    + apply tab_ext. intros b Hb.
      destruct (Nat.ltb_spec a q), (Nat.ltb_spec b p); try lia. reflexivity.
    + apply tab_ext. intros b Hb.
      destruct (Nat.ltb_spec (p + b) p); try lia. now rewrite andb_false_r.
  - apply tab_ext. intros a Ha. apply tab_ext. intros b Hb.
    destruct (Nat.ltb_spec (q + a) q); try lia. reflexivity.
Qed.

Lemma zeros2_tab (r c : nat) :
  zeros2 (Z.of_nat r) (Z.of_nat c) = tab r (fun _ => tab c (fun _ => 0%R)).
Proof.
  unfold zeros2, zeros. rewrite !Nat2Z.id, repeat_tab.
  apply tab_ext. intros _ _. apply repeat_tab.
Qed.

(** Zero padding of a [q] x [p] table to twice its size. *)
Lemma padded_tab2 (q p : nat) (f : nat -> nat -> R) :
  (V <- hstack [tab2 q p f; zeros2 (Z.of_nat q) (Z.of_nat p)] ;;
   Ok (vstack [V; zeros2 (Z.of_nat q) (2 * Z.of_nat p)])) =
  Ok (tab2 (2 * q) (2 * p)
        (fun a b => if (a <? q) && (b <? p) then f a b else 0%R)).
Proof.
  replace (2 * Z.of_nat p)%Z with (Z.of_nat (p + p)) by lia.
  rewrite !zeros2_tab.
  rewrite hstack_pair by now rewrite tab2_length, tab_length.
  cbn [bind]. f_equal. unfold vstack. cbn [concat]. rewrite app_nil_r.
  rewrite tab2_length.
  rewrite tab_ext with (g := fun a => tab p (f a) ++ tab p (fun _ => 0%R)).
  2:{ intros a Ha. unfold tab2. now rewrite !tab_nth. }
  rewrite pad_tab2. f_equal; lia.
Qed.

Lemma firstn_tab2 {A : Type} (a b m n : nat) (f : nat -> nat -> A) :
  a <= m -> b <= n ->
  map (firstn b) (firstn a (tab2 m n f)) = tab2 a b f.
Proof.
  intros Ha Hb. unfold tab2. rewrite firstn_tab, map_tab by assumption.
  apply tab_ext. intros i _. now apply firstn_tab.
Qed.

Lemma product_BCCB_vector_row (Lf : nat -> nat -> C) v (q p : nat) sym :
  0 < q -> 0 < p -> length v = q * p ->
  product_BCCB_vector
    (BCCB_eigen.make (tab2 (2 * q) (2 * p) Lf) "row"
       (Z.of_nat q) (Z.of_nat p) sym) v true =
  Ok (tab (q * p) (fun x =>
        Re (idft2 (2 * q) (2 * p)
              (fun k1 k2 =>
                 Cmul (Lf k1 k2) (dft2 (2 * q) (2 * p) (V_of v q p) k1 k2))
              (x / p) (x mod p)))).
Proof.
  intros Hq Hp L. unfold product_BCCB_vector.
  cbn [BCCB_eigen.eigenvalues BCCB_eigen.ordering BCCB_eigen.nblocks
       BCCB_eigen.npoints_per_block].
  change (str_in "row" ["row"; "column"]) with true.
  change ("row" =? "row")%string with true. cbn [negb].
  rewrite !pos_check by assumption. cbn [bind].
  replace (2 * Z.of_nat q)%Z with (Z.of_nat (2 * q)) by lia.
  replace (2 * Z.of_nat p)%Z with (Z.of_nat (2 * p)) by lia.
  rewrite has_shape_tab2. cbn [bind].
  replace (Z.of_nat (length v) =? Z.of_nat q * Z.of_nat p)%Z with true
    by (symmetry; apply Z.eqb_eq; lia).
  cbn [negb bind].
  change ("row" =? "row")%string with true. cbv iota.
  rewrite reshape_tab with (d := 0%R) by assumption. cbn [bind].
  replace (Z.of_nat (2 * p)) with (2 * Z.of_nat p)%Z by lia.
  rewrite padded_tab2. cbn [bind].
  rewrite map_map_tab2.
  rewrite fft2_ortho_tab2, hadamard_tab2, ifft2_ortho_tab2 by lia.
  rewrite slice_to_nat. f_equal.
  rewrite map_ext with (g := fun row => map Re (firstn p row))
    by (intros; now rewrite slice_to_nat).
  rewrite <- map_map with (f := firstn p) (g := map Re).
  rewrite firstn_tab2 by lia.
  rewrite map_map_tab2. apply concat_tab2.
Qed.

Lemma product_BCCB_vector_column (Lf : nat -> nat -> C) v (q p : nat) sym :
  0 < q -> 0 < p -> length v = q * p ->
  product_BCCB_vector
    (BCCB_eigen.make (tab2 (2 * p) (2 * q) Lf) "column"
       (Z.of_nat q) (Z.of_nat p) sym) v true =
  Ok (tab (q * p) (fun x =>
        Re (idft2 (2 * p) (2 * q)
              (fun k1 k2 =>
                 Cmul (Lf k1 k2)
                      (dft2 (2 * p) (2 * q) (fun b a => V_of v q p a b) k1 k2))
              (x mod p) (x / p)))).
Proof.
  intros Hq Hp L. unfold product_BCCB_vector.
  cbn [BCCB_eigen.eigenvalues BCCB_eigen.ordering BCCB_eigen.nblocks
       BCCB_eigen.npoints_per_block].
  change (str_in "column" ["row"; "column"]) with true.
  change ("column" =? "row")%string with false. cbn [negb].
  rewrite !pos_check by assumption. cbn [bind].
  replace (2 * Z.of_nat q)%Z with (Z.of_nat (2 * q)) by lia.
  replace (2 * Z.of_nat p)%Z with (Z.of_nat (2 * p)) by lia.
  rewrite has_shape_tab2. cbn [bind].
  replace (Z.of_nat (length v) =? Z.of_nat q * Z.of_nat p)%Z with true
    by (symmetry; apply Z.eqb_eq; lia).
  cbn [negb bind].
  change ("column" =? "row")%string with false. cbv iota.
  rewrite reshape_tab with (d := 0%R) by assumption. cbn [bind].
  rewrite !Nat2Z.id, transpose_tab2.
  replace (Z.of_nat (2 * q)) with (2 * Z.of_nat q)%Z by lia.
  rewrite padded_tab2. cbn [bind].
  rewrite map_map_tab2.
  rewrite fft2_ortho_tab2, hadamard_tab2, ifft2_ortho_tab2 by lia.
  rewrite slice_to_nat. f_equal.
  rewrite map_ext with (g := fun row => map Re (firstn q row))
    by (intros; now rewrite slice_to_nat).
  rewrite <- map_map with (f := firstn q) (g := map Re).
  rewrite firstn_tab2 by lia.
  rewrite map_map_tab2, transpose_tab2, concat_tab2.
  apply tab_ext. intros x _. f_equal.
  apply idft2_ext. intros k1 k2 _ _. f_equal.
  apply dft2_ext. intros a b _ _. unfold V_of. now rewrite andb_comm.
Qed.

(** ** Finite sums of real numbers *)

Lemma Rsum_ext {I : Type} (l : list I) f g :
  (forall i, In i l -> f i = g i) -> Rsum l f = Rsum l g.
Proof.
  induction l as [|x l IH]; intros E; [reflexivity|].
  simpl. rewrite (E x) by now left.
  rewrite IH by (intros; apply E; now right). reflexivity.
Qed.

Lemma Rsum_app {I : Type} (l1 l2 : list I) f :
  Rsum (l1 ++ l2) f = (Rsum l1 f + Rsum l2 f)%R.
Proof. induction l1 as [|x l IH]; simpl; [ring|]. rewrite IH. ring. Qed.

Lemma Rsum_zero {I : Type} (l : list I) f :
  (forall i, In i l -> f i = 0%R) -> Rsum l f = 0%R.
Proof.
  induction l as [|x l IH]; intros E; [reflexivity|].
  simpl. rewrite (E x) by now left.
  rewrite IH by (intros; apply E; now right). ring.
Qed.

Lemma Rsum_map {I J : Type} (h : I -> J) (l : list I) f :
  Rsum (map h l) f = Rsum l (fun i => f (h i)).
Proof. induction l as [|x l IH]; simpl; [reflexivity|]. now rewrite IH. Qed.

Lemma Rsum_add {I : Type} (l : list I) f g :
  Rsum l (fun i => (f i + g i)%R) = (Rsum l f + Rsum l g)%R.
Proof. induction l as [|x l IH]; simpl; [ring|]. rewrite IH. ring. Qed.

Lemma Rsum_swap {I J : Type} (l1 : list I) (l2 : list J) f :
  Rsum l1 (fun a => Rsum l2 (fun b => f a b)) =
  Rsum l2 (fun b => Rsum l1 (fun a => f a b)).
Proof.
  induction l1 as [|x l IH]; simpl.
  - symmetry. now apply Rsum_zero.
  - rewrite IH. now rewrite Rsum_add.
Qed.

Lemma Rsum_restrict (n m : nat) f :
  n <= m -> (forall i, n <= i < m -> f i = 0%R) ->
  Rsum (seq 0 m) f = Rsum (seq 0 n) f.
Proof.
  intros Hn Hz. replace m with (n + (m - n)) by lia.
  rewrite seq_app, Rsum_app. rewrite (Rsum_zero (seq (0 + n) (m - n))).
  - ring.
  - intros i Hi. apply in_seq in Hi. apply Hz. lia.
Qed.

Lemma seq_add_map (s p : nat) : seq s p = map (fun c => s + c) (seq 0 p).
Proof.
  induction p as [|p IH] in s |- *; [reflexivity|].
  cbn [seq map]. rewrite Nat.add_0_r. f_equal.
  rewrite (IH (S s)), <- (seq_shift p 0), map_map.
  apply map_ext. intros; lia.
Qed.

Lemma Rsum_blocks (q p : nat) f :
  Rsum (seq 0 (q * p)) f =
  Rsum (seq 0 q) (fun j => Rsum (seq 0 p) (fun c => f (j * p + c))).
Proof.
  induction q as [|q IH]; [reflexivity|].
  replace (S q * p) with (q * p + p) by lia.
  rewrite seq_app, Rsum_app, IH, seq_S, Rsum_app.
  f_equal. unfold Rsum at 2. cbn [fold_right]. rewrite Rplus_0_r.
  cbn [Nat.add].
  rewrite <- (Rsum_map (fun c => q * p + c) (seq 0 p) f).
  f_equal. apply seq_add_map.
Qed.

Lemma Csum_real {I : Type} (l : list I) (f : I -> R) :
  Csum l (fun i => RtoC (f i)) = RtoC (Rsum l f).
Proof. apply Csum_RtoC. Qed.

Lemma dot_tab (n : nat) (f : nat -> R) (v : list R) :
  length v = n ->
  dot (tab n f) v = Rsum (seq 0 n) (fun i => (f i * nth i v 0)%R).
Proof.
  intros L. rewrite (list_as_tab v 0%R) at 1. rewrite L. unfold dot.
  rewrite combine_tab. unfold tab.
  induction (seq 0 n) as [|x l IH]; [reflexivity|].
  cbn [map fold_right Rsum fst snd]. rewrite IH. reflexivity.
Qed.

(** ** The fast product is a circular convolution with the first column *)

Lemma padded_sum (c0 v : list R) (q p m n : nat) :
  Csum (seq 0 (2 * q)) (fun b1 => Csum (seq 0 (2 * p)) (fun b2 =>
    Cmul (V_of v q p b1 b2)
         (G_of c0 (2 * p) (cmod (2 * q) m b1) (cmod (2 * p) n b2)))) =
  RtoC (Rsum (seq 0 q) (fun j => Rsum (seq 0 p) (fun c =>
    (nth (j * p + c) v 0 *
     nth (cmod (2 * q) m j * (2 * p) + cmod (2 * p) n c) c0 0)%R))).
Proof.
  rewrite Csum_ext with (g := fun b1 => RtoC (Rsum (seq 0 (2 * p)) (fun b2 =>
    ((if (b1 <? q) && (b2 <? p) then nth (b1 * p + b2) v 0 else 0) *
     nth (cmod (2 * q) m b1 * (2 * p) + cmod (2 * p) n b2) c0 0)%R))).
  2:{ intros b1 _. rewrite <- Csum_real. apply Csum_ext. intros b2 _.
      unfold V_of, G_of. now rewrite <- RtoC_mul. }
  rewrite Csum_real. f_equal.
  rewrite Rsum_restrict with (n := q); [|lia|].
  2:{ intros b1 Hb. apply Rsum_zero. intros b2 _.
      destruct (Nat.ltb_spec b1 q); [lia|]. cbn [andb]. ring. }
  apply Rsum_ext. intros j Hj. apply in_seq in Hj.
  rewrite Rsum_restrict with (n := p); [|lia|].
  2:{ intros b2 Hb. destruct (Nat.ltb_spec b2 p); [lia|].
      rewrite andb_false_r. ring. }
  apply Rsum_ext. intros c Hc. apply in_seq in Hc.
  destruct (Nat.ltb_spec j q); [|lia]. destruct (Nat.ltb_spec c p); [|lia].
  reflexivity.
Qed.

Lemma fast_product_row c0 v (q p : nat) sym :
  0 < q -> 0 < p -> length c0 = 4 * q * p -> length v = q * p ->
  str_in sym nine_symmetries = true ->
  (e <- eigenvalues_BCCB (BCCB0.make c0 (Z.of_nat q) (Z.of_nat p) sym) "row" ;;
   product_BCCB_vector e v true) = Ok (circ_product c0 v q p).
Proof.
  intros Hq Hp Lc Lv Hs.
  rewrite eigenvalues_BCCB_row by assumption. cbn [bind].
  rewrite product_BCCB_vector_row by assumption. f_equal.
  apply tab_ext. intros x _.
  rewrite convolution2 by lia. rewrite padded_sum. reflexivity.
Qed.

Lemma fast_product_column c0 v (q p : nat) sym :
  0 < q -> 0 < p -> length c0 = 4 * q * p -> length v = q * p ->
  str_in sym nine_symmetries = true ->
  (e <- eigenvalues_BCCB (BCCB0.make c0 (Z.of_nat q) (Z.of_nat p) sym) "column" ;;
   product_BCCB_vector e v true) = Ok (circ_product c0 v q p).
Proof.
  intros Hq Hp Lc Lv Hs.
  rewrite eigenvalues_BCCB_column by assumption. cbn [bind].
  rewrite product_BCCB_vector_column by assumption. f_equal.
  apply tab_ext. intros x _.
  rewrite convolution2 by lia.
  rewrite Csum_swap. rewrite padded_sum. reflexivity.
Qed.

(** ** The first column built by [embedding_BCCB_first_column] *)

Section EmbedEntries.
Context {A : Type} `{Scalar A}.

Lemma embedding_pure ss sb (b0 : list A) Q P :
  In ss ["symm"; "skew"] -> In sb ["symm"; "skew"] ->
  embedding_BCCB_first_column b0 Q P (symmetry_name ss sb) =
  (is_integer_positive Q ;;;
   is_integer_positive P ;;;
   if negb (Z.of_nat (length b0) =? Q * P)%Z then Err ValueError
   else
     b_parts <- split b0 Q ;;
     c0 <- concatenate
       (map (fwd_piece sb) b_parts ++ [zeros (2 * P)]
          ++ map (bwd_piece ss sb) (slice_rev_to0 b_parts)) ;;
     Ok (BCCB0.make c0 Q P (symmetry_name ss sb))).
Proof.
  intros Hs Hb. simpl in Hs, Hb.
  destruct Hs as [<-|[<-|[]]]; destruct Hb as [<-|[<-|[]]]; reflexivity.
Qed.

Lemma nth_concat_uniform (pcs : list (list A)) (w a b : nat) d :
  (forall pc, In pc pcs -> length pc = w) -> b < w ->
  nth (a * w + b) (concat pcs) d = nth b (nth a pcs []) d.
Proof.
  intros Hw Hb. induction pcs as [|pc pcs IH] in a, Hw |- *.
  - replace (nth a [] []) with (@nil A) by (destruct a; reflexivity).
    simpl concat. rewrite !nth_overflow by (simpl; lia). reflexivity.
  - simpl concat. destruct a as [|a].
    + simpl. apply app_nth1. rewrite (Hw pc) by now left. exact Hb.
    + rewrite app_nth2 by (rewrite (Hw pc) by (now left); simpl; lia).
      rewrite (Hw pc) by now left.
      replace (S a * w + b - w) with (a * w + b) by (simpl; lia).
      simpl nth. apply IH. intros; apply Hw; now right.
Qed.

Lemma concat_uniform_length (pcs : list (list A)) (w : nat) :
  (forall pc, In pc pcs -> length pc = w) ->
  length (concat pcs) = length pcs * w.
Proof.
  intros Hw. induction pcs as [|pc pcs IH]; [reflexivity|].
  simpl. rewrite length_app, IH by (intros; apply Hw; now right).
  rewrite (Hw pc) by now left. reflexivity.
Qed.

End EmbedEntries.

Lemma cmod_cases (p n c : nat) :
  n < p -> c < p ->
  cmod (2 * p) n c = if n <? c then 2 * p - (c - n) else n - c.
Proof.
  intros Hn Hc. unfold cmod.
  destruct (Nat.ltb_spec n c).
  - rewrite <- (Z.mod_unique (Z.of_nat n - Z.of_nat c) (Z.of_nat (2 * p)) (-1)
                  (Z.of_nat (2 * p - (c - n)))); lia.
  - rewrite Z.mod_small by lia. lia.
Qed.

Lemma nth_rev_tl {X : Type} (x : list X) (p e : nat) d :
  length x = p -> 1 <= e -> e < p ->
  nth (p - 1 - e) (rev (tl x)) d = nth e x d.
Proof.
  intros L H1 H2. destruct x as [|a x]; [simpl in L; lia|].
  simpl tl. simpl in L. rewrite rev_nth by lia.
  replace e with (S (length x - S (p - 1 - e))) at 2 by lia. reflexivity.
Qed.

Section EmbedEntryFacts.
Context {A : Type} `{Scalar A}.
Hypothesis neg_neg : forall x : A, neg (neg x) = x.

Lemma nth_neg1 (x : list A) k :
  k < length x -> nth k (neg1 x) zero = neg (nth k x zero).
Proof. intros Hk. unfold neg1. now apply nth_map_in. Qed.

Lemma fwd_piece_length sb (bi : list A) p :
  length bi = p -> 0 < p -> length (fwd_piece sb bi) = 2 * p.
Proof.
  intros L Hp. unfold fwd_piece, hstack1, reflect1, neg1, slice_rev_to0.
  cbn [concat]. rewrite !length_app.
  destruct (sb =? "skew")%string; rewrite ?length_map, length_rev;
    destruct bi; simpl in *; lia.
Qed.

Lemma bwd_piece_length ss sb (bi : list A) p :
  length bi = p -> 0 < p -> length (bwd_piece ss sb bi) = 2 * p.
Proof.
  intros L Hp.
  unfold bwd_piece, hstack1, lead_sign, third_sign, neg1, slice_rev_to0.
  cbn [concat]. rewrite !length_app.
  destruct (ss =? "skew")%string, (sb =? "skew")%string; cbn [xorb];
    rewrite ?length_map, length_rev; destruct bi; simpl in *; lia.
Qed.

Lemma fwd_piece_entry sb (bi : list A) p n c :
  In sb ["symm"; "skew"] -> length bi = p -> n < p -> c < p ->
  nth (cmod (2 * p) n c) (fwd_piece sb bi) zero =
  sgn sb (n <? c) (nth (dist n c) bi zero).
Proof.
  intros Hb L Hn Hc. rewrite cmod_cases by assumption.
  unfold fwd_piece, hstack1, dist, sgn. cbn [concat]. rewrite app_nil_r.
  destruct (Nat.ltb_spec n c) as [Hlt|Hge]; cbn [andb].
  - rewrite app_nth2 by lia. rewrite L.
    rewrite app_nth2 by (simpl; lia). cbn [length].
    replace (2 * p - (c - n) - p - 1) with (p - 1 - (c - n)) by lia.
    assert (Lr : length (rev (tl bi)) = p - 1)
      by (rewrite length_rev; destruct bi; simpl in *; lia).
    unfold reflect1, slice_rev_to0. simpl in Hb.
    destruct Hb as [<-|[<-|[]]]; cbn [String.eqb Ascii.eqb Bool.eqb].
    + apply nth_rev_tl; lia.
    + rewrite nth_neg1 by lia. f_equal. apply nth_rev_tl; lia.
  - apply app_nth1. lia.
Qed.

Lemma bwd_piece_entry ss sb (bi : list A) p n c :
  In ss ["symm"; "skew"] -> In sb ["symm"; "skew"] ->
  length bi = p -> n < p -> c < p ->
  nth (cmod (2 * p) n c) (bwd_piece ss sb bi) zero =
  sgn ss true (sgn sb (n <? c) (nth (dist n c) bi zero)).
Proof.
  intros Hs Hb L Hn Hc. rewrite cmod_cases by assumption.
  assert (Ll : length (lead_sign ss bi) = p).
  { unfold lead_sign, neg1. destruct (ss =? "skew")%string;
      rewrite ?length_map; exact L. }
  unfold bwd_piece, hstack1, dist, sgn. cbn [concat]. rewrite app_nil_r.
  destruct (Nat.ltb_spec n c) as [Hlt|Hge]; cbn [andb].
  - rewrite app_nth2 by lia. rewrite Ll.
    rewrite app_nth2 by (simpl; lia). cbn [length].
    replace (2 * p - (c - n) - p - 1) with (p - 1 - (c - n)) by lia.
    assert (Lr : length (rev (tl bi)) = p - 1)
      by (rewrite length_rev; destruct bi; simpl in *; lia).
    unfold third_sign, slice_rev_to0. simpl in Hs, Hb.
    destruct Hs as [<-|[<-|[]]]; destruct Hb as [<-|[<-|[]]];
      cbn [String.eqb Ascii.eqb Bool.eqb xorb];
      rewrite ?nth_neg1 by lia; rewrite ?neg_neg;
      first [apply nth_rev_tl; lia | f_equal; apply nth_rev_tl; lia].
  - rewrite app_nth1 by lia. unfold lead_sign. simpl in Hs.
    destruct Hs as [<-|[<-|[]]]; cbn [String.eqb Ascii.eqb Bool.eqb].
    + reflexivity.
    + apply nth_neg1. lia.
Qed.

(** The first column read on the doubled grid reproduces the dense
    block Toeplitz entries. *)
Lemma embed_entry ss sb (parts : list (list A)) (q p m j n c : nat) :
  In ss ["symm"; "skew"] -> In sb ["symm"; "skew"] ->
  length parts = q -> (forall part, In part parts -> length part = p) ->
  m < q -> j < q -> n < p -> c < p ->
  nth (cmod (2 * q) m j * (2 * p) + cmod (2 * p) n c)
      (concat (map (fwd_piece sb) parts ++ [zeros (2 * Z.of_nat p)]
                 ++ map (bwd_piece ss sb) (slice_rev_to0 parts))) zero =
  BTTB_entry ss sb parts m j n c.
Proof.
  intros Hs Hb Lq Lp Hm Hj Hn Hc.
  assert (Hin : forall k, k < q -> In (nth k parts []) parts)
    by (intros; apply nth_In; lia).
  rewrite nth_concat_uniform with (w := 2 * p).
  3:{ apply cmod_lt. lia. }
  2:{ intros pc Hpc. apply in_app_or in Hpc. destruct Hpc as [Hpc|Hpc].
      - apply in_map_iff in Hpc. destruct Hpc as [bi [<- Hbi]].
        apply fwd_piece_length; [now apply Lp|lia].
      - apply in_app_or in Hpc. destruct Hpc as [[<-|[]]|Hpc].
        + unfold zeros. rewrite repeat_length. lia.
        + apply in_map_iff in Hpc. destruct Hpc as [bi [<- Hbi]].
          apply bwd_piece_length; [|lia]. apply Lp.
          unfold slice_rev_to0 in Hbi. apply in_rev in Hbi.
          destruct parts; [destruct Hbi|now right]. }
  unfold BTTB_entry. rewrite (cmod_cases (p := q)) by assumption.
  unfold dist at 2.
  destruct (Nat.ltb_spec m j) as [Hlt|Hge].
  - rewrite app_nth2 by (rewrite length_map; lia).
    rewrite length_map, Lq.
    rewrite app_nth2 by (simpl; lia). cbn [length].
    replace (2 * q - (j - m) - q - 1) with (q - 1 - (j - m)) by lia.
    rewrite nth_map_in with (dx := [])
      by (unfold slice_rev_to0; rewrite length_rev;
          destruct parts; simpl in *; lia).
    unfold slice_rev_to0. rewrite nth_rev_tl with (p := q) by lia.
    apply bwd_piece_entry; auto. apply Lp, Hin. lia.
  - rewrite app_nth1 by (rewrite length_map; lia).
    rewrite nth_map_in with (dx := []) by lia.
    rewrite fwd_piece_entry with (p := p); auto.
    apply Lp, Hin. lia.
Qed.

End EmbedEntryFacts.

(** ** Splitting the first column of the BTTB into its blocks *)

Lemma chunks_as_tab2 {A : Type} (x : list A) (q p : nat) d :
  length x = q * p ->
  chunks q p x = tab2 q p (fun i j => nth (i * p + j) x d).
Proof.
  intros L. rewrite (list_as_tab x d) at 1. rewrite L. apply chunks_tab.
Qed.

Lemma chunks_length {A : Type} (x : list A) (q p : nat) :
  length (chunks q p x) = q.
Proof. induction q as [|q IH] in x |- *; simpl; [reflexivity|]. now rewrite IH. Qed.

Lemma chunks_part_length {A : Type} (x : list A) (q p : nat) part :
  length x = q * p -> In part (chunks q p x) -> length part = p.
Proof.
  intros L Hin. destruct x as [|d x].
  - destruct (Nat.eq_dec p 0) as [->|Hp].
    + clear L. induction q as [|q IH]; [destruct Hin|].
      simpl in Hin. destruct Hin as [<-|Hin]; [reflexivity|auto].
    + assert (q = 0) by (simpl in L; nia). subst q. destruct Hin.
  - rewrite chunks_as_tab2 with (d := d) in Hin by assumption.
    unfold tab2, tab in Hin. apply in_map_iff in Hin.
    destruct Hin as [i [<- _]]. apply tab_length.
Qed.

Lemma split_ok {A : Type} (x : list A) (q p : nat) :
  0 < q -> length x = q * p ->
  split x (Z.of_nat q) = Ok (chunks q p x).
Proof.
  intros Hq L. unfold split.
  destruct (Z.leb_spec (Z.of_nat q) 0); [lia|].
  rewrite L, Nat2Z.inj_mul, Z.mul_comm, Z.mod_mul by lia.
  cbn [Z.eqb]. rewrite Nat2Z.id. do 2 f_equal.
  rewrite Nat.mul_comm. apply Nat.div_mul. lia.
Qed.

Lemma BTTB_metadata_pure {A : Type} ss sb (q : nat) (columns : list (list A)) p :
  In ss ["symm"; "skew"] -> In sb ["symm"; "skew"] -> 0 < q ->
  length columns = q -> (forall col, In col columns -> length col = p) ->
  BTTB_metadata ss sb (Z.of_nat q) columns None = Ok tt.
Proof.
  intros Hs Hb Hq Lc Lp. unfold BTTB_metadata.
  assert (Ea : is_array2 columns = Ok tt).
  { unfold is_array2. replace (forallb _ columns) with true; [reflexivity|].
    symmetry. apply forallb_forall. intros row Hr. apply Nat.eqb_eq.
    rewrite (Lp row Hr). symmetry. apply Lp.
    destruct columns; [simpl in Lc; lia|now left]. }
  simpl in Hs, Hb.
  destruct Hs as [<-|[<-|[]]]; destruct Hb as [<-|[<-|[]]];
    cbn [str_in existsb String.eqb Ascii.eqb Bool.eqb orb negb];
    rewrite pos_check by assumption; cbn [bind]; rewrite Ea; cbn [bind];
    rewrite Lc, Z.eqb_refl; reflexivity.
Qed.

Section EmbeddingValue.
Context {A : Type} `{Scalar A}.

Lemma pieces_length ss sb (parts : list (list A)) (q p : nat) :
  length parts = q -> 0 < q -> length (pieces ss sb parts p) = 2 * q.
Proof.
  intros L Hq. unfold pieces, slice_rev_to0.
  rewrite !length_app, !length_map, length_rev. cbn [length].
  destruct parts; simpl in *; lia.
Qed.

Lemma pieces_uniform ss sb (parts : list (list A)) (p : nat) pc :
  0 < p -> (forall part, In part parts -> length part = p) ->
  In pc (pieces ss sb parts p) -> length pc = 2 * p.
Proof.
  intros Hp Lp Hpc. unfold pieces in Hpc.
  apply in_app_or in Hpc. destruct Hpc as [Hpc|Hpc].
  - apply in_map_iff in Hpc. destruct Hpc as [bi [<- Hbi]].
    apply fwd_piece_length; [now apply Lp|lia].
  - apply in_app_or in Hpc. destruct Hpc as [[<-|[]]|Hpc].
    + unfold zeros. rewrite repeat_length. lia.
    + apply in_map_iff in Hpc. destruct Hpc as [bi [<- Hbi]].
      apply bwd_piece_length; [|lia]. apply Lp.
      unfold slice_rev_to0 in Hbi. apply in_rev in Hbi.
      destruct parts; [destruct Hbi|now right].
Qed.

Lemma embedding_value ss sb (b0 : list A) (q p : nat) :
  In ss ["symm"; "skew"] -> In sb ["symm"; "skew"] ->
  0 < q -> 0 < p -> length b0 = q * p ->
  embedding_BCCB_first_column b0 (Z.of_nat q) (Z.of_nat p)
    (symmetry_name ss sb) =
  Ok (BCCB0.make (concat (pieces ss sb (chunks q p b0) p))
        (Z.of_nat q) (Z.of_nat p) (symmetry_name ss sb)).
Proof.
  intros Hs Hb Hq Hp L. rewrite embedding_pure by assumption.
  rewrite !pos_check by assumption. cbn [bind].
  replace (Z.of_nat (length b0) =? Z.of_nat q * Z.of_nat p)%Z with true
    by (symmetry; apply Z.eqb_eq; lia).
  cbn [negb]. rewrite split_ok with (p := p) by assumption. cbn [bind].
  fold (pieces ss sb (chunks q p b0) p).
  unfold concatenate.
  destruct (pieces ss sb (chunks q p b0) p) eqn:E; [|reflexivity].
  apply (f_equal (@length _)) in E.
  rewrite pieces_length with (q := q) in E
    by (auto using chunks_length). simpl in E. lia.
Qed.

Lemma embedding_value_length ss sb (b0 : list A) (q p : nat) :
  0 < q -> 0 < p -> length b0 = q * p ->
  length (concat (pieces ss sb (chunks q p b0) p)) = 4 * q * p.
Proof.
  intros Hq Hp L.
  rewrite concat_uniform_length with (w := 2 * p).
  - rewrite pieces_length with (q := q) by (auto using chunks_length). lia.
  - intros pc Hpc. apply pieces_uniform in Hpc; auto.
    intros part Hpart. now apply chunks_part_length in Hpart.
Qed.

End EmbeddingValue.

(** ** The fast product against the dense product *)

Lemma pure_in_nine ss sb :
  In ss ["symm"; "skew"] -> In sb ["symm"; "skew"] ->
  str_in (symmetry_name ss sb) nine_symmetries = true.
Proof.
  intros Hs Hb. simpl in Hs, Hb.
  destruct Hs as [<-|[<-|[]]]; destruct Hb as [<-|[<-|[]]]; reflexivity.
Qed.

Lemma matvec_tab2 (n : nat) (E : nat -> nat -> R) (v : list R) :
  length v = n ->
  matvec (tab2 n n E) v =
  tab n (fun x => Rsum (seq 0 n) (fun y => (E x y * nth y v 0)%R)).
Proof.
  intros L. unfold matvec, tab2. rewrite map_tab.
  apply tab_ext. intros x _. now apply dot_tab.
Qed.

Lemma circ_product_dense ss sb (b0 v : list R) (q p : nat) :
  In ss ["symm"; "skew"] -> In sb ["symm"; "skew"] ->
  0 < q -> 0 < p -> length b0 = q * p -> length v = q * p ->
  circ_product (concat (pieces ss sb (chunks q p b0) p)) v q p =
  matvec (tab2 (q * p) (q * p) (fun x y =>
            BTTB_entry ss sb (chunks q p b0) (x / p) (y / p) (x mod p) (y mod p)))
         v.
Proof.
  intros Hs Hb Hq Hp Lb Lv.
  rewrite matvec_tab2 by assumption. unfold circ_product.
  apply tab_ext. intros x Hx. rewrite Rsum_blocks.
  apply Rsum_ext. intros j Hj. apply in_seq in Hj.
  apply Rsum_ext. intros c Hc. apply in_seq in Hc.
  destruct (divmod_block j (p := p) (r := c)) as [-> ->]; [lia|].
  rewrite Rmult_comm. f_equal.
  assert (Hxq : x / p < q) by (apply Nat.Div0.div_lt_upper_bound; lia).
  assert (Hxp : x mod p < p) by (apply Nat.mod_upper_bound; lia).
  apply (@embed_entry R Scalar_R Ropp_involutive); auto using chunks_length.
  - intros part Hpart. now apply chunks_part_length in Hpart.
  - lia.
  - lia.
Qed.

Lemma fast_product_pure ss sb (b0 v : list R) (q p : nat) ordering :
  In ss ["symm"; "skew"] -> In sb ["symm"; "skew"] ->
  In ordering ["row"; "column"] ->
  0 < q -> 0 < p -> length b0 = q * p -> length v = q * p ->
  exists T,
    generic_BTTB ss sb (Z.of_nat q) (chunks q p b0) None true = Ok T /\
    fast_product b0 (Z.of_nat q) (Z.of_nat p) (symmetry_name ss sb) ordering v =
    Ok (matvec T v).
Proof.
  intros Hs Hb Ho Hq Hp Lb Lv.
  eexists. split.
  - apply generic_BTTB_pure_entries with (p := p); auto using chunks_length.
    + intros col Hcol. now apply chunks_part_length in Hcol.
    + apply BTTB_metadata_pure with (p := p); auto using chunks_length.
      intros col Hcol. now apply chunks_part_length in Hcol.
  - unfold fast_product. rewrite embedding_value by assumption. cbn [bind].
    rewrite <- circ_product_dense by assumption.
    simpl in Ho. destruct Ho as [<-|[<-|[]]].
    + apply fast_product_row; auto using pure_in_nine.
      now apply embedding_value_length.
    + apply fast_product_column; auto using pure_in_nine.
      now apply embedding_value_length.
Qed.

(** * The claims *)

Lemma four_symmetries_split (symmetry : string) :
  In symmetry ["skew-skew"; "skew-symm"; "symm-skew"; "symm-symm"] ->
  exists ss sb, In ss ["symm"; "skew"] /\ In sb ["symm"; "skew"] /\
                symmetry = symmetry_name ss sb.
Proof.
  intros Hs. simpl in Hs.
  destruct Hs as [<-|[<-|[<-|[<-|[]]]]];
    [exists "skew", "skew"|exists "skew", "symm"
    |exists "symm", "skew"|exists "symm", "symm"]; simpl; auto.
Qed.

Lemma sizes_as_nat (len : nat) (Q P : Z) :
  (0 < Q)%Z -> (0 < P)%Z -> Z.of_nat len = (Q * P)%Z ->
  Q = Z.of_nat (Z.to_nat Q) /\ P = Z.of_nat (Z.to_nat P) /\
  0 < Z.to_nat Q /\ 0 < Z.to_nat P /\ len = Z.to_nat Q * Z.to_nat P.
Proof. intros. repeat split; nia. Qed.

(** C10. For a first column [b0] of [nblocks * npoints_per_block] items
    and each of the four accepted symmetries,
    [embedding_BCCB_first_column] returns a dictionary whose
    ["first_column"] has exactly [4 * nblocks * npoints_per_block] items,
    so that [eigenvalues_BCCB] accepts it under both orderings. *)
Theorem embedding_first_column_size
    (b0 : list R) (nblocks npoints_per_block : Z) (symmetry : string)
    (Hq : (0 < nblocks)%Z) (Hp : (0 < npoints_per_block)%Z)
    (Hsize : Z.of_nat (length b0) = (nblocks * npoints_per_block)%Z)
    (Hsym : In symmetry ["skew-skew"; "skew-symm"; "symm-skew"; "symm-symm"]) :
  exists BCCB0,
    embedding_BCCB_first_column b0 nblocks npoints_per_block symmetry = Ok BCCB0 /\
    Z.of_nat (length (BCCB0.first_column BCCB0)) =
      (4 * nblocks * npoints_per_block)%Z /\
    BCCB0.nblocks BCCB0 = nblocks /\
    BCCB0.npoints_per_block BCCB0 = npoints_per_block /\
    BCCB0.symmetry BCCB0 = symmetry /\
    forall ordering, In ordering ["row"; "column"] ->
      exists BCCB_eigen, eigenvalues_BCCB BCCB0 ordering = Ok BCCB_eigen.
Proof.
  destruct (four_symmetries_split Hsym) as (ss & sb & Hs & Hb & ->).
  destruct (@sizes_as_nat _ _ _ Hq Hp Hsize) as (EQ & EP & Hq' & Hp' & L).
  set (q := Z.to_nat nblocks) in *. set (p := Z.to_nat npoints_per_block) in *.
  clearbody q p. subst nblocks npoints_per_block.
  eexists. split; [now apply embedding_value|].
  cbn [BCCB0.first_column BCCB0.nblocks BCCB0.npoints_per_block BCCB0.symmetry].
  rewrite embedding_value_length by assumption.
  repeat split; try lia.
  intros ordering Ho. simpl in Ho. destruct Ho as [<-|[<-|[]]]; eexists.
  - apply eigenvalues_BCCB_row; auto using pure_in_nine.
    now apply embedding_value_length.
  - apply eigenvalues_BCCB_column; auto using pure_in_nine.
    now apply embedding_value_length.
Qed.

Lemma embedding_first_column_size_witness :
  exists BCCB0,
    embedding_BCCB_first_column [2; 1; 5; 7]%R 2 2 "skew-symm" = Ok BCCB0 /\
    Z.of_nat (length (BCCB0.first_column BCCB0)) = 16%Z.
Proof.
  destruct (@embedding_first_column_size [2; 1; 5; 7]%R 2 2 "skew-symm")
    as (h & E & L & _); [lia|lia|reflexivity|simpl; auto|].
  exists h. split; [exact E|exact L].
Defined.

(** C6, as the code has it.  With [nblocks = 1], [npoints_per_block = 2],
    symmetry ["symm-symm"] and [b0 = [2, 1]] the first column has length 8
    and is [[2,1,0,1, 0,0,0,0]]: the forward block, then the zero spacer of
    length [2 * npoints_per_block]; a single block has no backward
    block. *)
Theorem embedding_scenario :
  embedding_BCCB_first_column [2; 1]%Z 1 2 "symm-symm" =
    Ok (BCCB0.make [2; 1; 0; 1; 0; 0; 0; 0]%Z 1 2 "symm-symm") /\
  length [2; 1; 0; 1; 0; 0; 0; 0]%Z = 8.
Proof. split; reflexivity. Qed.

(** C6, as the spec states it, fails: the last two items are zeros, not
    a copy of the block. *)
Lemma embedding_scenario_counterexample :
  exists BCCB0,
    embedding_BCCB_first_column [2; 1]%Z 1 2 "symm-symm" = Ok BCCB0 /\
    BCCB0.first_column BCCB0 <> [2; 1; 0; 1; 0; 0; 2; 1]%Z.
Proof. eexists. split; [reflexivity|]. simpl. discriminate. Qed.

(** ** [BCCB_from_BTTB] *)

Section BCCBFromBTTB.
Context {A : Type} `{Scalar A}.

Lemma mapM_first_err {X Y : Type} (f : X -> result Y) x xs e :
  f x = Err e -> mapM f (x :: xs) = Err e.
Proof. intros E. simpl. now rewrite E. Qed.

Lemma valid_columns_nonempty ss sb Q (columns : list (list A)) rows :
  BTTB_metadata ss sb Q columns rows = Ok tt -> columns <> [].
Proof.
  intros Hv. apply BTTB_metadata_ok in Hv.
  destruct Hv as (_ & _ & HQ & _ & Hlen).
  intros ->. cbn [length Z.of_nat] in Hlen.
  destruct (ss =? "gene")%string; lia.
Qed.

(** C2 (code bug).  On every valid table [BCCB_from_BTTB] raises, for
    both values of [full] and with or without the validation: each call
    of [Circulant_from_Toeplitz] in its loops passes one or two
    positional arguments to a function with three parameters without
    default.  The error is a TypeError whenever [rows] is [None] or the
    blocks are generic. *)
Theorem BCCB_from_BTTB_raises ss sb Q (columns : list (list A)) rows
    (full check_input : bool)
    (Hvalid : BTTB_metadata ss sb Q columns rows = Ok tt) :
  exists e,
    BCCB_from_BTTB ss sb Q columns rows full check_input = Err e /\
    (rows = None \/ sb = "gene" -> e = TypeError).
Proof.
  pose proof (@valid_columns_nonempty _ _ _ _ _ Hvalid) as Hne.
  unfold BCCB_from_BTTB.
  replace (if check_input then BTTB_metadata ss sb Q columns rows else Ok tt)
    with (@Ok unit tt) by (destruct check_input; congruence).
  cbn [bind].
  destruct columns as [|c cs]; [congruence|].
  destruct rows as [rs|].
  - unfold BTTB_metadata in Hvalid.
    destruct (str_in ss _); [|discriminate].
    destruct (str_in sb _); [|discriminate].
    cbv beta iota delta [negb] in Hvalid.
    apply bind_Ok_inv in Hvalid. destruct Hvalid as [[] [_ Hvalid]].
    apply bind_Ok_inv in Hvalid. destruct Hvalid as [[] [_ Hvalid]].
    destruct (Z.of_nat (length (c :: cs)) =? _)%Z; [|discriminate].
    cbv beta iota delta [negb] in Hvalid.
    destruct (sb =? "gene")%string eqn:Eg.
    + apply bind_Ok_inv in Hvalid. destruct Hvalid as [[] [Ea Hvalid]].
      destruct (length rs =? length (c :: cs)) eqn:El; [|discriminate].
      cbv beta iota delta [negb] in Hvalid.
      destruct (length (hd [] rs) + 1 =? length (hd [] (c :: cs))) eqn:Ec;
        [|discriminate].
      rewrite Ea. cbn [bind].
      rewrite Nat.eqb_sym, El. cbn [negb].
      apply Nat.eqb_eq in Ec. rewrite <- Ec, Nat.eqb_refl. cbn [negb].
      destruct rs as [|r rs]; [discriminate El|].
      cbn [combine]. rewrite mapM_first_err with (e := TypeError) by reflexivity.
      cbn [bind]. eauto.
    + destruct (is_array2 rs) as [[]|e]; cbn [bind]; [|eexists; split;
        [reflexivity|intros [?| ->]; discriminate]].
      destruct (negb (length (c :: cs) =? length rs)) eqn:El;
        [eexists; split; [reflexivity|intros [?| ->]; discriminate]|].
      destruct (negb (length (hd [] (c :: cs)) =? length (hd [] rs) + 1));
        [eexists; split; [reflexivity|intros [?| ->]; discriminate]|].
      destruct rs as [|r rs]; [discriminate El|].
      cbn [combine]. rewrite mapM_first_err with (e := TypeError) by reflexivity.
      cbn [bind]. eauto.
  - rewrite mapM_first_err with (e := TypeError) by reflexivity.
    cbn [bind]. eauto.
Qed.

End BCCBFromBTTB.

Lemma BCCB_from_BTTB_raises_witness :
  exists e,
    BCCB_from_BTTB "symm" "symm" 1 [[2; 1]]%Z None false true = Err e /\
    (@None (list (list Z)) = None \/ "symm" = "gene" -> e = TypeError).
Proof.
  apply (@BCCB_from_BTTB_raises Z Scalar_Z "symm" "symm" 1 [[2; 1]]%Z None
           false true).
  reflexivity.
Defined.

(** C3 (code bug).  At [b0 = [2, 1]], one block of two points and
    symmetry ["symm-symm"], [embedding_BCCB_first_column] returns the
    first column while [BCCB_from_BTTB] with [full=False] raises a
    TypeError on the matching table: the two paths cannot agree. *)
Theorem compact_path_against_BCCB_from_BTTB :
  split [2; 1]%Z 1 = Ok [[2; 1]]%Z /\
  embedding_BCCB_first_column [2; 1]%Z 1 2 "symm-symm" =
    Ok (BCCB0.make [2; 1; 0; 1; 0; 0; 0; 0]%Z 1 2 "symm-symm") /\
  BTTB_metadata "symm" "symm" 1 [[2; 1]]%Z None = Ok tt /\
  BCCB_from_BTTB "symm" "symm" 1 [[2; 1]]%Z None false true = Err TypeError.
Proof. repeat split; reflexivity. Qed.

(** ** The validation flag *)

Lemma product_BCCB_vector_unchecked BCCB_eigen v :
  product_BCCB_vector BCCB_eigen v false = Err UnboundLocalError.
Proof. reflexivity. Qed.




(** ** Symmetry of the dense matrix *)

Section SymmetryLaws.
Context {A : Type} `{Scalar A}.

Lemma BTTB_entry_symm (columns : list (list A)) i j r c :
  BTTB_entry "symm" "symm" columns i j r c =
  nth (dist r c) (nth (dist i j) columns []) zero.
Proof.
  unfold BTTB_entry, sgn. change ("symm" =? "skew")%string with false.
  now rewrite !andb_false_r.
Qed.

Lemma BTTB_entry_skew (columns : list (list A)) i j r c :
  BTTB_entry "skew" "skew" columns i j r c =
  (if i <? j then neg else fun a => a)
    ((if r <? c then neg else fun a => a)
       (nth (dist r c) (nth (dist i j) columns []) zero)).
Proof.
  unfold BTTB_entry, sgn. change ("skew" =? "skew")%string with true.
  rewrite !andb_true_r. destruct (i <? j), (r <? c); reflexivity.
Qed.

Lemma entry_of_blocks (q p : nat) (E : nat -> nat -> nat -> nat -> A) i j r c :
  i < q -> j < q -> r < p -> c < p ->
  nth (j * p + c)
      (nth (i * p + r)
         (tab2 (q * p) (q * p)
            (fun x y => E (x / p) (y / p) (x mod p) (y mod p))) []) zero =
  E i j r c.
Proof.
  intros Hi Hj Hr Hc.
  rewrite tab2_nth by (apply block_index_lt; assumption).
  destruct (divmod_block i (p := p) (r := r) Hr) as [-> ->].
  destruct (divmod_block j (p := p) (r := c) Hc) as [-> ->].
  reflexivity.
Qed.

(** C5, as the code has it.  On a valid table the matrix of
    ["symm"]/["symm"] equals its transpose.  The matrix of
    ["skew"]/["skew"] is not the opposite of its transpose: entry
    [(r, c)] of block [(i, j)] and the transposed entry are opposite when
    exactly one of [i = j], [r = c] holds, and equal otherwise. *)
Theorem generic_BTTB_symmetry_laws (Q : Z) (columns : list (list A)) rows
    (check_input : bool)
    (neg_neg : forall x : A, neg (neg x) = x)
    (Hvalid : BTTB_metadata "symm" "symm" Q columns rows = Ok tt) :
  let q := Z.to_nat Q in
  let p := length (hd [] columns) in
  (exists T,
     generic_BTTB "symm" "symm" Q columns rows check_input = Ok T /\
     length T = q * p /\
     transpose (q * p) T zero = T) /\
  (exists T,
     generic_BTTB "skew" "skew" Q columns rows check_input = Ok T /\
     forall i j r c, i < q -> j < q -> r < p -> c < p ->
       nth (i * p + r) (nth (j * p + c) T []) zero =
       if xorb (i =? j) (r =? c)
       then neg (nth (j * p + c) (nth (i * p + r) T []) zero)
       else nth (j * p + c) (nth (i * p + r) T []) zero).
Proof.
  intros q p. split.
  - eexists. split; [|split].
    + apply generic_BTTB_pure_valid; simpl; auto.
    + fold q p. apply tab2_length.
    + fold q p. rewrite transpose_tab2. apply tab2_ext. intros x y _ _.
      rewrite !BTTB_entry_symm. now rewrite (dist_sym (y / p)), (dist_sym (y mod p)).
  - eexists. split.
    + apply generic_BTTB_pure_valid; simpl; auto.
    + fold q p. intros i j r c Hi Hj Hr Hc.
      rewrite !entry_of_blocks by assumption.
      rewrite !BTTB_entry_skew.
      rewrite (dist_sym c r), (dist_sym j i).
      destruct (Nat.compare_spec i j) as [->|Hij|Hij];
        destruct (Nat.compare_spec r c) as [->|Hrc|Hrc];
        rewrite ?Nat.eqb_refl, ?Nat.ltb_irrefl;
        repeat match goal with
          | Hlt : ?a < ?b |- _ =>
              replace (a <? b) with true by (symmetry; apply Nat.ltb_lt; lia);
              replace (b <? a) with false by (symmetry; apply Nat.ltb_ge; lia);
              replace (a =? b) with false by (symmetry; apply Nat.eqb_neq; lia);
              replace (b =? a) with false by (symmetry; apply Nat.eqb_neq; lia);
              clear Hlt
          end;
        cbn [xorb]; rewrite ?neg_neg; reflexivity.
Qed.

End SymmetryLaws.

Lemma generic_BTTB_symmetry_laws_witness :
  (exists T,
     generic_BTTB "symm" "symm" 2 [[0; 1]; [0; 1]]%Z None true = Ok T /\
     length T = 4 /\ transpose 4 T 0%Z = T) /\
  (exists T,
     generic_BTTB "skew" "skew" 2 [[0; 1]; [0; 1]]%Z None true = Ok T /\
     forall i j r c, i < 2 -> j < 2 -> r < 2 -> c < 2 ->
       nth (i * 2 + r) (nth (j * 2 + c) T []) 0%Z =
       if xorb (i =? j) (r =? c)
       then Z.opp (nth (j * 2 + c) (nth (i * 2 + r) T []) 0%Z)
       else nth (j * 2 + c) (nth (i * 2 + r) T []) 0%Z).
Proof.
  apply (@generic_BTTB_symmetry_laws Z Scalar_Z 2 [[0; 1]; [0; 1]]%Z None true).
  - intros x. simpl. lia.
  - reflexivity.
Defined.

(** C5, as the spec states it, fails: the matrix of ["skew"]/["skew"] is
    not the opposite of its transpose, here on a table with zero
    diagonals. *)
Lemma generic_BTTB_symmetry_laws_counterexample :
  BTTB_metadata "skew" "skew" 2 [[0; 1]; [0; 1]]%Z None = Ok tt /\
  generic_BTTB "skew" "skew" 2 [[0; 1]; [0; 1]]%Z None true =
    Ok [[0; -1; 0; 1]; [1; 0; -1; 0]; [0; -1; 0; -1]; [1; 0; 1; 0]]%Z /\
  neg2 (transpose 4
          [[0; -1; 0; 1]; [1; 0; -1; 0]; [0; -1; 0; -1]; [1; 0; 1; 0]]%Z 0%Z) =
    [[0; -1; 0; -1]; [1; 0; 1; 0]; [0; 1; 0; -1]; [-1; 0; 1; 0]]%Z /\
  [[0; -1; 0; 1]; [1; 0; -1; 0]; [0; -1; 0; -1]; [1; 0; 1; 0]]%Z <>
    [[0; -1; 0; -1]; [1; 0; 1; 0]; [0; 1; 0; -1]; [-1; 0; 1; 0]]%Z.
Proof. repeat split; try reflexivity. discriminate. Qed.

(** ** The circulant embedding of one Toeplitz matrix *)

Section CirculantFacts.
Context {A : Type} `{Scalar A}.

Lemma Toeplitz_metadata_pure symmetry (column : list A) :
  In symmetry ["symm"; "skew"] -> column <> [] ->
  Toeplitz_metadata symmetry column None = Ok tt.
Proof.
  intros Hs Hne. unfold Toeplitz_metadata. simpl in Hs.
  destruct column; [congruence|].
  destruct Hs as [<-|[<-|[]]]; reflexivity.
Qed.

Lemma Circulant_first_column symmetry (column : list A) ci :
  In symmetry ["symm"; "skew"] -> column <> [] ->
  Circulant_from_Toeplitz symmetry column None false ci =
  Ok (fwd_piece symmetry column).
Proof.
  intros Hs Hne. unfold Circulant_from_Toeplitz.
  replace (if ci then Toeplitz_metadata symmetry column None else Ok tt)
    with (@Ok unit tt)
    by (destruct ci; [symmetry; now apply Toeplitz_metadata_pure|reflexivity]).
  simpl in Hs. destruct Hs as [<-|[<-|[]]]; reflexivity.
Qed.

Lemma Circulant_full symmetry (column : list A) ci :
  In symmetry ["symm"; "skew"] -> column <> [] ->
  let p := length column in
  Circulant_from_Toeplitz symmetry column None true ci =
  Ok (tab2 (2 * p) (2 * p) (fun i j =>
        nth (cmod (2 * p) i j) (fwd_piece symmetry column) zero)).
Proof.
  intros Hs Hne p. unfold Circulant_from_Toeplitz.
  replace (if ci then Toeplitz_metadata symmetry column None else Ok tt)
    with (@Ok unit tt)
    by (destruct ci; [symmetry; now apply Toeplitz_metadata_pure|reflexivity]).
  cbn [bind].
  assert (Hp : 0 < p) by (subst p; destruct column; [congruence|simpl; lia]).
  assert (EC : (if (symmetry =? "symm")%string then
                  Ok (hstack1 [column; [zero]; slice_rev_to0 column])
                else if (symmetry =? "skew")%string then
                  Ok (hstack1 [column; [zero]; neg1 (slice_rev_to0 column)])
                else @Err (list A) TypeError) =
               Ok (fwd_piece symmetry column)).
  { simpl in Hs. destruct Hs as [<-|[<-|[]]]; reflexivity. }
  rewrite EC. cbn [bind]. fold p.
  replace (2 * Z.of_nat p)%Z with (Z.of_nat (2 * p)) by lia.
  replace (-2 * Z.of_nat p)%Z with (- Z.of_nat (2 * p))%Z by lia.
  rewrite arange_up, arange_neg, outer_sum_tab.
  assert (LC : length (fwd_piece symmetry column) = 2 * p)
    by now apply fwd_piece_length.
  rewrite fancy_tab2 with (d := zero) by (intros; lia).
  rewrite LC. f_equal.
Qed.

(** C8.  For a non-empty column of length [P] and symmetry ["symm"] or
    ["skew"], [Circulant_from_Toeplitz] with [full=False] returns
    [C = [column, 0, reversed (and, for "skew", negated) column[1:]]];
    with [full=True] it returns the 2P x 2P matrix with entry
    [(i, j) = C[(i - j) mod 2P]], whose top-left P x P quadrant is the
    dense Toeplitz matrix that [generic_BTTB] builds from the same
    column as a single block.  For [column = [2, 1]] and ["symm"] the
    first column is [[2,1,0,1]] and the entries (0,0), (1,0), (3,0),
    (0,1) are 2, 1, 1, 1. *)
Theorem Circulant_from_Toeplitz_embeds (symmetry : string) (column : list A)
    (Hsym : In symmetry ["symm"; "skew"]) (Hne : column <> []) :
  let P := length column in
  let C := column ++ [zero] ++
           (if (symmetry =? "skew")%string
            then map neg (rev (tl column)) else rev (tl column)) in
  (exists M T,
     Circulant_from_Toeplitz symmetry column None false true = Ok C /\
     Circulant_from_Toeplitz symmetry column None true true = Ok M /\
     has_shape M (2 * Z.of_nat P) (2 * Z.of_nat P) = true /\
     (forall i j, i < 2 * P -> j < 2 * P ->
        nth j (nth i M []) zero =
        nth (Z.to_nat ((Z.of_nat i - Z.of_nat j) mod (2 * Z.of_nat P))) C zero) /\
     map (fun row => nth 0 row zero) M = C /\
     generic_BTTB "symm" symmetry 1 [column] None true = Ok T /\
     map (firstn P) (firstn P M) = T) /\
  (Circulant_from_Toeplitz "symm" [2; 1]%Z None false true = Ok [2; 1; 0; 1]%Z /\
   generic_BTTB "symm" "symm" 1 [[2; 1]]%Z None true = Ok [[2; 1]; [1; 2]]%Z /\
   exists M,
     Circulant_from_Toeplitz "symm" [2; 1]%Z None true true = Ok M /\
     nth 0 (nth 0 M []) 0%Z = 2%Z /\ nth 0 (nth 1 M []) 0%Z = 1%Z /\
     nth 0 (nth 3 M []) 0%Z = 1%Z /\ nth 1 (nth 0 M []) 0%Z = 1%Z).
Proof.
  intros P C. split.
  2:{ split; [reflexivity|]. split; [reflexivity|].
      eexists. split; [reflexivity|]. repeat split. }
  assert (HP : 0 < P) by (subst P; destruct column; [congruence|simpl; lia]).
  assert (EC : fwd_piece symmetry column = C).
  { unfold fwd_piece, hstack1, reflect1, neg1, slice_rev_to0, C.
    cbn [concat]. rewrite app_nil_r. reflexivity. }
  assert (LC : length C = 2 * P)
    by (rewrite <- EC; now apply fwd_piece_length).
  eexists. eexists.
  split; [rewrite <- EC; now apply Circulant_first_column|].
  split; [now apply Circulant_full|]. fold P. rewrite EC.
  split; [|split; [|split; [|split]]].
  - replace (2 * Z.of_nat P)%Z with (Z.of_nat (2 * P)) by lia.
    apply has_shape_tab2.
  - intros i j Hi Hj. rewrite tab2_nth by assumption.
    unfold cmod. do 3 f_equal. lia.
  - unfold tab2. rewrite map_tab. symmetry.
    apply tab_eq_nth with (d := zero); [exact LC|].
    intros i Hi. rewrite tab_nth by lia.
    unfold cmod. rewrite Z.sub_0_r, Z.mod_small by lia.
    now rewrite Nat2Z.id.
  - change 1%Z with (Z.of_nat 1).
    apply generic_BTTB_pure_entries with (p := P); simpl; auto.
    + intros col [<-|[]]. reflexivity.
    + apply (@BTTB_metadata_pure A "symm" symmetry 1 [column] P);
        simpl; auto.
      intros col [<-|[]]. reflexivity.
  - rewrite firstn_tab2 by lia. rewrite Nat.mul_1_l.
    apply tab2_ext. intros i j Hi Hj.
    rewrite <- EC, fwd_piece_entry with (p := P) by auto.
    rewrite !Nat.div_small, !Nat.mod_small by assumption.
    unfold BTTB_entry. cbn [Nat.ltb Nat.leb dist Nat.sub nth].
    unfold sgn at 1. cbn [andb]. reflexivity.
Qed.

End CirculantFacts.

Lemma Circulant_from_Toeplitz_embeds_witness :
  Circulant_from_Toeplitz "skew" [2; 1; 3]%Z None false true =
    Ok [2; 1; 3; 0; -3; -1]%Z /\
  exists M,
    Circulant_from_Toeplitz "skew" [2; 1; 3]%Z None true true = Ok M /\
    map (firstn 3) (firstn 3 M) = [[2; -1; -3]; [1; 2; -1]; [3; 1; 2]]%Z.
Proof.
  destruct (@Circulant_from_Toeplitz_embeds Z Scalar_Z "skew" [2; 1; 3]%Z)
    as [(M & T & E1 & E2 & _ & _ & _ & E3 & E4) _].
  - simpl. auto.
  - discriminate.
  - split; [exact E1|]. exists M. split; [exact E2|].
    cbn [length] in E4. rewrite E4. vm_compute in E3. now injection E3 as <-.
Defined.

(** ** The eigenvalues *)

Lemma unscaled_dft2 M N (x : nat -> nat -> C) k1 k2 :
  0 < M * N ->
  Cscale (sqrt (INR (M * N))) (dft2 M N x k1 k2) =
  Csum (seq 0 M) (fun n1 => Csum (seq 0 N) (fun n2 =>
    Cmul (x n1 n2) (cis (- phase M N k1 k2 n1 n2)))).
Proof.
  intros HMN. unfold dft2. rewrite !Cscale_mul.
  destruct (sqrt_scalars HMN) as [HSR _].
  set (S := Csum _ _).
  transitivity (Cmul (Cmul (RtoC (/ sqrt (INR (M * N)))) (RtoC (sqrt (INR (M * N))))) S);
    [ring|].
  rewrite HSR. ring.
Qed.

(** C7.  On a dictionary that passes the validation, [eigenvalues_BCCB]
    reshapes the first column of [4 * nblocks * npoints_per_block] items
    row-major into a [2 nblocks] x [2 npoints_per_block] grid (transposed
    for the ["column"] ordering) and returns [sqrt(4 nblocks
    npoints_per_block)] times the orthonormal 2D transform of the grid,
    which has the shape of the grid and is the transform without any
    scaling; for one block of one point the shape is (2, 2).

    Both the grid and the eigenvalues are given item by item from the
    first column: item [a * 2 npoints_per_block + b] of the first column
    is entry [(a, b)] of the grid for ["row"] and entry [(b, a)] for
    ["column"], and the eigenvalue of the frequencies [(k1, k2)], at
    [(k1, k2)] for ["row"] and at [(k2, k1)] for ["column"], is the sum of
    the items times [exp(-2 pi i (k1 a / (2 nblocks) + k2 b / (2
    npoints_per_block)))]. *)
Theorem eigenvalues_BCCB_spec (c0 : list R) (nblocks npoints_per_block : Z)
    (symmetry ordering : string)
    (HQ : (0 < nblocks)%Z) (HP : (0 < npoints_per_block)%Z)
    (Hlen : Z.of_nat (length c0) = (4 * nblocks * npoints_per_block)%Z)
    (Hsym : In symmetry nine_symmetries)
    (Hord : In ordering ["row"; "column"]) :
  let q2 := Z.to_nat (2 * nblocks) in
  let p2 := Z.to_nat (2 * npoints_per_block) in
  exists G0 L,
    reshape c0 (2 * nblocks) (2 * npoints_per_block) = Ok G0 /\
    (forall a b, a < q2 -> b < p2 ->
       nth b (nth a G0 []) 0%R = nth (a * p2 + b) c0 0%R) /\
    let G := if (ordering =? "row")%string then G0 else transpose p2 G0 0%R in
    let rows := if (ordering =? "row")%string then q2 else p2 in
    let cols := if (ordering =? "row")%string then p2 else q2 in
    eigenvalues_BCCB (BCCB0.make c0 nblocks npoints_per_block symmetry) ordering =
      Ok (BCCB_eigen.make L ordering nblocks npoints_per_block symmetry) /\
    L = map (map (Cscale (sqrt (IZR (4 * nblocks * npoints_per_block)))))
            (fft2_ortho (map (map RtoC) G)) /\
    has_shape G (Z.of_nat rows) (Z.of_nat cols) = true /\
    has_shape L (Z.of_nat rows) (Z.of_nat cols) = true /\
    (forall a b, a < q2 -> b < p2 ->
       nth (if (ordering =? "row")%string then b else a)
           (nth (if (ordering =? "row")%string then a else b) G []) 0%R =
       nth (a * p2 + b) c0 0%R) /\
    (forall k1 k2, k1 < rows -> k2 < cols ->
       entry L k1 k2 =
       Csum (seq 0 rows) (fun n1 => Csum (seq 0 cols) (fun n2 =>
         Cmul (RtoC (nth n2 (nth n1 G []) 0%R))
              (cis (- phase rows cols k1 k2 n1 n2))))) /\
    (forall k1 k2, k1 < q2 -> k2 < p2 ->
       entry L (if (ordering =? "row")%string then k1 else k2)
               (if (ordering =? "row")%string then k2 else k1) =
       Csum (seq 0 q2) (fun a => Csum (seq 0 p2) (fun b =>
         Cmul (RtoC (nth (a * p2 + b) c0 0%R))
              (cis (- (2 * PI * (INR k1 * INR a / INR q2 +
                                 INR k2 * INR b / INR p2))))))) /\
    (nblocks = 1%Z -> npoints_per_block = 1%Z -> has_shape L 2 2 = true).
Proof.
  intros q2 p2.
  assert (Hnat : exists q p, 0 < q /\ 0 < p /\ nblocks = Z.of_nat q /\
                             npoints_per_block = Z.of_nat p).
  { exists (Z.to_nat nblocks), (Z.to_nat npoints_per_block).
    repeat split; lia. }
  destruct Hnat as (q & p & Hq & Hp & -> & ->).
  assert (L0 : length c0 = 4 * q * p) by lia.
  assert (Eq2 : q2 = 2 * q) by (unfold q2; lia).
  assert (Ep2 : p2 = 2 * p) by (unfold p2; lia).
  rewrite Eq2, Ep2. clear q2 p2 Eq2 Ep2.
  assert (Hs : str_in symmetry nine_symmetries = true).
  { unfold str_in. apply existsb_exists. exists symmetry.
    split; [assumption|apply String.eqb_refl]. }
  assert (ER : reshape c0 (2 * Z.of_nat q) (2 * Z.of_nat p) =
               Ok (tab2 (2 * q) (2 * p) (fun i j => nth (i * (2 * p) + j) c0 0%R))).
  { replace (2 * Z.of_nat q)%Z with (Z.of_nat (2 * q)) by lia.
    replace (2 * Z.of_nat p)%Z with (Z.of_nat (2 * p)) by lia.
    apply reshape_tab. lia. }
  simpl in Hord. destruct Hord as [<-|[<-|[]]].
  - eexists. eexists. split; [exact ER|].
    split; [intros a b Ha Hb; rewrite tab2_nth by assumption; reflexivity|].
    change ("row" =? "row")%string with true. cbv zeta iota.
    split; [now apply eigenvalues_BCCB_row|].
    split; [rewrite map_map_tab2, fft2_ortho_tab2, map_map_tab2, sqrt_size by lia;
            reflexivity|].
    split; [apply has_shape_tab2|]. split; [apply has_shape_tab2|].
    split; [intros a b Ha Hb; rewrite tab2_nth by assumption; reflexivity|].
    split; [|split].
    + intros k1 k2 H1 H2. rewrite entry_tab2 by assumption.
      rewrite unscaled_dft2 by lia.
      apply Csum_ext. intros n1 Hn1. apply Csum_ext. intros n2 Hn2.
      apply in_seq in Hn1, Hn2. rewrite tab2_nth by lia. reflexivity.
    + intros k1 k2 H1 H2. rewrite entry_tab2 by assumption.
      rewrite unscaled_dft2 by lia. reflexivity.
    + intros E1 E2. assert (q = 1) by lia. assert (p = 1) by lia. subst q p.
      reflexivity.
  - eexists. eexists. split; [exact ER|].
    split; [intros a b Ha Hb; rewrite tab2_nth by assumption; reflexivity|].
    change ("column" =? "row")%string with false. cbv zeta iota.
    rewrite transpose_tab2.
    split; [now apply eigenvalues_BCCB_column|].
    split; [rewrite map_map_tab2, fft2_ortho_tab2, map_map_tab2, sqrt_size by lia;
            replace (2 * q * (2 * p)) with (2 * p * (2 * q)) by lia;
            reflexivity|].
    split; [apply has_shape_tab2|]. split; [apply has_shape_tab2|].
    split; [intros a b Ha Hb; rewrite tab2_nth by assumption; reflexivity|].
    split; [|split].
    + intros k1 k2 H1 H2. rewrite entry_tab2 by assumption.
      rewrite unscaled_dft2 by lia.
      apply Csum_ext. intros n1 Hn1. apply Csum_ext. intros n2 Hn2.
      apply in_seq in Hn1, Hn2. rewrite tab2_nth by lia. reflexivity.
    + intros k1 k2 H1 H2. rewrite entry_tab2 by assumption.
      rewrite unscaled_dft2 by lia. rewrite Csum_swap.
      apply Csum_ext. intros a _. apply Csum_ext. intros b _.
      unfold G_of. do 3 f_equal. unfold phase, Rdiv. ring.
    + intros E1 E2. assert (q = 1) by lia. assert (p = 1) by lia. subst q p.
      reflexivity.
Qed.

Lemma eigenvalues_BCCB_spec_witness :
  exists L,
    eigenvalues_BCCB (BCCB0.make [1; 2; 3; 4; 5; 6; 7; 8]%R 1 2 "skew-symm")
      "column" = Ok (BCCB_eigen.make L "column" 1 2 "skew-symm") /\
    has_shape L 4 2 = true /\
    L = map (map (Cscale (sqrt (IZR (4 * 1 * 2)))))
            (fft2_ortho (map (map RtoC)
                           [[1; 5]; [2; 6]; [3; 7]; [4; 8]]%R)) /\
    forall k1 k2, k1 < 2 -> k2 < 4 ->
      entry L k2 k1 =
      Csum (seq 0 2) (fun a => Csum (seq 0 4) (fun b =>
        Cmul (RtoC (nth (a * 4 + b) [1; 2; 3; 4; 5; 6; 7; 8]%R 0%R))
             (cis (- (2 * PI * (INR k1 * INR a / INR 2 +
                                INR k2 * INR b / INR 4)))))).
Proof.
  destruct (@eigenvalues_BCCB_spec [1; 2; 3; 4; 5; 6; 7; 8]%R 1 2
              "skew-symm" "column")
    as (G0 & L & EG & _ & E & EL & _ & Hshape & _ & _ & Hentry & _);
    [lia|lia|reflexivity|unfold nine_symmetries; simpl; auto 10|simpl; auto|].
  exists L. split; [exact E|]. split; [exact Hshape|].
  split; [|exact Hentry].
  rewrite EL. vm_compute in EG. injection EG as <-. reflexivity.
Defined.

(** ** The transposition factor *)

Lemma dot_scale f (row v : list R) :
  dot (scale_vec f row) v = (IZR f * dot row v)%R.
Proof.
  unfold dot, scale_vec. cbn [add mul zero Scalar_R].
  induction row as [|x row IH] in v |- *;
    cbn [combine map fold_right fst snd]; [ring|].
  destruct v as [|y v]; cbn [combine map fold_right fst snd]; [ring|].
  rewrite IH. ring.
Qed.

Lemma matvec_scale f (T : list (list R)) v :
  matvec (scale_mat f T) v = scale_vec f (matvec T v).
Proof.
  unfold matvec, scale_mat. rewrite map_map. unfold scale_vec at 2.
  rewrite map_map. apply map_ext. intros row. apply dot_scale.
Qed.

Lemma scale_vec_1 (w : list R) : scale_vec 1 w = w.
Proof.
  unfold scale_vec. rewrite <- (map_id w) at 2.
  apply map_ext. intros x. ring.
Qed.

Lemma dist_refl a : dist a a = 0.
Proof. unfold dist. rewrite Nat.ltb_irrefl. lia. Qed.

Lemma dist_pos a b : a <> b -> 1 <= dist a b.
Proof. intros Hn. unfold dist. destruct (Nat.ltb_spec a b); lia. Qed.

(** Under the vanishing conditions a transposed entry is the factor times
    the entry. *)
Lemma BTTB_entry_transposed ss sb (columns : list (list R)) f i j r c :
  In ss ["symm"; "skew"] -> In sb ["symm"; "skew"] ->
  transposition_factor (symmetry_name ss sb) = Ok f ->
  transpose_compatible ss sb columns ->
  BTTB_entry ss sb columns j i c r =
  (IZR f * BTTB_entry ss sb columns i j r c)%R.
Proof.
  intros Hs Hb Ef [H1 H2]. unfold BTTB_entry.
  rewrite (dist_sym c r), (dist_sym j i).
  change (@zero R Scalar_R) with 0%R.
  assert (Z1 : sb = "skew" -> r = c -> (ss = "skew" -> i <> j) ->
               nth (dist r c) (nth (dist i j) columns []) 0%R = 0%R).
  { intros E -> Hij. rewrite dist_refl. apply H1; [exact E|].
    intros E'. apply dist_pos. now apply Hij. }
  assert (Z2 : ss = "skew" -> i = j -> (sb = "skew" -> r <> c) ->
               nth (dist r c) (nth (dist i j) columns []) 0%R = 0%R).
  { intros E -> Hrc. rewrite dist_refl. apply H2; [exact E|].
    intros E'. apply dist_pos. now apply Hrc. }
  set (x := nth (dist r c) (nth (dist i j) columns []) 0%R) in *.
  clearbody x. clear H1 H2. unfold sgn.
  simpl in Hs, Hb.
  destruct Hs as [<-|[<-|[]]]; destruct Hb as [<-|[<-|[]]];
    injection Ef as <-;
    cbn [String.eqb Ascii.eqb Bool.eqb neg Scalar_R];
    rewrite ?andb_true_r, ?andb_false_r;
    destruct (Nat.compare_spec i j) as [Eij|Hij|Hij];
    destruct (Nat.compare_spec r c) as [Erc|Hrc|Hrc];
    try subst j; try subst c; rewrite ?Nat.ltb_irrefl;
    repeat match goal with
      | Hlt : ?a < ?b |- _ =>
          replace (a <? b) with true by (symmetry; apply Nat.ltb_lt; lia);
          replace (b <? a) with false by (symmetry; apply Nat.ltb_ge; lia);
          assert (a <> b) by lia; clear Hlt
      end;
    try (rewrite Z1 by (try reflexivity; intros; try discriminate; lia));
    try (rewrite Z2 by (try reflexivity; intros; try discriminate; lia));
    lra.
Qed.

Lemma scale_mat_tab2 f m n (E : nat -> nat -> R) :
  scale_mat f (tab2 m n E) = tab2 m n (fun x y => (IZR f * E x y)%R).
Proof. unfold scale_mat, scale_vec. apply map_map_tab2. Qed.

Lemma transposition_factor_other (symmetry : string) :
  ~ In symmetry ["skew-skew"; "skew-symm"; "symm-skew"; "symm-symm"] ->
  transposition_factor symmetry = Err ValueError.
Proof.
  intros Hn. unfold transposition_factor.
  destruct (str_in symmetry _) eqn:E; [|reflexivity].
  apply str_in_cases in E. contradiction.
Qed.

(** C9, as the code has it.  [transposition_factor] returns +1 for
    ["symm-symm"] and ["skew-skew"], -1 for ["symm-skew"] and
    ["skew-symm"], and raises for any other symmetry.  For a pure
    symmetry, the factor times the fast product equals the product of the
    transposed dense matrix with [v] whenever the dense matrix satisfies
    [T^t = factor * T]: always for ["symm-symm"], and for the other three
    when the generating entries named by [transpose_compatible] are
    zero. *)
Theorem transposition_factor_spec :
  (transposition_factor "symm-symm" = Ok 1%Z /\
   transposition_factor "skew-skew" = Ok 1%Z /\
   transposition_factor "symm-skew" = Ok (-1)%Z /\
   transposition_factor "skew-symm" = Ok (-1)%Z) /\
  (forall symmetry,
     ~ In symmetry ["skew-skew"; "skew-symm"; "symm-skew"; "symm-symm"] ->
     transposition_factor symmetry = Err ValueError) /\
  (forall (ss sb ordering : string) (b0 v : list R)
          (nblocks npoints_per_block : Z),
     In ss ["symm"; "skew"] -> In sb ["symm"; "skew"] ->
     In ordering ["row"; "column"] ->
     (0 < nblocks)%Z -> (0 < npoints_per_block)%Z ->
     Z.of_nat (length b0) = (nblocks * npoints_per_block)%Z ->
     Z.of_nat (length v) = (nblocks * npoints_per_block)%Z ->
     exists columns T f w,
       split b0 nblocks = Ok columns /\
       generic_BTTB ss sb nblocks columns None true = Ok T /\
       transposition_factor (symmetry_name ss sb) = Ok f /\
       (BCCB0 <- embedding_BCCB_first_column b0 nblocks npoints_per_block
                   (symmetry_name ss sb) ;;
        BCCB_eigen <- eigenvalues_BCCB BCCB0 ordering ;;
        product_BCCB_vector BCCB_eigen v true) = Ok w /\
       (transpose (length T) T 0%R = scale_mat f T ->
        scale_vec f w = matvec (transpose (length T) T 0%R) v) /\
       (transpose_compatible ss sb columns ->
        transpose (length T) T 0%R = scale_mat f T /\
        scale_vec f w = matvec (transpose (length T) T 0%R) v) /\
       (ss = "symm" -> sb = "symm" ->
        scale_vec f w = matvec (transpose (length T) T 0%R) v)).
Proof.
  split; [repeat split|]. split; [exact transposition_factor_other|].
  intros ss sb ordering b0 v Q P Hss Hsb Hord HQ HP Hb0 Hv.
  destruct (@sizes_as_nat _ _ _ HQ HP Hb0) as (EQ & EP & Hq & Hp & L).
  assert (Lv : length v = Z.to_nat Q * Z.to_nat P) by lia.
  set (q := Z.to_nat Q) in *. set (p := Z.to_nat P) in *.
  clearbody q p. subst Q P.
  destruct (@fast_product_pure ss sb b0 v q p ordering) as (T & ET & EF);
    try assumption.
  assert (Ef : exists f, transposition_factor (symmetry_name ss sb) = Ok f).
  { simpl in Hss, Hsb.
    destruct Hss as [<-|[<-|[]]]; destruct Hsb as [<-|[<-|[]]];
      eexists; reflexivity. }
  destruct Ef as [f Ef].
  assert (Hcompat : transpose_compatible ss sb (chunks q p b0) ->
                    transpose (length T) T 0%R = scale_mat f T).
  { intros Hc.
    rewrite generic_BTTB_pure_entries with (p := p) in ET;
      auto using chunks_length.
    - injection ET as <-.
      rewrite tab2_length, transpose_tab2, scale_mat_tab2.
      apply tab2_ext. intros x y _ _. now apply BTTB_entry_transposed.
    - intros col Hcol. now apply chunks_part_length in Hcol.
    - apply BTTB_metadata_pure with (p := p); auto using chunks_length.
      intros col Hcol. now apply chunks_part_length in Hcol. }
  exists (chunks q p b0), T, f, (matvec T v).
  split; [now apply split_ok|]. split; [exact ET|]. split; [exact Ef|].
  split; [exact EF|]. split; [|split].
  - intros Ht. rewrite Ht. symmetry. apply matvec_scale.
  - intros Hc. split; [now apply Hcompat|].
    rewrite Hcompat by assumption. symmetry. apply matvec_scale.
  - intros -> ->. rewrite Hcompat; [symmetry; apply matvec_scale|].
    split; intros; discriminate.
Qed.

Lemma transposition_factor_spec_witness :
  exists T f w,
    generic_BTTB "skew" "skew" 2 [[5; 0]; [0; 3]]%R None true = Ok T /\
    transposition_factor (symmetry_name "skew" "skew") = Ok f /\
    (BCCB0 <- embedding_BCCB_first_column [5; 0; 0; 3]%R 2 2
                (symmetry_name "skew" "skew") ;;
     BCCB_eigen <- eigenvalues_BCCB BCCB0 "row" ;;
     product_BCCB_vector BCCB_eigen [1; 3; 0; 2]%R true) = Ok w /\
    transpose (length T) T 0%R = scale_mat f T /\
    scale_vec f w = matvec (transpose (length T) T 0%R) [1; 3; 0; 2]%R.
Proof.
  destruct transposition_factor_spec as (_ & _ & Hp).
  destruct (Hp "skew" "skew" "row" [5; 0; 0; 3]%R [1; 3; 0; 2]%R 2%Z 2%Z)
    as (columns & T & f & w & E1 & E2 & E3 & E4 & _ & E5 & _);
    [simpl; auto|simpl; auto|simpl; auto|lia|lia|reflexivity|reflexivity|].
  assert (Ec : split [5; 0; 0; 3]%R 2 = Ok [[5; 0]; [0; 3]]%R) by reflexivity.
  rewrite Ec in E1. injection E1 as <-.
  exists T, f, w. repeat split; try assumption; apply E5.
  - split; intros _ d Hd.
    + destruct d as [|[|[|d]]]; [specialize (Hd eq_refl); lia| | |]; reflexivity.
    + destruct d as [|[|[|d]]]; [specialize (Hd eq_refl); lia| | |]; reflexivity.
  - split; intros _ d Hd.
    + destruct d as [|[|[|d]]]; [specialize (Hd eq_refl); lia| | |]; reflexivity.
    + destruct d as [|[|[|d]]]; [specialize (Hd eq_refl); lia| | |]; reflexivity.
Defined.

(** C9, as the spec states it, fails: for ["skew-symm"] and the 1 x 1
    matrix [[1]] the factor is -1, while the transposed matrix is the
    matrix itself. *)
Lemma transposition_factor_spec_counterexample :
  exists T w,
    generic_BTTB "skew" "symm" 1 [[1]]%R None true = Ok T /\
    fast_product [1]%R 1 1 "skew-symm" "row" [1]%R = Ok w /\
    transposition_factor "skew-symm" = Ok (-1)%Z /\
    scale_vec (-1) w <> matvec (transpose 1 T 0%R) [1]%R.
Proof.
  destruct (@fast_product_pure "skew" "symm" [1]%R [1]%R 1 1 "row")
    as (T & ET & EF); [simpl; auto|simpl; auto|simpl; auto|lia|lia|
                       reflexivity|reflexivity|].
  exists T, (matvec T [1]%R).
  split; [exact ET|]. split; [exact EF|]. split; [reflexivity|].
  assert (E : generic_BTTB "skew" "symm" 1 [[1]]%R None true = Ok [[1]]%R)
    by reflexivity.
  change (generic_BTTB "skew" "symm" 1 [[1]]%R None true = Ok T) in ET.
  rewrite E in ET. injection ET as <-.
  unfold scale_vec, matvec, transpose, dot. simpl.
  intros Hc. injection Hc as Hc. lra.
Qed.

(** * Further properties *)

(** ** [generic_BTTB] on the nine symmetries *)

Lemma slice_from_nat {A : Type} (x : list A) (n : nat) :
  slice_from x (Z.of_nat n) = skipn n x.
Proof.
  unfold slice_from. destruct (Z.ltb_spec (Z.of_nat n) 0); [lia|].
  now rewrite Nat2Z.id.
Qed.

(** What the validation guarantees about the table of first rows. *)
Lemma BTTB_metadata_rows {A : Type} ss Q (columns : list (list A)) rows :
  BTTB_metadata ss "gene" Q columns rows = Ok tt ->
  exists rs, rows = Some rs /\ length rs = length columns /\
    (forall row, In row rs -> length row = length (hd [] rs)) /\
    length (hd [] rs) + 1 = length (hd [] columns).
Proof.
  unfold BTTB_metadata. intros E.
  destruct (str_in ss _) eqn:E1; [|discriminate].
  destruct (str_in "gene" _) eqn:E2; [|discriminate].
  cbv beta iota delta [negb] in E.
  apply bind_Ok_inv in E. destruct E as [[] [_ E]].
  apply bind_Ok_inv in E. destruct E as [[] [_ E]].
  destruct (Z.of_nat (length columns) =? _)%Z; [|discriminate].
  change ("gene" =? "gene")%string with true in E. cbv iota in E.
  destruct rows as [rs|]; [|discriminate].
  apply bind_Ok_inv in E. destruct E as [[] [E3 E]].
  destruct (Nat.eqb_spec (length rs) (length columns)) as [E4|]; [|discriminate].
  destruct (Nat.eqb_spec (length (hd [] rs) + 1) (length (hd [] columns)))
    as [E5|]; [|discriminate].
  exists rs. repeat split; auto. now apply is_array2_ok.
Qed.

Section NineBTTB.
Context {A : Type} `{Scalar A}.

(** One generic Toeplitz block, gathered from the reversed row followed
    by the column. *)
Lemma Toeplitz_block_gene (column row : list A) :
  length row + 1 = length column ->
  let p := length column in
  fancy (slice_rev row ++ column)
    (outer_sum (arange 0 (Z.of_nat p) 1) (arange (Z.of_nat p - 1) (-1) (-1))) =
  Ok (tab2 p p (Toeplitz_entry "gene" column row)).
Proof.
  intros Hl p.
  rewrite arange_up, arange_down, outer_sum_tab.
  assert (Lx : length (slice_rev row ++ column) = 2 * p - 1).
  { unfold slice_rev. rewrite length_app, length_rev. subst p. lia. }
  rewrite fancy_tab2 with (d := zero) by (intros; lia).
  f_equal. unfold tab2. apply tab_ext. intros r Hr. apply tab_ext. intros c Hc.
  rewrite Z.mod_small by lia.
  replace (Z.to_nat (Z.of_nat r + (Z.of_nat p - 1 - Z.of_nat c)))
    with (r + (p - 1 - c)) by lia.
  unfold Toeplitz_entry. change ("gene" =? "gene")%string with true. cbv iota.
  unfold slice_rev.
  destruct (Nat.ltb_spec r c) as [Hrc|Hrc].
  - rewrite app_nth1 by (rewrite length_rev; lia).
    rewrite rev_nth by lia. f_equal. lia.
  - rewrite app_nth2 by (rewrite length_rev; lia).
    rewrite length_rev. f_equal. lia.
Qed.

Lemma Toeplitz_entry_pure sb (column row : list A) r c :
  In sb ["symm"; "skew"] ->
  Toeplitz_entry sb column row r c =
  sgn sb (r <? c) (nth (dist r c) column zero).
Proof.
  intros Hb. simpl in Hb. destruct Hb as [<-|[<-|[]]]; reflexivity.
Qed.

(** The block in position [i + (q - 1 - j)] of the mirrored block column
    followed by the block column. *)
Lemma cat_mirror_nth ss (blocks : list (list (list A))) q i j :
  length blocks = q -> i < q -> j < q ->
  nth (i + (q - 1 - j)) (mirror3 ss (slice_rev_to0 blocks) ++ blocks) [] =
  if i <? j
  then (if (ss =? "skew")%string
        then neg2 (nth (j - i) blocks []) else nth (j - i) blocks [])
  else nth (i - j) blocks [].
Proof.
  intros Lb Hi Hj.
  assert (Lr : length (slice_rev_to0 blocks) = q - 1).
  { unfold slice_rev_to0. rewrite length_rev. destruct blocks; simpl in *; lia. }
  assert (Lm : length (mirror3 ss (slice_rev_to0 blocks)) = q - 1).
  { unfold mirror3, neg3. destruct (ss =? "skew")%string;
      now rewrite ?length_map. }
  destruct (Nat.ltb_spec i j) as [Hij|Hij].
  - rewrite app_nth1 by lia.
    assert (Hr : nth (i + (q - 1 - j)) (slice_rev_to0 blocks) []
                 = nth (j - i) blocks []).
    { unfold slice_rev_to0. replace (i + (q - 1 - j)) with (q - 1 - (j - i)) by lia.
      apply nth_rev_tl; lia. }
    unfold mirror3. destruct (ss =? "skew")%string.
    + unfold neg3. rewrite nth_map_in with (dx := []) by lia. now rewrite Hr.
    + exact Hr.
  - rewrite app_nth2 by lia. rewrite Lm. f_equal. lia.
Qed.

Lemma mirror_length ss (blocks : list (list (list A))) q :
  length blocks = q -> length (mirror3 ss (slice_rev_to0 blocks)) = q - 1.
Proof.
  intros Lb. unfold mirror3, neg3, slice_rev_to0.
  destruct (ss =? "skew")%string; rewrite ?length_map, length_rev;
    destruct blocks; simpl in *; lia.
Qed.

(** The same for the reversed block row followed by the block column. *)
Lemma cat_gene_nth (front back : list (list (list A))) q i j :
  length front = q -> length back + 1 = q -> i < q -> j < q ->
  nth (i + (q - 1 - j)) (slice_rev back ++ front) [] =
  if i <? j then nth (j - i - 1) back [] else nth (i - j) front [].
Proof.
  intros Lf Lb Hi Hj. unfold slice_rev.
  destruct (Nat.ltb_spec i j) as [Hij|Hij].
  - rewrite app_nth1 by (rewrite length_rev; lia).
    rewrite rev_nth by lia. f_equal. lia.
  - rewrite app_nth2 by (rewrite length_rev; lia).
    rewrite length_rev. f_equal. lia.
Qed.

(** The last three steps of [generic_BTTB]: gather the blocks by
    [i + (q - 1 - j)] and join them. *)
Lemma gather_blocks (q p : nat) (cat : list (list (list A)))
    (E : nat -> nat -> nat -> nat -> A) :
  0 < q -> length cat = 2 * q - 1 ->
  (forall i j, i < q -> j < q ->
     nth (i + (q - 1 - j)) cat [] = tab2 p p (E i j)) ->
  (gathered <- fancy cat (outer_sum (arange 0 (Z.of_nat q) 1)
                            (arange (Z.of_nat q - 1) (-1) (-1))) ;;
   inner <- hstack gathered ;; hstack inner) =
  Ok (tab2 (q * p) (q * p) (fun x y => E (x / p) (y / p) (x mod p) (y mod p))).
Proof.
  intros Hq Lcat Hn.
  rewrite arange_up, arange_down, outer_sum_tab.
  rewrite fancy_tab2 with (d := @nil (list A)) by (intros; lia).
  cbn [bind]. rewrite Lcat.
  rewrite tab2_ext with (g := fun i j => tab2 p p (E i j)).
  2:{ intros i j Hi Hj. rewrite Z.mod_small by lia.
      replace (Z.to_nat (Z.of_nat i + (Z.of_nat q - 1 - Z.of_nat j)))
        with (i + (q - 1 - j)) by lia.
      now apply Hn. }
  apply hstack_hstack_blocks. exact Hq.
Qed.

End NineBTTB.

Lemma In_firstn_in {A : Type} n (l : list A) x : In x (firstn n l) -> In x l.
Proof.
  intros Hx. rewrite <- (firstn_skipn n l). apply in_or_app. now left.
Qed.

Lemma In_skipn_in {A : Type} n (l : list A) x : In x (skipn n l) -> In x l.
Proof.
  intros Hx. rewrite <- (firstn_skipn n l). apply in_or_app. now right.
Qed.

Section NineBTTBForms.
Context {A : Type} `{Scalar A}.

(** The branches of [generic_BTTB] for generic blocks in a symmetric or
    skew-symmetric structure, as one expression. *)
Lemma generic_BTTB_pure_gene ss Q columns rs ci :
  In ss ["symm"; "skew"] ->
  generic_BTTB ss "gene" Q columns (Some rs) ci =
  ((if ci then BTTB_metadata ss "gene" Q columns (Some rs) else Ok tt) ;;;
   let P := Z.of_nat (length (hd [] columns)) in
   let ind_blocks := outer_sum (arange 0 P 1) (arange (P - 1) (-1) (-1)) in
   blocks <- mapM (fun cr =>
     fancy (slice_rev (snd cr) ++ fst cr) ind_blocks) (combine columns rs) ;;
   back <- stack blocks ;; front <- stack blocks ;;
   gathered <- fancy (mirror3 ss (slice_rev_to0 back) ++ front)
     (outer_sum (arange 0 Q 1) (arange (Q - 1) (-1) (-1))) ;;
   inner <- hstack gathered ;; hstack inner).
Proof.
  intros Hs. simpl in Hs.
  destruct Hs as [<-|[<-|[]]];
    unfold generic_BTTB, mirror3;
    (destruct (if ci then _ else _) as [[]|]; [|reflexivity]);
    cbn [bind String.eqb Ascii.eqb Bool.eqb];
    (destruct (mapM _ (combine columns rs)) as [blocks|]; [|reflexivity]);
    cbn [bind]; (destruct (stack blocks); reflexivity).
Qed.

(** The branches for symmetric or skew-symmetric blocks in a generic
    structure. *)
Lemma generic_BTTB_gene_pure sb Q columns rows ci :
  In sb ["symm"; "skew"] ->
  generic_BTTB "gene" sb Q columns rows ci =
  ((if ci then BTTB_metadata "gene" sb Q columns rows else Ok tt) ;;;
   let P := Z.of_nat (length (hd [] columns)) in
   let ind_blocks := outer_sum (arange 0 P 1) (arange (P - 1) (-1) (-1)) in
   blocks_1j <- mapM (fun column =>
     fancy (reflect1 sb (slice_rev_to0 column) ++ column) ind_blocks)
     (slice_to columns Q) ;;
   blocks_i1 <- mapM (fun column =>
     fancy (reflect1 sb (slice_rev_to0 column) ++ column) ind_blocks)
     (slice_from columns Q) ;;
   back <- stack blocks_i1 ;; front <- stack blocks_1j ;;
   gathered <- fancy (slice_rev back ++ front)
     (outer_sum (arange 0 Q 1) (arange (Q - 1) (-1) (-1))) ;;
   inner <- hstack gathered ;; hstack inner).
Proof.
  intros Hb. simpl in Hb.
  destruct Hb as [<-|[<-|[]]];
    unfold generic_BTTB, reflect1;
    (destruct (if ci then _ else _) as [[]|]; [|reflexivity]);
    cbn [bind String.eqb Ascii.eqb Bool.eqb];
    (destruct (mapM _ (slice_to columns Q)) as [b1|]; [|reflexivity]);
    cbn [bind];
    (destruct (mapM _ (slice_from columns Q)) as [b2|]; [|reflexivity]);
    cbn [bind];
    (destruct (stack b2); [|reflexivity]); cbn [bind];
    (destruct (stack b1); reflexivity).
Qed.

(** Generic blocks in a symmetric or skew-symmetric structure. *)
Lemma generic_BTTB_pure_gene_entries ss (q p : nat)
    (columns rs : list (list A)) (ci : bool) :
  In ss ["symm"; "skew"] -> 0 < q ->
  length columns = q -> length rs = q ->
  (forall col, In col columns -> length col = p) ->
  (forall row, In row rs -> length row + 1 = p) ->
  (if ci then BTTB_metadata ss "gene" (Z.of_nat q) columns (Some rs) else Ok tt)
    = Ok tt ->
  generic_BTTB ss "gene" (Z.of_nat q) columns (Some rs) ci =
  Ok (tab2 (q * p) (q * p) (fun x y =>
        generic_entry ss "gene" q columns (Some rs)
          (x / p) (y / p) (x mod p) (y mod p))).
Proof.
  intros Hs Hq Lc Lr Hc Hr Hci.
  rewrite generic_BTTB_pure_gene by assumption. rewrite Hci. cbn [bind].
  assert (Lh : length (hd [] columns) = p).
  { apply Hc. destruct columns; [simpl in Lc; lia|now left]. }
  rewrite Lh. cbv zeta.
  set (g := fun cr : list A * list A =>
         tab2 p p (Toeplitz_entry "gene" (fst cr) (snd cr))).
  rewrite mapM_ok with (g := g).
  2:{ intros [col row] Hin. cbn [fst snd]. unfold g. cbn [fst snd].
      pose proof (Hc col (in_combine_l _ _ _ _ Hin)) as H1.
      pose proof (Hr row (in_combine_r _ _ _ _ Hin)) as H2.
      rewrite <- H1. apply Toeplitz_block_gene. lia. }
  cbn [bind].
  assert (Lb : length (map g (combine columns rs)) = q)
    by (rewrite length_map, length_combine; lia).
  assert (Es : stack (map g (combine columns rs)) = Ok (map g (combine columns rs))).
  { destruct (map g (combine columns rs)); [simpl in Lb; lia|reflexivity]. }
  rewrite Es. cbn [bind].
  apply gather_blocks with (E := generic_entry ss "gene" q columns (Some rs)).
  - exact Hq.
  - rewrite length_app, mirror_length with (q := q) by assumption. lia.
  - intros i j Hi Hj. rewrite cat_mirror_nth with (q := q) by assumption.
    assert (Eg : (ss =? "gene")%string = false)
      by (simpl in Hs; destruct Hs as [<-|[<-|[]]]; reflexivity).
    assert (En : forall k, k < q ->
              nth k (map g (combine columns rs)) [] =
              tab2 p p (Toeplitz_entry "gene" (nth k columns []) (nth k rs []))).
    { intros k Hk.
      rewrite nth_map_in with (dx := (@nil A, @nil A))
        by (rewrite length_combine; lia).
      rewrite combine_nth by lia. reflexivity. }
    unfold generic_entry, block_row, dist. rewrite Eg.
    destruct (Nat.ltb_spec i j) as [Hij|Hij].
    + rewrite En by lia. unfold sgn. cbn [andb].
      destruct (ss =? "skew")%string; [apply neg2_tab2|reflexivity].
    + rewrite En by lia. reflexivity.
Qed.

(** Symmetric or skew-symmetric blocks in a generic structure. *)
Lemma generic_BTTB_gene_pure_entries sb (q p : nat)
    (columns : list (list A)) rows (ci : bool) :
  In sb ["symm"; "skew"] -> 2 <= q ->
  length columns = 2 * q - 1 ->
  (forall col, In col columns -> length col = p) ->
  (if ci then BTTB_metadata "gene" sb (Z.of_nat q) columns rows else Ok tt)
    = Ok tt ->
  generic_BTTB "gene" sb (Z.of_nat q) columns rows ci =
  Ok (tab2 (q * p) (q * p) (fun x y =>
        generic_entry "gene" sb q columns rows
          (x / p) (y / p) (x mod p) (y mod p))).
Proof.
  intros Hb Hq Lc Hc Hci.
  rewrite generic_BTTB_gene_pure by assumption. rewrite Hci. cbn [bind].
  assert (Lh : length (hd [] columns) = p).
  { apply Hc. destruct columns; [simpl in Lc; lia|now left]. }
  rewrite Lh. cbv zeta. rewrite slice_to_nat, slice_from_nat.
  set (g := fun column : list A =>
         tab2 p p (fun r c => sgn sb (r <? c) (nth (dist r c) column zero))).
  rewrite mapM_ok with (g := g).
  2:{ intros col Hcol. apply In_firstn_in in Hcol. unfold g.
      rewrite <- (Hc col Hcol). now apply Toeplitz_block. }
  cbn [bind].
  rewrite mapM_ok with (g := g).
  2:{ intros col Hcol. apply In_skipn_in in Hcol. unfold g.
      rewrite <- (Hc col Hcol). now apply Toeplitz_block. }
  cbn [bind].
  assert (L1 : length (map g (firstn q columns)) = q)
    by (rewrite length_map, length_firstn; lia).
  assert (L2 : length (map g (skipn q columns)) + 1 = q)
    by (rewrite length_map, length_skipn; lia).
  assert (E1 : stack (map g (skipn q columns)) = Ok (map g (skipn q columns))).
  { destruct (map g (skipn q columns)); [simpl in L2; lia|reflexivity]. }
  assert (E2 : stack (map g (firstn q columns)) = Ok (map g (firstn q columns))).
  { destruct (map g (firstn q columns)); [simpl in L1; lia|reflexivity]. }
  rewrite E1. cbn [bind]. rewrite E2. cbn [bind].
  apply gather_blocks with (E := generic_entry "gene" sb q columns rows).
  - lia.
  - rewrite length_app. unfold slice_rev. rewrite length_rev. lia.
  - intros i j Hi Hj. rewrite cat_gene_nth with (q := q) by assumption.
    unfold generic_entry, block_row.
    change ("gene" =? "gene")%string with true. cbv iota.
    destruct (Nat.ltb_spec i j) as [Hij|Hij].
    + rewrite nth_map_in with (dx := []) by (rewrite length_skipn; lia).
      rewrite nth_skipn. unfold g.
      replace (q + (j - i - 1)) with (q + (j - i) - 1) by lia.
      apply tab2_ext. intros r c _ _.
      now rewrite Toeplitz_entry_pure.
    + rewrite nth_map_in with (dx := []) by (rewrite length_firstn; lia).
      rewrite nth_firstn.
      replace (i - j <? q) with true by (symmetry; apply Nat.ltb_lt; lia).
      unfold g. apply tab2_ext. intros r c _ _.
      now rewrite Toeplitz_entry_pure.
Qed.

(** Generic blocks in a generic structure. *)
Lemma generic_BTTB_gene_gene_entries (q p : nat)
    (columns rs : list (list A)) (ci : bool) :
  2 <= q -> length columns = 2 * q - 1 -> length rs = 2 * q - 1 ->
  (forall col, In col columns -> length col = p) ->
  (forall row, In row rs -> length row + 1 = p) ->
  (if ci then BTTB_metadata "gene" "gene" (Z.of_nat q) columns (Some rs)
   else Ok tt) = Ok tt ->
  generic_BTTB "gene" "gene" (Z.of_nat q) columns (Some rs) ci =
  Ok (tab2 (q * p) (q * p) (fun x y =>
        generic_entry "gene" "gene" q columns (Some rs)
          (x / p) (y / p) (x mod p) (y mod p))).
Proof.
  intros Hq Lc Lr Hc Hr Hci.
  unfold generic_BTTB. rewrite Hci.
  cbn [bind String.eqb Ascii.eqb Bool.eqb].
  assert (Lh : length (hd [] columns) = p).
  { apply Hc. destruct columns; [simpl in Lc; lia|now left]. }
  rewrite Lh. cbv zeta. rewrite !slice_to_nat, !slice_from_nat.
  set (g := fun cr : list A * list A =>
         tab2 p p (Toeplitz_entry "gene" (fst cr) (snd cr))).
  assert (Hg : forall col row, In col columns -> In row rs ->
            fancy (slice_rev row ++ col)
              (outer_sum (arange 0 (Z.of_nat p) 1)
                 (arange (Z.of_nat p - 1) (-1) (-1))) = Ok (g (col, row))).
  { intros col row H1 H2. unfold g. cbn [fst snd].
    pose proof (Hc col H1) as H3. pose proof (Hr row H2) as H4.
    rewrite <- H3. apply Toeplitz_block_gene. lia. }
  rewrite mapM_ok with (g := g).
  2:{ intros [col row] Hin. cbn [fst snd]. apply Hg.
      - eapply In_firstn_in, in_combine_l, Hin.
      - eapply In_firstn_in, in_combine_r, Hin. }
  cbn [bind].
  rewrite mapM_ok with (g := g).
  2:{ intros [col row] Hin. cbn [fst snd]. apply Hg.
      - eapply In_skipn_in, in_combine_l, Hin.
      - eapply In_skipn_in, in_combine_r, Hin. }
  cbn [bind].
  set (front := map g (combine (firstn q columns) (firstn q rs))).
  set (back := map g (combine (skipn q columns) (skipn q rs))).
  assert (L1 : length front = q).
  { unfold front. rewrite length_map, length_combine, !length_firstn. lia. }
  assert (L2 : length back + 1 = q).
  { unfold back. rewrite length_map, length_combine, !length_skipn. lia. }
  assert (E1 : stack back = Ok back).
  { destruct back; [simpl in L2; lia|reflexivity]. }
  assert (E2 : stack front = Ok front).
  { destruct front; [simpl in L1; lia|reflexivity]. }
  rewrite E1. cbn [bind]. rewrite E2. cbn [bind].
  apply gather_blocks with (E := generic_entry "gene" "gene" q columns (Some rs)).
  - lia.
  - rewrite length_app. unfold slice_rev. rewrite length_rev. lia.
  - intros i j Hi Hj. rewrite cat_gene_nth with (q := q) by assumption.
    unfold generic_entry, block_row.
    change ("gene" =? "gene")%string with true. cbv iota.
    destruct (Nat.ltb_spec i j) as [Hij|Hij].
    + unfold back.
      rewrite nth_map_in with (dx := (@nil A, @nil A))
        by (rewrite length_combine, !length_skipn; lia).
      rewrite combine_nth by (rewrite !length_skipn; lia).
      rewrite !nth_skipn. unfold g. cbn [fst snd].
      replace (q + (j - i - 1)) with (q + (j - i) - 1) by lia.
      reflexivity.
    + unfold front.
      rewrite nth_map_in with (dx := (@nil A, @nil A))
        by (rewrite length_combine, !length_firstn; lia).
      rewrite combine_nth by (rewrite !length_firstn; lia).
      rewrite !nth_firstn.
      replace (i - j <? q) with true by (symmetry; apply Nat.ltb_lt; lia).
      reflexivity.
Qed.

End NineBTTBForms.

Lemma pure_or_gene s :
  In s ["gene"; "symm"; "skew"] -> s = "gene" \/ In s ["symm"; "skew"].
Proof. simpl. intuition. Qed.

Lemma pure_not_gene s : In s ["symm"; "skew"] -> (s =? "gene")%string = false.
Proof. simpl. intros [<-|[<-|[]]]; reflexivity. Qed.

Lemma generic_entry_pure {A : Type} `{Scalar A} ss sb q
    (columns : list (list A)) rows i j r c :
  In ss ["symm"; "skew"] -> In sb ["symm"; "skew"] ->
  generic_entry ss sb q columns rows i j r c = BTTB_entry ss sb columns i j r c.
Proof.
  intros Hs Hb. unfold generic_entry, BTTB_entry, block_row.
  rewrite (pure_not_gene Hs). cbv zeta. now rewrite Toeplitz_entry_pure.
Qed.

(** [generic_BTTB] on every valid table, entry by entry. *)
Lemma generic_BTTB_all_entries {A : Type} `{Scalar A} ss sb Q
    (columns : list (list A)) rows (ci : bool) :
  BTTB_metadata ss sb Q columns rows = Ok tt ->
  (ss = "gene" -> (2 <= Q)%Z) ->
  let q := Z.to_nat Q in
  let p := length (hd [] columns) in
  generic_BTTB ss sb Q columns rows ci =
  Ok (tab2 (q * p) (q * p) (fun x y =>
        generic_entry ss sb q columns rows (x / p) (y / p) (x mod p) (y mod p))).
Proof.
  intros Hv Hg q p.
  destruct (BTTB_metadata_ok _ _ _ _ _ Hv) as (Hs & Hb & HQ & Hrect & Hlen).
  assert (Hci : (if ci then BTTB_metadata ss sb Q columns rows else Ok tt) = Ok tt)
    by (destruct ci; [exact Hv|reflexivity]).
  assert (EQ : Q = Z.of_nat q) by (unfold q; lia).
  assert (Hq : 0 < q) by (unfold q; lia).
  assert (Hg' : ss = "gene" -> 2 <= q) by (intros E; specialize (Hg E); unfold q; lia).
  fold p in Hrect. clearbody q. subst Q. clear HQ Hg.
  destruct (pure_or_gene Hs) as [->|Hs']; destruct (pure_or_gene Hb) as [->|Hb'].
  - destruct (BTTB_metadata_rows _ _ _ _ Hv) as (rs & -> & Lr & Rr & Hr).
    change ("gene" =? "gene")%string with true in Hlen. cbv iota in Hlen.
    specialize (Hg' eq_refl).
    apply generic_BTTB_gene_gene_entries; try assumption; try lia.
    intros row Hrow. rewrite (Rr row Hrow). fold p in Hr. exact Hr.
  - change ("gene" =? "gene")%string with true in Hlen. cbv iota in Hlen.
    specialize (Hg' eq_refl).
    apply generic_BTTB_gene_pure_entries; try assumption; lia.
  - destruct (BTTB_metadata_rows _ _ _ _ Hv) as (rs & -> & Lr & Rr & Hr).
    rewrite (pure_not_gene Hs') in Hlen.
    apply generic_BTTB_pure_gene_entries; try assumption; try lia.
    intros row Hrow. rewrite (Rr row Hrow). fold p in Hr. exact Hr.
  - rewrite (pure_not_gene Hs') in Hlen.
    rewrite generic_BTTB_pure_entries with (p := p); try assumption; try lia.
    f_equal. apply tab2_ext. intros x y _ _. symmetry.
    now apply generic_entry_pure.
Qed.

Section NineSymmetries.
Context {A : Type} `{Scalar A}.

(** X1.  On every table that passes the validation, for each of the nine
    symmetry patterns (with at least two blocks per side when the
    structure is generic), [generic_BTTB] returns the square matrix of
    [nblocks * npoints_per_block] rows in which entry [(r, c)] of block
    [(i, j)] is read from the tables as follows.  The row of the tables is
    [|i - j|], or for a generic structure [i - j] below the block diagonal
    and [nblocks + (j - i) - 1] above it; the item is [columns[|r - c|]],
    or for generic blocks [columns[r - c]] on and below the diagonal and
    [rows[c - r - 1]] above it; a skew symmetry negates the entry above
    its diagonal. *)
Theorem generic_BTTB_nine_symmetries (ss sb : string) (nblocks : Z)
    (columns : list (list A)) (rows : option (list (list A)))
    (check_input : bool)
    (Hvalid : BTTB_metadata ss sb nblocks columns rows = Ok tt)
    (Hgene : ss = "gene" -> (2 <= nblocks)%Z) :
  let q := Z.to_nat nblocks in
  let p := length (hd [] columns) in
  exists T,
    generic_BTTB ss sb nblocks columns rows check_input = Ok T /\
    has_shape T (Z.of_nat (q * p)) (Z.of_nat (q * p)) = true /\
    forall i j r c, i < q -> j < q -> r < p -> c < p ->
      nth (j * p + c) (nth (i * p + r) T []) zero =
      generic_entry ss sb q columns rows i j r c.
Proof.
  intros q p. eexists. split; [now apply generic_BTTB_all_entries|].
  fold q p. split; [apply has_shape_tab2|].
  intros i j r c Hi Hj Hr Hc.
  apply (entry_of_blocks (generic_entry ss sb q columns rows)); assumption.
Qed.

(** A generic structure with a single block: the list of the blocks of
    the first block row is empty and [np.stack] raises. *)
Lemma gene_gene_one_block (columns : list (list A))
    (rows : option (list (list A))) (check_input : bool)
    (Hvalid : BTTB_metadata "gene" "gene" 1 columns rows = Ok tt) :
  generic_BTTB "gene" "gene" 1 columns rows check_input = Err ValueError.
Proof.
  destruct (BTTB_metadata_ok _ _ _ _ _ Hvalid) as (_ & _ & _ & Hrect & Hlen).
  assert (Hci : (if check_input then BTTB_metadata "gene" "gene" 1 columns rows
                 else Ok tt) = Ok tt)
    by (destruct check_input; [exact Hvalid|reflexivity]).
  change ("gene" =? "gene")%string with true in Hlen. cbv iota in Hlen.
  destruct columns as [|col [|col2 columns]]; [simpl in Hlen; lia| |simpl in Hlen; lia].
  destruct (BTTB_metadata_rows _ _ _ _ Hvalid) as (rs & -> & Lr & Rr & Hr).
  destruct rs as [|row [|row2 rs]]; [simpl in Lr; lia| |simpl in Lr; lia].
  unfold generic_BTTB. rewrite Hci.
  cbn [bind String.eqb Ascii.eqb Bool.eqb].
  change (slice_to [col] 1) with [col].
  change (slice_to [row] 1) with [row].
  change (slice_from [col] 1) with (@nil (list A)).
  change (slice_from [row] 1) with (@nil (list A)).
  cbn [combine mapM hd fst snd].
  rewrite Toeplitz_block_gene by (simpl in Hr; lia).
  reflexivity.
Qed.

Lemma gene_pure_one_block (sb : string) (columns : list (list A))
    (rows : option (list (list A))) (check_input : bool)
    (Hb : In sb ["symm"; "skew"])
    (Hvalid : BTTB_metadata "gene" sb 1 columns rows = Ok tt) :
  generic_BTTB "gene" sb 1 columns rows check_input = Err ValueError.
Proof.
  destruct (BTTB_metadata_ok _ _ _ _ _ Hvalid) as (_ & _ & _ & Hrect & Hlen).
  assert (Hci : (if check_input then BTTB_metadata "gene" sb 1 columns rows
                 else Ok tt) = Ok tt)
    by (destruct check_input; [exact Hvalid|reflexivity]).
  change ("gene" =? "gene")%string with true in Hlen. cbv iota in Hlen.
  destruct columns as [|col [|col2 columns]]; [simpl in Hlen; lia| |simpl in Hlen; lia].
  rewrite generic_BTTB_gene_pure by assumption. rewrite Hci. cbn [bind].
  change (slice_to [col] 1) with [col].
  change (slice_from [col] 1) with (@nil (list A)).
  cbn [mapM hd]. cbv zeta.
  rewrite Toeplitz_block by assumption.
  reflexivity.
Qed.

(** X2.  With a generic structure and a single block the table of first
    columns has one row, the list of blocks of the first block row is
    empty and [np.stack] raises: [generic_BTTB] raises ValueError on every
    such table that passes the validation, with the validation or
    without it. *)
Theorem generic_BTTB_gene_single_block (sb : string)
    (columns : list (list A)) (rows : option (list (list A)))
    (check_input : bool)
    (Hvalid : BTTB_metadata "gene" sb 1 columns rows = Ok tt) :
  generic_BTTB "gene" sb 1 columns rows check_input = Err ValueError.
Proof.
  destruct (BTTB_metadata_ok _ _ _ _ _ Hvalid) as (_ & Hb & _).
  destruct (pure_or_gene Hb) as [->|Hb'].
  - now apply gene_gene_one_block.
  - now apply gene_pure_one_block.
Qed.

Lemma block_row_shift ss q i j : block_row ss q (S i) (S j) = block_row ss q i j.
Proof.
  unfold block_row, dist. change (S i <? S j) with (i <? j).
  destruct (ss =? "gene")%string; destruct (i <? j); reflexivity || lia.
Qed.

Lemma Toeplitz_entry_shift sb (column row : list A) r c :
  Toeplitz_entry sb column row (S r) (S c) = Toeplitz_entry sb column row r c.
Proof.
  unfold Toeplitz_entry, dist. change (S r <? S c) with (r <? c).
  reflexivity.
Qed.

(** X3.  The matrix that [generic_BTTB] returns is block Toeplitz with
    Toeplitz blocks, for each of the nine symmetry patterns: an entry
    equals the entry one block down and one block to the right, and inside
    a block the entry one row down and one column to the right. *)
Theorem generic_BTTB_is_block_Toeplitz (ss sb : string) (nblocks : Z)
    (columns : list (list A)) (rows : option (list (list A)))
    (check_input : bool)
    (Hvalid : BTTB_metadata ss sb nblocks columns rows = Ok tt)
    (Hgene : ss = "gene" -> (2 <= nblocks)%Z) :
  let q := Z.to_nat nblocks in
  let p := length (hd [] columns) in
  exists T,
    generic_BTTB ss sb nblocks columns rows check_input = Ok T /\
    (forall i j r c, i + 1 < q -> j + 1 < q -> r < p -> c < p ->
       nth ((j + 1) * p + c) (nth ((i + 1) * p + r) T []) zero =
       nth (j * p + c) (nth (i * p + r) T []) zero) /\
    (forall i j r c, i < q -> j < q -> r + 1 < p -> c + 1 < p ->
       nth (j * p + (c + 1)) (nth (i * p + (r + 1)) T []) zero =
       nth (j * p + c) (nth (i * p + r) T []) zero).
Proof.
  intros q p. eexists. split; [now apply generic_BTTB_all_entries|].
  fold q p. split.
  - intros i j r c Hi Hj Hr Hc.
    rewrite !(entry_of_blocks (generic_entry ss sb q columns rows)) by lia.
    rewrite !Nat.add_1_r. unfold generic_entry.
    rewrite block_row_shift. reflexivity.
  - intros i j r c Hi Hj Hr Hc.
    rewrite !(entry_of_blocks (generic_entry ss sb q columns rows)) by lia.
    rewrite !Nat.add_1_r. unfold generic_entry.
    now rewrite Toeplitz_entry_shift.
Qed.

End NineSymmetries.

Lemma generic_BTTB_nine_symmetries_witness :
  exists T,
    generic_BTTB "gene" "gene" 2 [[1; 2]; [3; 4]; [5; 6]]%Z
      (Some [[7]; [8]; [9]]%Z) true = Ok T /\
    nth 3 (nth 0 T []) 0%Z = 9%Z /\ nth 0 (nth 3 T []) 0%Z = 4%Z.
Proof.
  destruct (@generic_BTTB_nine_symmetries Z Scalar_Z "gene" "gene" 2
              [[1; 2]; [3; 4]; [5; 6]]%Z (Some [[7]; [8]; [9]]%Z) true)
    as (T & E & _ & Hn).
  - reflexivity.
  - intros _. lia.
  - exists T. split; [exact E|]. split.
    + apply (Hn 0 1 0 1); simpl; lia.
    + apply (Hn 1 0 1 0); simpl; lia.
Defined.

Lemma generic_BTTB_gene_single_block_witness :
  generic_BTTB "gene" "symm" 1 [[2; 1]]%Z None true = Err ValueError.
Proof.
  apply (@generic_BTTB_gene_single_block Z Scalar_Z "symm" [[2; 1]]%Z None true).
  reflexivity.
Defined.

Lemma generic_BTTB_is_block_Toeplitz_witness :
  exists T,
    generic_BTTB "skew" "gene" 2 [[1; 2]; [3; 4]]%Z (Some [[7]; [8]]%Z) true
      = Ok T /\
    nth 3 (nth 3 T []) 0%Z = nth 2 (nth 2 T []) 0%Z.
Proof.
  destruct (@generic_BTTB_is_block_Toeplitz Z Scalar_Z "skew" "gene" 2
              [[1; 2]; [3; 4]]%Z (Some [[7]; [8]]%Z) true)
    as (T & E & _ & Hn).
  - reflexivity.
  - discriminate.
  - exists T. split; [exact E|].
    apply (Hn 1 1 0 0); simpl; lia.
Defined.

(** ** One symmetric matrix in the four layouts of the tables *)

Lemma is_array2_intro {A : Type} (x : list (list A)) p :
  (forall row, In row x -> length row = p) -> is_array2 x = Ok tt.
Proof.
  intros Lp. unfold is_array2. replace (forallb _ x) with true; [reflexivity|].
  symmetry. apply forallb_forall. intros row Hr. apply Nat.eqb_eq.
  rewrite (Lp row Hr). symmetry. apply Lp.
  destruct x; [destruct Hr|now left].
Qed.

Lemma In_str_in s l : In s l -> str_in s l = true.
Proof.
  intros Hs. unfold str_in. apply existsb_exists. exists s.
  split; [assumption|apply String.eqb_refl].
Qed.

(** Tables that pass [check.BTTB_metadata]. *)
Lemma BTTB_metadata_intro {A : Type} ss sb (q p : nat)
    (columns : list (list A)) rows :
  In ss ["gene"; "symm"; "skew"] -> In sb ["gene"; "symm"; "skew"] -> 0 < q ->
  (forall col, In col columns -> length col = p) ->
  length columns = (if (ss =? "gene")%string then 2 * q - 1 else q) ->
  (sb = "gene" -> exists rs, rows = Some rs /\ length rs = length columns /\
     forall row, In row rs -> length row + 1 = p) ->
  BTTB_metadata ss sb (Z.of_nat q) columns rows = Ok tt.
Proof.
  intros Hs Hb Hq Lp Lc Hr. unfold BTTB_metadata.
  rewrite (In_str_in _ _ Hs), (In_str_in _ _ Hb). cbn [negb].
  rewrite pos_check by assumption. cbn [bind].
  rewrite (is_array2_intro _ Lp). cbn [bind].
  replace (Z.of_nat (length columns) =? _)%Z with true.
  2:{ symmetry. apply Z.eqb_eq. rewrite Lc.
      destruct (ss =? "gene")%string; lia. }
  cbn [negb].
  destruct (String.eqb_spec sb "gene") as [E|E]; [|reflexivity].
  destruct (Hr E) as (rs & -> & Lr & Hrow).
  rewrite (@is_array2_intro _ rs (p - 1))
    by (intros row H1; specialize (Hrow row H1); lia).
  cbn [bind]. rewrite Lr, Nat.eqb_refl. cbn [negb].
  replace (length (hd [] rs) + 1 =? length (hd [] columns)) with true;
    [reflexivity|].
  symmetry. apply Nat.eqb_eq.
  destruct columns as [|c0 cs];
    [destruct (ss =? "gene")%string; simpl in Lc; lia|].
  destruct rs as [|r0 rs]; [simpl in Lr; lia|].
  simpl. rewrite (Hrow r0) by now left. symmetry. apply Lp. now left.
Qed.

Lemma nth_tl {A : Type} (x : list A) k d : nth k (tl x) d = nth (S k) x d.
Proof. destruct x; destruct k; reflexivity. Qed.

Section Layouts.
Context {A : Type} `{Scalar A}.

Lemma symm_entry (columns : list (list A)) rows q i j r c :
  generic_entry "symm" "symm" q columns rows i j r c =
  nth (dist r c) (nth (dist i j) columns []) zero.
Proof.
  unfold generic_entry, block_row, Toeplitz_entry, sgn.
  cbn [String.eqb Ascii.eqb Bool.eqb]. now rewrite !andb_false_r.
Qed.

Lemma gene_block_of_symm (column : list A) r c :
  Toeplitz_entry "gene" column (tl column) r c = nth (dist r c) column zero.
Proof.
  unfold Toeplitz_entry, dist. cbn [String.eqb Ascii.eqb Bool.eqb].
  destruct (Nat.ltb_spec r c); [|reflexivity].
  rewrite nth_tl. f_equal. lia.
Qed.

Lemma gene_row_of_symm {X : Type} (columns : list (list X)) q i j :
  length columns = q -> i < q -> j < q ->
  nth (block_row "gene" q i j) (columns ++ tl columns) [] =
  nth (dist i j) columns [].
Proof.
  intros Lc Hi Hj. unfold block_row, dist.
  cbn [String.eqb Ascii.eqb Bool.eqb].
  destruct (Nat.ltb_spec i j).
  - rewrite app_nth2 by lia. rewrite nth_tl. f_equal. lia.
  - now rewrite app_nth1 by lia.
Qed.

(** X4.  A symmetric block Toeplitz matrix with symmetric Toeplitz blocks
    can be handed to [generic_BTTB] in four layouts: as it is, with the
    first rows of its blocks spelled out (each column without its first
    item), with the blocks of its first block row spelled out (the table
    followed by the table without its first row), or with both.  With at
    least two blocks of at least one point, [generic_BTTB] returns the same
    matrix for the four. *)
Theorem generic_BTTB_layouts_agree (nblocks : Z) (columns : list (list A))
    (check_input : bool)
    (Hvalid : BTTB_metadata "symm" "symm" nblocks columns None = Ok tt)
    (HQ : (2 <= nblocks)%Z) (HP : 0 < length (hd [] columns)) :
  let both := columns ++ tl columns in
  exists T,
    generic_BTTB "symm" "symm" nblocks columns None check_input = Ok T /\
    generic_BTTB "symm" "gene" nblocks columns (Some (map (@tl A) columns))
      check_input = Ok T /\
    generic_BTTB "gene" "symm" nblocks both None check_input = Ok T /\
    generic_BTTB "gene" "gene" nblocks both (Some (map (@tl A) both))
      check_input = Ok T.
Proof.
  intros both.
  destruct (BTTB_metadata_ok _ _ _ _ _ Hvalid) as (_ & _ & _ & Hrect & Hlen).
  change ("symm" =? "gene")%string with false in Hlen. cbv iota in Hlen.
  set (q := Z.to_nat nblocks). set (p := length (hd [] columns)) in *.
  assert (EQ : nblocks = Z.of_nat q) by (unfold q; lia).
  assert (Lc : length columns = q) by lia.
  assert (Hq : 2 <= q) by lia.
  assert (Hh : hd [] both = hd [] columns).
  { unfold both. destruct columns; [simpl in Lc; lia|reflexivity]. }
  assert (Lb : length both = 2 * q - 1).
  { unfold both. rewrite length_app. destruct columns; simpl in *; lia. }
  assert (Hboth : forall col, In col both -> length col = p).
  { intros col Hc. apply in_app_or in Hc. destruct Hc as [Hc|Hc]; [auto|].
    apply Hrect. destruct columns; [destruct Hc|now right]. }
  assert (Htl : forall (l : list (list A)) row,
            (forall col, In col l -> length col = p) ->
            In row (map (@tl A) l) -> length row + 1 = p).
  { intros l row Hl Hrow. apply in_map_iff in Hrow.
    destruct Hrow as [col [<- Hcol]]. specialize (Hl col Hcol).
    destruct col; simpl in *; lia. }
  assert (V1 : BTTB_metadata "symm" "gene" nblocks columns
                 (Some (map (@tl A) columns)) = Ok tt).
  { rewrite EQ. apply BTTB_metadata_intro with (p := p); simpl; auto; try lia.
    intros _. eexists. split; [reflexivity|]. split; [apply length_map|].
    intros row. now apply Htl. }
  assert (V2 : BTTB_metadata "gene" "symm" nblocks both None = Ok tt).
  { rewrite EQ. apply BTTB_metadata_intro with (p := p); simpl; auto; try lia.
    discriminate. }
  assert (V3 : BTTB_metadata "gene" "gene" nblocks both
                 (Some (map (@tl A) both)) = Ok tt).
  { rewrite EQ. apply BTTB_metadata_intro with (p := p); simpl; auto; try lia.
    intros _. eexists. split; [reflexivity|]. split; [apply length_map|].
    intros row. now apply Htl. }
  exists (tab2 (q * p) (q * p) (fun x y =>
            nth (dist (x mod p) (y mod p))
                (nth (dist (x / p) (y / p)) columns []) zero)).
  assert (Hdiv : forall x, x < q * p -> x / p < q)
    by (intros x Hx; apply Nat.Div0.div_lt_upper_bound; lia).
  repeat split.
  - rewrite generic_BTTB_all_entries by (assumption || discriminate).
    fold q p. f_equal. apply tab2_ext. intros x y _ _. apply symm_entry.
  - rewrite generic_BTTB_all_entries by (assumption || discriminate).
    fold q p. f_equal. apply tab2_ext. intros x y Hx Hy.
    unfold generic_entry, block_row, sgn.
    cbn [String.eqb Ascii.eqb Bool.eqb]. rewrite andb_false_r.
    rewrite nth_map_in with (dx := [])
      by (unfold dist; pose proof (Hdiv x Hx); pose proof (Hdiv y Hy);
          destruct (x / p <? y / p); lia).
    apply gene_block_of_symm.
  - rewrite generic_BTTB_all_entries by (assumption || (intros _; exact HQ)).
    rewrite Hh. fold q p. f_equal. apply tab2_ext. intros x y Hx Hy.
    unfold generic_entry. cbv zeta. unfold both.
    rewrite gene_row_of_symm by auto.
    unfold Toeplitz_entry, sgn. cbn [String.eqb Ascii.eqb Bool.eqb].
    now rewrite !andb_false_r.
  - rewrite generic_BTTB_all_entries by (assumption || (intros _; exact HQ)).
    rewrite Hh. fold q p. f_equal. apply tab2_ext. intros x y Hx Hy.
    unfold generic_entry. cbv zeta.
    assert (Hk : block_row "gene" q (x / p) (y / p) < length both).
    { unfold block_row. cbn [String.eqb Ascii.eqb Bool.eqb].
      pose proof (Hdiv x Hx). pose proof (Hdiv y Hy).
      destruct (x / p <? y / p); lia. }
    rewrite nth_map_in with (dx := []) by exact Hk.
    unfold both. rewrite gene_row_of_symm by auto.
    unfold sgn. cbn [String.eqb Ascii.eqb Bool.eqb]. rewrite andb_false_r.
    apply gene_block_of_symm.
Qed.

End Layouts.

Lemma generic_BTTB_layouts_agree_witness :
  exists T,
    generic_BTTB "symm" "symm" 2 [[2; 1]; [5; 7]]%Z None true = Ok T /\
    generic_BTTB "gene" "gene" 2 [[2; 1]; [5; 7]; [5; 7]]%Z
      (Some [[1]; [7]; [7]]%Z) true = Ok T.
Proof.
  destruct (@generic_BTTB_layouts_agree Z Scalar_Z 2 [[2; 1]; [5; 7]]%Z true)
    as (T & E1 & _ & _ & E4).
  - reflexivity.
  - lia.
  - simpl. lia.
  - exists T. split; [exact E1|exact E4].
Defined.

(** ** The circulant embedding of a generic Toeplitz matrix *)

Section CirculantGeneric.
Context {A : Type} `{Scalar A}.

Lemma Toeplitz_metadata_gene (column row : list A) :
  length row + 1 = length column ->
  Toeplitz_metadata "gene" column (Some row) = Ok tt.
Proof.
  intros Hl. unfold Toeplitz_metadata.
  cbn [str_in existsb String.eqb Ascii.eqb Bool.eqb orb negb].
  destruct (Nat.eqb_spec (length column) 0); [lia|].
  now rewrite (proj2 (Nat.eqb_eq _ _) Hl).
Qed.

(** X5.  For a generic Toeplitz matrix given by its first column of
    length [P] and its first row without the diagonal term (length
    [P - 1]), [Circulant_from_Toeplitz] with [full=False] returns
    [C = [column, 0, reversed row]] of length [2 P]; with [full=True] it
    returns the [2 P] x [2 P] circulant matrix with entry
    [(i, j) = C[(i - j) mod 2 P]].  Its top-left [P] x [P] quadrant is the
    Toeplitz matrix itself ([column[i - j]] on and below the diagonal,
    [row[j - i - 1]] above it), the matrix that [generic_BTTB] builds from
    the same column and row as a single generic block. *)
Theorem Circulant_from_Toeplitz_generic (column row : list A)
    (check_input : bool)
    (Hlen : length row + 1 = length column) :
  let P := length column in
  let C := column ++ [zero] ++ rev row in
  exists M T,
    Circulant_from_Toeplitz "gene" column (Some row) false check_input = Ok C /\
    Circulant_from_Toeplitz "gene" column (Some row) true check_input = Ok M /\
    length C = 2 * P /\
    has_shape M (2 * Z.of_nat P) (2 * Z.of_nat P) = true /\
    (forall i j, i < 2 * P -> j < 2 * P ->
       nth j (nth i M []) zero =
       nth (Z.to_nat ((Z.of_nat i - Z.of_nat j) mod (2 * Z.of_nat P))) C zero) /\
    (forall i j, i < P -> j < P ->
       nth j (nth i M []) zero =
       if i <? j then nth (j - i - 1) row zero else nth (i - j) column zero) /\
    generic_BTTB "symm" "gene" 1 [column] (Some [row]) check_input = Ok T /\
    map (firstn P) (firstn P M) = T.
Proof.
  intros P C.
  assert (HP : 0 < P) by (subst P; lia).
  assert (LC : length C = 2 * P).
  { unfold C. rewrite !length_app, length_rev. simpl. subst P. lia. }
  assert (Hci : (if check_input
                 then Toeplitz_metadata "gene" column (Some row)
                 else Ok tt) = Ok tt)
    by (destruct check_input; [now apply Toeplitz_metadata_gene|reflexivity]).
  assert (EC : hstack1 [column; [zero]; slice_rev row] = C).
  { unfold hstack1, slice_rev, C. cbn [concat]. now rewrite app_nil_r. }
  assert (Etop : forall i j, i < P -> j < P ->
            nth (cmod (2 * P) i j) C zero =
            if i <? j then nth (j - i - 1) row zero else nth (i - j) column zero).
  { intros i j Hi Hj. rewrite cmod_cases by assumption. unfold C.
    destruct (Nat.ltb_spec i j) as [Hij|Hij].
    - rewrite app_nth2 by (fold P; lia). fold P.
      rewrite app_nth2 by (simpl; lia). simpl length.
      rewrite rev_nth by lia. f_equal. lia.
    - now rewrite app_nth1 by (fold P; lia). }
  exists (tab2 (2 * P) (2 * P) (fun i j => nth (cmod (2 * P) i j) C zero)).
  exists (tab2 (1 * P) (1 * P) (fun x y =>
            generic_entry "symm" "gene" 1 [column] (Some [row])
              (x / P) (y / P) (x mod P) (y mod P))).
  split; [|split; [|split; [exact LC|split; [|split; [|split; [|split]]]]]].
  - unfold Circulant_from_Toeplitz. rewrite Hci.
    cbn [bind String.eqb Ascii.eqb Bool.eqb]. now rewrite EC.
  - unfold Circulant_from_Toeplitz. rewrite Hci.
    cbn [bind String.eqb Ascii.eqb Bool.eqb]. rewrite EC. fold P.
    replace (2 * Z.of_nat P)%Z with (Z.of_nat (2 * P)) by lia.
    replace (-2 * Z.of_nat P)%Z with (- Z.of_nat (2 * P))%Z by lia.
    rewrite arange_up, arange_neg, outer_sum_tab.
    rewrite fancy_tab2 with (d := zero) by (intros; lia).
    rewrite LC. f_equal.
  - replace (2 * Z.of_nat P)%Z with (Z.of_nat (2 * P)) by lia.
    apply has_shape_tab2.
  - intros i j Hi Hj. rewrite tab2_nth by assumption.
    unfold cmod. do 3 f_equal. lia.
  - intros i j Hi Hj. rewrite tab2_nth by lia. now apply Etop.
  - change 1%Z with (Z.of_nat 1).
    assert (Hv : BTTB_metadata "symm" "gene" (Z.of_nat 1) [column] (Some [row])
                 = Ok tt).
    { apply BTTB_metadata_intro with (p := P); simpl; auto.
      - intros col [<-|[]]. reflexivity.
      - intros _. eexists. split; [reflexivity|]. split; [reflexivity|].
        intros r [<-|[]]. exact Hlen. }
    rewrite generic_BTTB_all_entries by (exact Hv || discriminate).
    rewrite Nat2Z.id. reflexivity.
  - rewrite firstn_tab2 by lia. rewrite Nat.mul_1_l.
    apply tab2_ext. intros i j Hi Hj. rewrite Etop by assumption.
    rewrite !Nat.div_small, !Nat.mod_small by assumption.
    unfold generic_entry, block_row, Toeplitz_entry, sgn.
    cbn [String.eqb Ascii.eqb Bool.eqb dist Nat.ltb Nat.leb Nat.sub nth andb].
    reflexivity.
Qed.

End CirculantGeneric.

Lemma Circulant_from_Toeplitz_generic_witness :
  Circulant_from_Toeplitz "gene" [2; 1; 3]%Z (Some [7; 8]%Z) false true =
    Ok [2; 1; 3; 0; 8; 7]%Z /\
  exists M,
    Circulant_from_Toeplitz "gene" [2; 1; 3]%Z (Some [7; 8]%Z) true true = Ok M /\
    map (firstn 3) (firstn 3 M) = [[2; 7; 8]; [1; 2; 7]; [3; 1; 2]]%Z.
Proof.
  destruct (@Circulant_from_Toeplitz_generic Z Scalar_Z [2; 1; 3]%Z [7; 8]%Z true)
    as (M & T & E1 & E2 & _ & _ & _ & _ & E3 & E4).
  - reflexivity.
  - split; [exact E1|]. exists M. split; [exact E2|].
    cbn [length] in E4. rewrite E4. vm_compute in E3. now injection E3 as <-.
Defined.

(** ** [BCCB_from_BTTB] on arbitrary input *)

Section BCCBNever.
Context {A : Type} `{Scalar A}.

Lemma positional_too_few (args : list (@pyarg A)) :
  length args < 3 -> Circulant_from_Toeplitz_positional args = Err TypeError.
Proof.
  intros Hl. unfold Circulant_from_Toeplitz_positional, bind_positional.
  replace (length args <? 3) with true by (symmetry; now apply Nat.ltb_lt).
  reflexivity.
Qed.

(** X6.  [BCCB_from_BTTB] returns no matrix at all, whatever the
    arguments and with the validation or without it.  On a non-empty
    table the first call of [Circulant_from_Toeplitz] misses required
    arguments; on an empty table either the validation or the shape tests
    fail, [np.stack] gets an empty list, or [C_blocks] is never assigned. *)
Theorem BCCB_from_BTTB_never_returns (symmetry_structure symmetry_blocks : string)
    (nblocks : Z) (columns : list (list A)) (rows : option (list (list A)))
    (full check_input : bool) :
  exists e,
    BCCB_from_BTTB symmetry_structure symmetry_blocks nblocks columns rows
      full check_input = Err e.
Proof.
  unfold BCCB_from_BTTB.
  destruct (if check_input then _ else _) as [[]|e]; [|now exists e].
  cbn [bind]. destruct rows as [rs|].
  - destruct (is_array2 rs) as [[]|e]; [|now exists e]. cbn [bind].
    destruct (Nat.eqb_spec (length columns) (length rs)) as [E1|E1];
      [|now exists ValueError].
    cbn [negb].
    destruct (Nat.eqb_spec (length (hd [] columns)) (length (hd [] rs) + 1))
      as [E2|E2]; [|now exists ValueError].
    cbn [negb].
    destruct columns as [|c cs]; [simpl in E2; lia|].
    destruct rs as [|r rs]; [simpl in E1; lia|].
    cbn [combine]. rewrite mapM_first_err with (e := TypeError).
    + now exists TypeError.
    + apply positional_too_few. simpl. lia.
  - destruct columns as [|c cs].
    + cbn [mapM bind]. unfold C_blocks_of. cbn [length].
      destruct (Z.of_nat 0 =? nblocks)%Z; cbn [bind stack];
        [now exists ValueError|].
      destruct (Z.of_nat 0 =? 2 * nblocks - 1)%Z.
      * replace (slice_to (@nil (list (list A))) nblocks) with (@nil (list (list A))).
        -- now exists ValueError.
        -- unfold slice_to. destruct (nblocks <? 0)%Z; now rewrite firstn_nil.
      * now exists UnboundLocalError.
    + rewrite mapM_first_err with (e := TypeError).
      * now exists TypeError.
      * apply positional_too_few. simpl. lia.
Qed.

End BCCBNever.

(** ** [embedding_BCCB_first_column]: what it accepts and what it builds *)

Section EmbeddingMore.
Context {A : Type} `{Scalar A}.

(** X7.  [embedding_BCCB_first_column] returns a dictionary exactly when
    [nblocks] and [npoints_per_block] are positive, [b0] has
    [nblocks * npoints_per_block] items and the symmetry is one of the
    four pure ones; otherwise it raises ValueError and no other
    exception.  In particular it rejects the five symmetries with a
    generic part that [eigenvalues_BCCB] accepts. *)
Theorem embedding_BCCB_first_column_accepts (b0 : list A)
    (nblocks npoints_per_block : Z) (symmetry : string) :
  ((exists BCCB0,
      embedding_BCCB_first_column b0 nblocks npoints_per_block symmetry
        = Ok BCCB0) <->
   ((0 < nblocks)%Z /\ (0 < npoints_per_block)%Z /\
    Z.of_nat (length b0) = (nblocks * npoints_per_block)%Z /\
    In symmetry ["skew-skew"; "skew-symm"; "symm-skew"; "symm-symm"])) /\
  (forall e,
     embedding_BCCB_first_column b0 nblocks npoints_per_block symmetry = Err e ->
     e = ValueError) /\
  (forall s, In s ["gene-symm"; "symm-gene"; "gene-skew"; "skew-gene"; "gene-gene"] ->
     embedding_BCCB_first_column b0 nblocks npoints_per_block s = Err ValueError).
Proof.
  assert (Hcases : forall s,
    ((0 < nblocks)%Z /\ (0 < npoints_per_block)%Z /\
     Z.of_nat (length b0) = (nblocks * npoints_per_block)%Z /\
     In s ["skew-skew"; "skew-symm"; "symm-skew"; "symm-symm"]) /\
    (exists BCCB0,
       embedding_BCCB_first_column b0 nblocks npoints_per_block s = Ok BCCB0) \/
    ~ ((0 < nblocks)%Z /\ (0 < npoints_per_block)%Z /\
       Z.of_nat (length b0) = (nblocks * npoints_per_block)%Z /\
       In s ["skew-skew"; "skew-symm"; "symm-skew"; "symm-symm"]) /\
    embedding_BCCB_first_column b0 nblocks npoints_per_block s = Err ValueError).
  { intros s.
    destruct (Z.ltb_spec 0 nblocks) as [HQ|HQ].
    2:{ right. split; [lia|]. unfold embedding_BCCB_first_column, is_integer_positive.
        now rewrite (proj2 (Z.ltb_ge 0 nblocks)). }
    destruct (Z.ltb_spec 0 npoints_per_block) as [HP|HP].
    2:{ right. split; [lia|]. unfold embedding_BCCB_first_column, is_integer_positive.
        rewrite (proj2 (Z.ltb_lt 0 nblocks)) by assumption.
        now rewrite (proj2 (Z.ltb_ge 0 npoints_per_block)). }
    destruct (Z.eqb_spec (Z.of_nat (length b0)) (nblocks * npoints_per_block))
      as [Hl|Hl].
    2:{ right. split; [tauto|]. unfold embedding_BCCB_first_column, is_integer_positive.
        rewrite (proj2 (Z.ltb_lt 0 nblocks)) by assumption.
        rewrite (proj2 (Z.ltb_lt 0 npoints_per_block)) by assumption.
        cbn [bind].
        now rewrite (proj2 (Z.eqb_neq _ _) Hl). }
    destruct (str_in s ["skew-skew"; "skew-symm"; "symm-skew"; "symm-symm"])
      eqn:Es.
    2:{ right. split.
        - intros (_ & _ & _ & Hin). apply In_str_in in Hin. congruence.
        - unfold embedding_BCCB_first_column, is_integer_positive.
          rewrite (proj2 (Z.ltb_lt 0 nblocks)) by assumption.
          rewrite (proj2 (Z.ltb_lt 0 npoints_per_block)) by assumption.
          cbn [bind]. rewrite (proj2 (Z.eqb_eq _ _) Hl). cbn [negb].
          now rewrite Es. }
    left. apply str_in_cases in Es. split; [tauto|].
    destruct (four_symmetries_split Es) as (ss & sb & Hss & Hsb & ->).
    destruct (sizes_as_nat _ HQ HP Hl) as (EQ & EP & Hq & Hp & Hlen).
    rewrite EQ, EP. rewrite embedding_value by assumption. now eexists. }
  split; [|split].
  - destruct (Hcases symmetry) as [[Hv Hok]|[Hn He]].
    + tauto.
    + split; [|tauto]. intros [B EB]. congruence.
  - intros e He. destruct (Hcases symmetry) as [[_ [B EB]]|[_ E]]; congruence.
  - intros s Hs. destruct (Hcases s) as [[(_ & _ & _ & Hin) _]|[_ E]]; [|exact E].
    simpl in Hs, Hin.
    destruct Hs as [<-|[<-|[<-|[<-|[<-|[]]]]]];
      destruct Hin as [E|[E|[E|[E|[]]]]]; discriminate.
Qed.

Lemma piece_middle ss sb (parts : list (list A)) (p : nat) pc :
  0 < p -> (forall part, In part parts -> length part = p) ->
  In pc (pieces ss sb parts p) -> nth p pc zero = zero.
Proof.
  intros Hp Lp Hpc. unfold pieces in Hpc.
  apply in_app_or in Hpc. destruct Hpc as [Hpc|Hpc].
  - apply in_map_iff in Hpc. destruct Hpc as [bi [<- Hbi]].
    unfold fwd_piece, hstack1. cbn [concat].
    rewrite app_nth2 by (rewrite (Lp bi Hbi); lia).
    rewrite (Lp bi Hbi), Nat.sub_diag. reflexivity.
  - apply in_app_or in Hpc. destruct Hpc as [[<-|[]]|Hpc].
    + unfold zeros. apply nth_repeat.
    + apply in_map_iff in Hpc. destruct Hpc as [bi [<- Hbi]].
      assert (Lb : length bi = p).
      { apply Lp. unfold slice_rev_to0 in Hbi. apply in_rev in Hbi.
        destruct parts; [destruct Hbi|now right]. }
      assert (Ll : length (lead_sign ss bi) = p).
      { unfold lead_sign, neg1. destruct (ss =? "skew")%string;
          now rewrite ?length_map. }
      unfold bwd_piece, hstack1. cbn [concat].
      rewrite app_nth2 by lia. rewrite Ll, Nat.sub_diag. reflexivity.
Qed.

(** X8.  The first column that [embedding_BCCB_first_column] returns
    keeps [b0]: read as [2 nblocks] pieces of [2 npoints_per_block]
    items, the first [npoints_per_block] items of piece [i < nblocks] are
    block [i] of [b0].  Item [npoints_per_block] of every piece is zero,
    and piece [nblocks] is zero throughout. *)
Theorem embedding_keeps_b0 (b0 : list A) (nblocks npoints_per_block : Z)
    (symmetry : string)
    (HQ : (0 < nblocks)%Z) (HP : (0 < npoints_per_block)%Z)
    (Hsize : Z.of_nat (length b0) = (nblocks * npoints_per_block)%Z)
    (Hsym : In symmetry ["skew-skew"; "skew-symm"; "symm-skew"; "symm-symm"]) :
  let q := Z.to_nat nblocks in
  let p := Z.to_nat npoints_per_block in
  exists BCCB0,
    embedding_BCCB_first_column b0 nblocks npoints_per_block symmetry
      = Ok BCCB0 /\
    (forall i r, i < q -> r < p ->
       nth (i * (2 * p) + r) (BCCB0.first_column BCCB0) zero =
       nth (i * p + r) b0 zero) /\
    (forall a, a < 2 * q ->
       nth (a * (2 * p) + p) (BCCB0.first_column BCCB0) zero = zero) /\
    (forall b, b < 2 * p ->
       nth (q * (2 * p) + b) (BCCB0.first_column BCCB0) zero = zero).
Proof.
  intros q p.
  destruct (four_symmetries_split Hsym) as (ss & sb & Hss & Hsb & ->).
  destruct (sizes_as_nat _ HQ HP Hsize) as (EQ & EP & Hq & Hp & Hlen).
  fold q in EQ, Hq, Hlen. fold p in EP, Hp, Hlen.
  rewrite EQ, EP. rewrite embedding_value by assumption.
  eexists. split; [reflexivity|]. cbn [BCCB0.first_column].
  set (parts := chunks q p b0).
  assert (Lparts : length parts = q) by apply chunks_length.
  assert (Hparts : forall part, In part parts -> length part = p)
    by (intros part; now apply chunks_part_length).
  assert (Hu : forall pc, In pc (pieces ss sb parts p) -> length pc = 2 * p)
    by (intros pc; now apply pieces_uniform).
  assert (Lpcs : length (pieces ss sb parts p) = 2 * q)
    by now apply pieces_length.
  split; [|split].
  - intros i r Hi Hr.
    rewrite nth_concat_uniform with (w := 2 * p) by (assumption || lia).
    unfold pieces. rewrite app_nth1 by (rewrite length_map; lia).
    rewrite nth_map_in with (dx := []) by lia.
    assert (Li : length (nth i parts []) = p) by (apply Hparts, nth_In; lia).
    unfold fwd_piece, hstack1. cbn [concat].
    rewrite app_nth1 by lia.
    unfold parts. rewrite chunks_as_tab2 with (d := zero) by assumption.
    now rewrite tab2_nth.
  - intros a Ha.
    rewrite nth_concat_uniform with (w := 2 * p) by (assumption || lia).
    apply piece_middle with (ss := ss) (sb := sb) (parts := parts);
      try assumption.
    apply nth_In. lia.
  - intros b Hb.
    rewrite nth_concat_uniform with (w := 2 * p) by (assumption || lia).
    unfold pieces. rewrite app_nth2 by (rewrite length_map; lia).
    rewrite length_map, Lparts, Nat.sub_diag. cbn [app nth].
    unfold zeros. apply nth_repeat.
Qed.

End EmbeddingMore.

Lemma embedding_keeps_b0_witness :
  exists BCCB0,
    embedding_BCCB_first_column [2; 1; 5; 7]%Z 2 2 "skew-symm" = Ok BCCB0 /\
    nth 4 (BCCB0.first_column BCCB0) 0%Z = 5%Z /\
    nth 6 (BCCB0.first_column BCCB0) 0%Z = 0%Z.
Proof.
  destruct (@embedding_keeps_b0 Z Scalar_Z [2; 1; 5; 7]%Z 2 2 "skew-symm")
    as (B & E & H1 & H2 & _).
  - lia.
  - lia.
  - reflexivity.
  - simpl. auto.
  - exists B. split; [exact E|]. split.
    + apply (H1 1 0); simpl; lia.
    + apply (H2 1); simpl; lia.
Defined.

Lemma slice_rev_to0_map {X Y : Type} (f : X -> Y) (l : list X) :
  slice_rev_to0 (map f l) = map f (slice_rev_to0 l).
Proof.
  unfold slice_rev_to0. rewrite map_rev. f_equal. now destruct l.
Qed.

Lemma bwd_as_fwd ss sb (bi : list R) :
  In ss ["symm"; "skew"] -> In sb ["symm"; "skew"] ->
  bwd_piece ss sb bi =
  if (ss =? "skew")%string then neg1 (fwd_piece sb bi) else fwd_piece sb bi.
Proof.
  intros Hs Hb. simpl in Hs, Hb.
  destruct Hs as [<-|[<-|[]]]; destruct Hb as [<-|[<-|[]]];
    unfold bwd_piece, fwd_piece, lead_sign, third_sign, reflect1, hstack1, neg1;
    cbn [String.eqb Ascii.eqb Bool.eqb xorb concat neg zero Scalar_R];
    rewrite ?app_nil_r, ?map_app; cbn [map]; rewrite ?Ropp_0; try reflexivity.
  do 2 f_equal. rewrite map_map. rewrite <- (map_id (slice_rev_to0 bi)) at 1.
  apply map_ext. intros x. now rewrite Ropp_involutive.
Qed.

(** X9.  The first column of the BCCB is made of the circulant embeddings
    of the blocks: with [circs] the first columns that
    [Circulant_from_Toeplitz] (with [full=False] and the symmetry of the
    blocks) returns for the blocks of [b0], it is the concatenation of
    [circs], of [2 npoints_per_block] zeros and of [circs] without its
    first item in reversed order, negated when the structure is skew. *)
Theorem embedding_blocks_are_circulants (ss sb : string) (b0 : list R)
    (nblocks npoints_per_block : Z)
    (Hss : In ss ["symm"; "skew"]) (Hsb : In sb ["symm"; "skew"])
    (HQ : (0 < nblocks)%Z) (HP : (0 < npoints_per_block)%Z)
    (Hsize : Z.of_nat (length b0) = (nblocks * npoints_per_block)%Z) :
  exists (parts circs : list (list R)) BCCB0,
    split b0 nblocks = Ok parts /\
    mapM (fun bi => Circulant_from_Toeplitz sb bi None false true) parts
      = Ok circs /\
    embedding_BCCB_first_column b0 nblocks npoints_per_block
      (symmetry_name ss sb) = Ok BCCB0 /\
    BCCB0.first_column BCCB0 =
      concat (circs ++ [zeros (2 * npoints_per_block)] ++
              (if (ss =? "skew")%string
               then neg2 (slice_rev_to0 circs) else slice_rev_to0 circs)).
Proof.
  destruct (sizes_as_nat _ HQ HP Hsize) as (EQ & EP & Hq & Hp & Hlen).
  set (q := Z.to_nat nblocks) in *. set (p := Z.to_nat npoints_per_block) in *.
  rewrite EQ, EP.
  exists (chunks q p b0), (map (fwd_piece sb) (chunks q p b0)). eexists.
  split; [now apply split_ok|].
  split.
  { apply mapM_ok. intros bi Hbi. apply Circulant_first_column; [assumption|].
    apply chunks_part_length in Hbi; [|assumption].
    destruct bi; [simpl in Hbi; lia|discriminate]. }
  split; [now apply embedding_value|].
  cbn [BCCB0.first_column]. unfold pieces. do 3 f_equal.
  rewrite slice_rev_to0_map.
  destruct (ss =? "skew")%string eqn:Es.
  - unfold neg2. rewrite map_map. apply map_ext. intros bi.
    rewrite bwd_as_fwd by assumption. now rewrite Es.
  - apply map_ext. intros bi. rewrite bwd_as_fwd by assumption. now rewrite Es.
Qed.

Lemma embedding_blocks_are_circulants_witness :
  exists (parts circs : list (list R)) BCCB0,
    split [2; 1; 5; 7]%R 2 = Ok parts /\
    mapM (fun bi => Circulant_from_Toeplitz "symm" bi None false true) parts
      = Ok circs /\
    embedding_BCCB_first_column [2; 1; 5; 7]%R 2 2 (symmetry_name "skew" "symm")
      = Ok BCCB0 /\
    BCCB0.first_column BCCB0 =
      concat (circs ++ [zeros (2 * 2)] ++ neg2 (slice_rev_to0 circs)).
Proof.
  apply (@embedding_blocks_are_circulants "skew" "symm" [2; 1; 5; 7]%R 2 2);
    simpl; auto; lia.
Defined.

(** ** [eigenvalues_BCCB]: what it accepts, the two orderings, the zero
    frequency *)

Lemma eigenvalues_BCCB_cases (BCCB0 : BCCB0.t R) (ordering : string) :
  let valid :=
    (0 < BCCB0.nblocks BCCB0)%Z /\ (0 < BCCB0.npoints_per_block BCCB0)%Z /\
    Z.of_nat (length (BCCB0.first_column BCCB0)) =
      (4 * BCCB0.nblocks BCCB0 * BCCB0.npoints_per_block BCCB0)%Z /\
    In (BCCB0.symmetry BCCB0) nine_symmetries /\
    In ordering ["row"; "column"] in
  (valid /\ exists BCCB_eigen, eigenvalues_BCCB BCCB0 ordering = Ok BCCB_eigen) \/
  (~ valid /\ eigenvalues_BCCB BCCB0 ordering = Err ValueError).
Proof.
  destruct BCCB0 as [c0 Q P sym].
  cbn [BCCB0.first_column BCCB0.nblocks BCCB0.npoints_per_block BCCB0.symmetry].
  cbv zeta.
  destruct (Z.ltb_spec 0 Q) as [HQ|HQ].
  2:{ right. split; [lia|]. unfold eigenvalues_BCCB, is_integer_positive.
      cbn [BCCB0.nblocks]. now rewrite (proj2 (Z.ltb_ge 0 Q)). }
  destruct (Z.ltb_spec 0 P) as [HP|HP].
  2:{ right. split; [lia|]. unfold eigenvalues_BCCB, is_integer_positive.
      cbn [BCCB0.nblocks BCCB0.npoints_per_block].
      rewrite (proj2 (Z.ltb_lt 0 Q)) by assumption.
      now rewrite (proj2 (Z.ltb_ge 0 P)). }
  destruct (Z.eqb_spec (Z.of_nat (length c0)) (4 * Q * P)) as [Hl|Hl].
  2:{ right. split; [tauto|]. unfold eigenvalues_BCCB, is_integer_positive.
      cbn [BCCB0.first_column BCCB0.nblocks BCCB0.npoints_per_block].
      rewrite (proj2 (Z.ltb_lt 0 Q)) by assumption.
      rewrite (proj2 (Z.ltb_lt 0 P)) by assumption. cbn [bind].
      now rewrite (proj2 (Z.eqb_neq _ _) Hl). }
  destruct (str_in sym nine_symmetries) eqn:Es.
  2:{ right. split.
      - intros (_ & _ & _ & Hin & _). apply In_str_in in Hin. congruence.
      - unfold eigenvalues_BCCB, is_integer_positive.
        cbn [BCCB0.first_column BCCB0.nblocks BCCB0.npoints_per_block
             BCCB0.symmetry].
        rewrite (proj2 (Z.ltb_lt 0 Q)) by assumption.
        rewrite (proj2 (Z.ltb_lt 0 P)) by assumption. cbn [bind].
        rewrite (proj2 (Z.eqb_eq _ _) Hl). cbn [negb].
        fold nine_symmetries. now rewrite Es. }
  destruct (str_in ordering ["row"; "column"]) eqn:Eo.
  2:{ right. split.
      - intros (_ & _ & _ & _ & Hin). apply In_str_in in Hin. congruence.
      - unfold eigenvalues_BCCB, is_integer_positive.
        cbn [BCCB0.first_column BCCB0.nblocks BCCB0.npoints_per_block
             BCCB0.symmetry].
        rewrite (proj2 (Z.ltb_lt 0 Q)) by assumption.
        rewrite (proj2 (Z.ltb_lt 0 P)) by assumption. cbn [bind].
        rewrite (proj2 (Z.eqb_eq _ _) Hl). cbn [negb].
        fold nine_symmetries. rewrite Es. cbn [negb]. now rewrite Eo. }
  left. apply str_in_cases in Eo.
  split; [repeat split; auto using str_in_cases|].
  assert (EQ : Q = Z.of_nat (Z.to_nat Q)) by lia.
  assert (EP : P = Z.of_nat (Z.to_nat P)) by lia.
  rewrite EQ, EP. simpl in Eo. destruct Eo as [<-|[<-|[]]].
  - rewrite eigenvalues_BCCB_row by (assumption || lia). now eexists.
  - rewrite eigenvalues_BCCB_column by (assumption || lia). now eexists.
Qed.

Lemma keys_eqb_eq keys names : keys_eqb keys names = true -> keys = names.
Proof.
  induction keys as [|k keys IH] in names |- *; destruct names as [|n names];
    cbn [keys_eqb]; try discriminate; [reflexivity|].
  intros E. apply andb_prop in E. destruct E as [E1 E2].
  apply String.eqb_eq in E1. subst n. f_equal. now apply IH.
Qed.

(** A call that raises ValueError returns nothing, and raises nothing
    else. *)
Lemma refused {T : Type} (P : Prop) :
  ~ P ->
  ((exists x : T, Err ValueError = Ok x) <-> P) /\
  (forall e, @Err T ValueError = Err e -> e = ValueError).
Proof.
  intros Hn. split; [split; [intros [x Hx]; discriminate|tauto]|].
  intros e He. congruence.
Qed.

Lemma is_integer_cases (x : pyvalue) :
  (exists n, x = PyInt n /\ (0 < n)%Z /\ is_integer x = Ok n) \/
  ((forall n, x = PyInt n -> ~ (0 < n)%Z) /\ is_integer x = Err ValueError).
Proof.
  destruct x as [n| | |]; try (right; split; [discriminate|reflexivity]).
  unfold is_integer, is_integer_positive.
  destruct (Z.ltb_spec 0 n) as [Hn|Hn].
  - left. exists n. repeat split. assumption.
  - right. split; [|reflexivity]. intros m E. injection E as <-. lia.
Qed.

(** X10.  [eigenvalues_BCCB] returns a dictionary exactly when its
    argument is a dictionary that holds, under the keys [first_column],
    [nblocks], [npoints_per_block] and [symmetry] in this order and no
    other key, a 1D array, two positive integers and a string, the array
    has [4 * nblocks * npoints_per_block] items, the symmetry is one of
    the nine and the ordering is ["row"] or ["column"]; otherwise, also
    for an argument that is no dictionary or has its keys in another
    order, it raises ValueError and no other exception. *)
Theorem eigenvalues_BCCB_accepts (BCCB0 : pyobject) (ordering : string) :
  ((exists BCCB_eigen,
      Dynamic.eigenvalues_BCCB BCCB0 ordering = Ok BCCB_eigen) <->
   (exists c0 Q P sym,
      BCCB0 = PyDict [("first_column", PyArray1 c0); ("nblocks", PyInt Q);
                      ("npoints_per_block", PyInt P);
                      ("symmetry", PyStr sym)] /\
      (0 < Q)%Z /\ (0 < P)%Z /\
      Z.of_nat (length c0) = (4 * Q * P)%Z /\
      In sym nine_symmetries /\
      In ordering ["row"; "column"])) /\
  (forall e, Dynamic.eigenvalues_BCCB BCCB0 ordering = Err e ->
     e = ValueError).
Proof.
  destruct BCCB0 as [items|x]; cbn [Dynamic.eigenvalues_BCCB].
  2:{ apply refused. intros (c0 & Q & P & sym & E & _). discriminate. }
  destruct (keys_eqb (map fst items) _) eqn:Ek; cbn [negb].
  2:{ apply refused. intros (c0 & Q & P & sym & E & _).
      injection E as ->. discriminate. }
  apply keys_eqb_eq in Ek.
  destruct items as [|[k1 v1] [|[k2 v2] [|[k3 v3] [|[k4 v4] [|]]]]];
    try discriminate Ek.
  injection Ek as -> -> -> ->. cbn [map snd].
  destruct v1 as [| |c0|]; cbn [is_array1 bind];
    try (apply refused; intros (c0' & Q & P & sym & E & _); discriminate).
  destruct (is_integer_cases v2) as [(Q & -> & HQ & ->)|[Hn ->]]; cbn [bind].
  2:{ apply refused. intros (c0' & Q & P & sym & E & HQ & _).
      injection E as _ -> _ _. now apply (Hn Q). }
  destruct (is_integer_cases v3) as [(P & -> & HP & ->)|[Hn ->]]; cbn [bind].
  2:{ apply refused. intros (c0' & Q' & P & sym & E & _ & HP & _).
      injection E as _ _ -> _. now apply (Hn P). }
  destruct v4 as [|sym| |];
    try (apply refused; intros (c0' & Q' & P' & sym & E & _); discriminate).
  destruct (eigenvalues_BCCB_cases (BCCB0.make c0 Q P sym) ordering)
    as [[Hv [E HE]]|[Hn HE]];
    cbn [BCCB0.first_column BCCB0.nblocks BCCB0.npoints_per_block
         BCCB0.symmetry] in *; rewrite HE.
  - split; [|intros e He; discriminate].
    split; [intros _|intros _; now exists E].
    exists c0, Q, P, sym. split; [reflexivity|exact Hv].
  - apply refused. intros (c0' & Q' & P' & sym' & E & Hv).
    injection E as <- <- <- <-. now apply Hn.
Qed.

Lemma dft2_transpose M N (x : nat -> nat -> C) k1 k2 :
  dft2 N M (fun b a => x a b) k2 k1 = dft2 M N x k1 k2.
Proof.
  unfold dft2. replace (N * M) with (M * N) by lia. f_equal.
  rewrite Csum_swap. apply Csum_ext. intros n1 _. apply Csum_ext. intros n2 _.
  do 2 f_equal. unfold phase, Rdiv. ring.
Qed.

(** The eigenvalues under the ["column"] ordering, from the grid of the
    ["row"] ordering. *)
Lemma eigenvalues_BCCB_column_alt c0 (q p : nat) sym :
  0 < q -> 0 < p -> length c0 = 4 * q * p ->
  str_in sym nine_symmetries = true ->
  eigenvalues_BCCB (BCCB0.make c0 (Z.of_nat q) (Z.of_nat p) sym) "column" =
  Ok (BCCB_eigen.make
        (tab2 (2 * p) (2 * q) (fun k2 k1 =>
           Cscale (sqrt (INR (2 * q * (2 * p))))
                  (dft2 (2 * q) (2 * p) (G_of c0 (2 * p)) k1 k2)))
        "column" (Z.of_nat q) (Z.of_nat p) sym).
Proof.
  intros Hq Hp L Hs. rewrite eigenvalues_BCCB_column by assumption.
  do 2 f_equal. apply tab2_ext. intros k2 k1 _ _.
  replace (2 * p * (2 * q)) with (2 * q * (2 * p)) by lia.
  f_equal. apply dft2_transpose.
Qed.

(** X11.  The two orderings of [eigenvalues_BCCB] hold the same
    eigenvalues: the matrix returned for ["column"] is the transpose of the
    matrix returned for ["row"]. *)
Theorem eigenvalues_BCCB_orderings (c0 : list R) (nblocks npoints_per_block : Z)
    (symmetry : string)
    (HQ : (0 < nblocks)%Z) (HP : (0 < npoints_per_block)%Z)
    (Hlen : Z.of_nat (length c0) = (4 * nblocks * npoints_per_block)%Z)
    (Hsym : In symmetry nine_symmetries) :
  exists Lrow Lcol,
    eigenvalues_BCCB (BCCB0.make c0 nblocks npoints_per_block symmetry) "row" =
      Ok (BCCB_eigen.make Lrow "row" nblocks npoints_per_block symmetry) /\
    eigenvalues_BCCB (BCCB0.make c0 nblocks npoints_per_block symmetry) "column" =
      Ok (BCCB_eigen.make Lcol "column" nblocks npoints_per_block symmetry) /\
    Lcol = transpose (Z.to_nat (2 * npoints_per_block)) Lrow C0 /\
    forall k1 k2, k1 < Z.to_nat (2 * nblocks) ->
      k2 < Z.to_nat (2 * npoints_per_block) ->
      entry Lcol k2 k1 = entry Lrow k1 k2.
Proof.
  set (q := Z.to_nat nblocks). set (p := Z.to_nat npoints_per_block).
  assert (EQ : nblocks = Z.of_nat q) by (unfold q; lia).
  assert (EP : npoints_per_block = Z.of_nat p) by (unfold p; lia).
  assert (Hq : 0 < q) by (unfold q; lia).
  assert (Hp : 0 < p) by (unfold p; lia).
  assert (Hs : str_in symmetry nine_symmetries = true) by now apply In_str_in.
  rewrite EQ, EP.
  replace (Z.to_nat (2 * Z.of_nat q)) with (2 * q) by lia.
  replace (Z.to_nat (2 * Z.of_nat p)) with (2 * p) by lia.
  eexists. eexists.
  split; [apply eigenvalues_BCCB_row; assumption || lia|].
  split; [apply eigenvalues_BCCB_column_alt; assumption || lia|].
  split.
  - now rewrite transpose_tab2.
  - intros k1 k2 H1 H2. now rewrite !entry_tab2 by assumption.
Qed.

Lemma eigenvalues_BCCB_orderings_witness :
  exists Lrow Lcol,
    eigenvalues_BCCB (BCCB0.make [3; 0; 1; 0; 0; 0; 2; 0]%R 1 2 "gene-gene") "row" =
      Ok (BCCB_eigen.make Lrow "row" 1 2 "gene-gene") /\
    eigenvalues_BCCB (BCCB0.make [3; 0; 1; 0; 0; 0; 2; 0]%R 1 2 "gene-gene")
      "column" = Ok (BCCB_eigen.make Lcol "column" 1 2 "gene-gene") /\
    Lcol = transpose 4 Lrow C0.
Proof.
  destruct (@eigenvalues_BCCB_orderings [3; 0; 1; 0; 0; 0; 2; 0]%R 1 2 "gene-gene")
    as (Lrow & Lcol & E1 & E2 & E3 & _).
  - lia.
  - lia.
  - reflexivity.
  - unfold nine_symmetries. simpl. tauto.
  - exists Lrow, Lcol. split; [exact E1|]. split; [exact E2|exact E3].
Defined.

Lemma Rsum_nth (l : list R) :
  Rsum (seq 0 (length l)) (fun i => nth i l 0%R) = Rsum l (fun x => x).
Proof.
  transitivity (Rsum (tab (length l) (fun i => nth i l 0%R)) (fun x => x)).
  - unfold tab. now rewrite Rsum_map.
  - now rewrite <- list_as_tab.
Qed.

Lemma zero_frequency c0 (q p : nat) :
  0 < q -> 0 < p -> length c0 = 4 * q * p ->
  Cscale (sqrt (INR (2 * q * (2 * p))))
    (dft2 (2 * q) (2 * p) (G_of c0 (2 * p)) 0 0) =
  RtoC (Rsum c0 (fun x => x)).
Proof.
  intros Hq Hp L. rewrite unscaled_dft2 by lia.
  rewrite Csum_ext with (g := fun n1 =>
    RtoC (Rsum (seq 0 (2 * p)) (fun n2 => nth (n1 * (2 * p) + n2) c0 0%R))).
  2:{ intros n1 _. rewrite <- Csum_real. apply Csum_ext. intros n2 _.
      replace (phase (2 * q) (2 * p) 0 0 n1 n2) with 0%R
        by (unfold phase, Rdiv; simpl INR; ring).
      rewrite Ropp_0, cis_0. unfold G_of. ring. }
  rewrite Csum_real. f_equal.
  rewrite <- (Rsum_blocks (2 * q) (2 * p) (fun i => nth i c0 0%R)).
  rewrite <- Rsum_nth. f_equal. f_equal. lia.
Qed.

(** X12.  Under both orderings the eigenvalue in position (0, 0) is the
    sum of the items of the first column. *)
Theorem eigenvalues_BCCB_zero_frequency (c0 : list R)
    (nblocks npoints_per_block : Z) (symmetry ordering : string)
    (HQ : (0 < nblocks)%Z) (HP : (0 < npoints_per_block)%Z)
    (Hlen : Z.of_nat (length c0) = (4 * nblocks * npoints_per_block)%Z)
    (Hsym : In symmetry nine_symmetries)
    (Hord : In ordering ["row"; "column"]) :
  exists L,
    eigenvalues_BCCB (BCCB0.make c0 nblocks npoints_per_block symmetry) ordering =
      Ok (BCCB_eigen.make L ordering nblocks npoints_per_block symmetry) /\
    entry L 0 0 = RtoC (Rsum c0 (fun x => x)).
Proof.
  set (q := Z.to_nat nblocks). set (p := Z.to_nat npoints_per_block).
  assert (EQ : nblocks = Z.of_nat q) by (unfold q; lia).
  assert (EP : npoints_per_block = Z.of_nat p) by (unfold p; lia).
  assert (Hq : 0 < q) by (unfold q; lia).
  assert (Hp : 0 < p) by (unfold p; lia).
  assert (Hs : str_in symmetry nine_symmetries = true) by now apply In_str_in.
  assert (L0 : length c0 = 4 * q * p) by lia.
  rewrite EQ, EP. simpl in Hord. destruct Hord as [<-|[<-|[]]].
  - eexists. split; [now apply eigenvalues_BCCB_row|].
    rewrite entry_tab2 by lia. now apply zero_frequency.
  - eexists. split; [now apply eigenvalues_BCCB_column_alt|].
    rewrite entry_tab2 by lia. now apply zero_frequency.
Qed.

Lemma eigenvalues_BCCB_zero_frequency_witness :
  exists L,
    eigenvalues_BCCB (BCCB0.make [3; 0; 1; 0]%R 1 1 "symm-symm") "column" =
      Ok (BCCB_eigen.make L "column" 1 1 "symm-symm") /\
    entry L 0 0 = RtoC (Rsum [3; 0; 1; 0]%R (fun x => x)).
Proof.
  apply (@eigenvalues_BCCB_zero_frequency [3; 0; 1; 0]%R 1 1 "symm-symm" "column").
  - lia.
  - lia.
  - reflexivity.
  - unfold nine_symmetries. simpl. tauto.
  - simpl. tauto.
Defined.

(** ** [product_BCCB_vector]: circular convolution, validation, linearity *)

(** X13.  For every first column of [4 * nblocks * npoints_per_block]
    items, whatever its symmetry tag among the nine and under both
    orderings, [product_BCCB_vector] applied to the eigenvalues that
    [eigenvalues_BCCB] returns gives the 2D circular convolution of the
    first column with the vector, restricted to the first quadrant:
    reading both on their grids, item [(i, r)] of the result is the sum
    over [(j, c)] of [v[j, c] * c0[(i - j) mod 2 nblocks,
    (r - c) mod 2 npoints_per_block]]. *)
Theorem product_is_circular_convolution (c0 v : list R)
    (nblocks npoints_per_block : Z) (symmetry ordering : string)
    (HQ : (0 < nblocks)%Z) (HP : (0 < npoints_per_block)%Z)
    (Hc0 : Z.of_nat (length c0) = (4 * nblocks * npoints_per_block)%Z)
    (Hv : Z.of_nat (length v) = (nblocks * npoints_per_block)%Z)
    (Hsym : In symmetry nine_symmetries)
    (Hord : In ordering ["row"; "column"]) :
  let q := Z.to_nat nblocks in
  let p := Z.to_nat npoints_per_block in
  exists BCCB_eigen w,
    eigenvalues_BCCB (BCCB0.make c0 nblocks npoints_per_block symmetry) ordering
      = Ok BCCB_eigen /\
    product_BCCB_vector BCCB_eigen v true = Ok w /\
    length w = q * p /\
    forall i r, i < q -> r < p ->
      nth (i * p + r) w 0%R =
      Rsum (seq 0 q) (fun j => Rsum (seq 0 p) (fun c =>
        (nth (j * p + c) v 0 *
         nth (Z.to_nat ((Z.of_nat i - Z.of_nat j) mod Z.of_nat (2 * q)) * (2 * p)
              + Z.to_nat ((Z.of_nat r - Z.of_nat c) mod Z.of_nat (2 * p)))
             c0 0)%R)).
Proof.
  intros q p.
  assert (EQ : nblocks = Z.of_nat q) by (unfold q; lia).
  assert (EP : npoints_per_block = Z.of_nat p) by (unfold p; lia).
  assert (Hq : 0 < q) by (unfold q; lia).
  assert (Hp : 0 < p) by (unfold p; lia).
  assert (Hs : str_in symmetry nine_symmetries = true) by now apply In_str_in.
  assert (L0 : length c0 = 4 * q * p) by lia.
  assert (Lv : length v = q * p) by lia.
  rewrite EQ, EP.
  assert (E : (e <- eigenvalues_BCCB
                      (BCCB0.make c0 (Z.of_nat q) (Z.of_nat p) symmetry) ordering ;;
               product_BCCB_vector e v true) = Ok (circ_product c0 v q p)).
  { simpl in Hord. destruct Hord as [<-|[<-|[]]];
      [now apply fast_product_row|now apply fast_product_column]. }
  apply bind_Ok_inv in E. destruct E as (e & E1 & E2).
  exists e, (circ_product c0 v q p).
  split; [exact E1|]. split; [exact E2|].
  split; [apply tab_length|].
  intros i r Hi Hr. unfold circ_product.
  rewrite tab_nth by now apply block_index_lt.
  destruct (divmod_block i Hr) as [-> ->]. reflexivity.
Qed.

Lemma product_is_circular_convolution_witness :
  exists BCCB_eigen w,
    eigenvalues_BCCB (BCCB0.make [3; 0; 1; 0]%R 1 1 "gene-gene") "row"
      = Ok BCCB_eigen /\
    product_BCCB_vector BCCB_eigen [2]%R true = Ok w /\
    length w = 1.
Proof.
  destruct (@product_is_circular_convolution [3; 0; 1; 0]%R [2]%R 1 1
              "gene-gene" "row") as (e & w & E1 & E2 & E3 & _).
  - lia.
  - lia.
  - reflexivity.
  - reflexivity.
  - unfold nine_symmetries. simpl. tauto.
  - simpl. tauto.
  - exists e, w. split; [exact E1|]. split; [exact E2|exact E3].
Defined.

Lemma has_shape_as_tab2 {A : Type} (M : list (list A)) (m n : nat) d :
  has_shape M (Z.of_nat m) (Z.of_nat n) = true ->
  M = tab2 m n (fun i j => nth j (nth i M []) d).
Proof.
  unfold has_shape. intros Hs. apply andb_true_iff in Hs.
  destruct Hs as [H1 H2]. apply Z.eqb_eq in H1. rewrite forallb_forall in H2.
  unfold tab2. apply tab_eq_nth with (d := []); [lia|].
  intros i Hi. apply tab_eq_nth with (d := d); [|reflexivity].
  assert (Hin : In (nth i M []) M) by (apply nth_In; lia).
  specialize (H2 _ Hin). apply Z.eqb_eq in H2. lia.
Qed.

Lemma product_BCCB_vector_cases (BCCB_eigen : BCCB_eigen.t) (v : list R) :
  let L := BCCB_eigen.eigenvalues BCCB_eigen in
  let ordering := BCCB_eigen.ordering BCCB_eigen in
  let Q := BCCB_eigen.nblocks BCCB_eigen in
  let P := BCCB_eigen.npoints_per_block BCCB_eigen in
  let valid :=
    In ordering ["row"; "column"] /\ (0 < Q)%Z /\ (0 < P)%Z /\
    has_shape L (if (ordering =? "row")%string then 2 * Q else 2 * P)%Z
                (if (ordering =? "row")%string then 2 * P else 2 * Q)%Z = true /\
    Z.of_nat (length v) = (Q * P)%Z in
  (valid /\ exists w, product_BCCB_vector BCCB_eigen v true = Ok w /\
                      Z.of_nat (length w) = (Q * P)%Z) \/
  (~ valid /\ product_BCCB_vector BCCB_eigen v true = Err ValueError).
Proof.
  destruct BCCB_eigen as [L ordering Q P sym].
  cbn [BCCB_eigen.eigenvalues BCCB_eigen.ordering BCCB_eigen.nblocks
       BCCB_eigen.npoints_per_block]. cbv zeta.
  destruct (str_in ordering ["row"; "column"]) eqn:Eo.
  2:{ right. split.
      - intros (Hin & _). apply In_str_in in Hin. congruence.
      - unfold product_BCCB_vector.
        cbn [BCCB_eigen.eigenvalues BCCB_eigen.ordering BCCB_eigen.nblocks
             BCCB_eigen.npoints_per_block].
        now rewrite Eo. }
  apply str_in_cases in Eo.
  assert (Ho : exists b, (ordering =? "row")%string = b /\
                         ordering = if b then "row" else "column").
  { simpl in Eo. destruct Eo as [<-|[<-|[]]]; [now exists true|now exists false]. }
  destruct Ho as (b & Eb & Ho). rewrite Eb.
  assert (Es : str_in ordering ["row"; "column"] = true) by now apply In_str_in.
  destruct (Z.ltb_spec 0 Q) as [HQ|HQ].
  2:{ right. split; [lia|]. unfold product_BCCB_vector, is_integer_positive.
      cbn [BCCB_eigen.eigenvalues BCCB_eigen.ordering BCCB_eigen.nblocks
           BCCB_eigen.npoints_per_block].
      rewrite Es. cbn [negb]. now rewrite (proj2 (Z.ltb_ge 0 Q)). }
  destruct (Z.ltb_spec 0 P) as [HP|HP].
  2:{ right. split; [lia|]. unfold product_BCCB_vector, is_integer_positive.
      cbn [BCCB_eigen.eigenvalues BCCB_eigen.ordering BCCB_eigen.nblocks
           BCCB_eigen.npoints_per_block].
      rewrite Es. cbn [negb]. rewrite (proj2 (Z.ltb_lt 0 Q)) by assumption.
      now rewrite (proj2 (Z.ltb_ge 0 P)). }
  destruct (has_shape L (if b then 2 * Q else 2 * P)%Z
              (if b then 2 * P else 2 * Q)%Z) eqn:Eh.
  2:{ right. split; [intros (_ & _ & _ & Hh & _); congruence|].
      unfold product_BCCB_vector, is_integer_positive.
      cbn [BCCB_eigen.eigenvalues BCCB_eigen.ordering BCCB_eigen.nblocks
           BCCB_eigen.npoints_per_block].
      rewrite Es. cbn [negb]. rewrite (proj2 (Z.ltb_lt 0 Q)) by assumption.
      rewrite (proj2 (Z.ltb_lt 0 P)) by assumption. cbn [bind].
      rewrite Eb. destruct b; now rewrite Eh. }
  destruct (Z.eqb_spec (Z.of_nat (length v)) (Q * P)) as [Hv|Hv].
  2:{ right. split; [tauto|].
      unfold product_BCCB_vector, is_integer_positive.
      cbn [BCCB_eigen.eigenvalues BCCB_eigen.ordering BCCB_eigen.nblocks
           BCCB_eigen.npoints_per_block].
      rewrite Es. cbn [negb]. rewrite (proj2 (Z.ltb_lt 0 Q)) by assumption.
      rewrite (proj2 (Z.ltb_lt 0 P)) by assumption. cbn [bind].
      rewrite Eb. destruct b; rewrite Eh; cbn [bind];
        now rewrite (proj2 (Z.eqb_neq _ _) Hv). }
  left. split; [tauto|].
  set (q := Z.to_nat Q). set (p := Z.to_nat P).
  assert (EQ : Q = Z.of_nat q) by (unfold q; lia).
  assert (EP : P = Z.of_nat p) by (unfold p; lia).
  assert (Hq : 0 < q) by (unfold q; lia).
  assert (Hp : 0 < p) by (unfold p; lia).
  assert (Lv : length v = q * p) by lia.
  rewrite EQ, EP in Eh |- *. rewrite Ho. destruct b.
  - replace (2 * Z.of_nat q)%Z with (Z.of_nat (2 * q)) in Eh by lia.
    replace (2 * Z.of_nat p)%Z with (Z.of_nat (2 * p)) in Eh by lia.
    rewrite (@has_shape_as_tab2 _ L _ _ C0 Eh).
    rewrite product_BCCB_vector_row by assumption.
    eexists. split; [reflexivity|]. rewrite tab_length. lia.
  - replace (2 * Z.of_nat q)%Z with (Z.of_nat (2 * q)) in Eh by lia.
    replace (2 * Z.of_nat p)%Z with (Z.of_nat (2 * p)) in Eh by lia.
    rewrite (@has_shape_as_tab2 _ L _ _ C0 Eh).
    rewrite product_BCCB_vector_column by assumption.
    eexists. split; [reflexivity|]. rewrite tab_length. lia.
Qed.

Lemma refused_vector {T : Type} (P : Prop) (n : nat) (len : T -> nat) :
  ~ P ->
  ((exists w : T, Err ValueError = Ok w) <-> P) /\
  (forall w : T, Err ValueError = Ok w -> len w = n) /\
  (forall e, @Err T ValueError = Err e -> e = ValueError).
Proof.
  intros Hn. split; [split; [intros [x Hx]; discriminate|tauto]|].
  split; [intros w Hw; discriminate|intros e He; congruence].
Qed.

(** X14.  With the validation, [product_BCCB_vector] returns a vector
    exactly when its first argument is a dictionary that holds, under the
    keys [eigenvalues], [ordering], [nblocks], [npoints_per_block] and
    [symmetry] in this order and no other key, a 2D array, a string, two
    positive integers and any value, the ordering is ["row"] or
    ["column"], the array has shape [(2 nblocks, 2 npoints_per_block)]
    for ["row"] and [(2 npoints_per_block, 2 nblocks)] for ["column"],
    and [v] has [nblocks * npoints_per_block] items; the vector returned
    has as many items as [v].  Otherwise, also for an argument that is no
    dictionary or has its keys in another order, it raises ValueError and
    no other exception. *)
Theorem product_BCCB_vector_accepts (BCCB_eigen : pyobject) (v : list R) :
  ((exists w, Dynamic.product_BCCB_vector BCCB_eigen v true = Ok w) <->
   (exists L ordering Q P symmetry,
      BCCB_eigen = PyDict [("eigenvalues", PyArray2 L);
                           ("ordering", PyStr ordering);
                           ("nblocks", PyInt Q);
                           ("npoints_per_block", PyInt P);
                           ("symmetry", symmetry)] /\
      In ordering ["row"; "column"] /\ (0 < Q)%Z /\ (0 < P)%Z /\
      has_shape L (if (ordering =? "row")%string then 2 * Q else 2 * P)%Z
                  (if (ordering =? "row")%string then 2 * P else 2 * Q)%Z
        = true /\
      Z.of_nat (length v) = (Q * P)%Z)) /\
  (forall w, Dynamic.product_BCCB_vector BCCB_eigen v true = Ok w ->
     length w = length v) /\
  (forall e, Dynamic.product_BCCB_vector BCCB_eigen v true = Err e ->
     e = ValueError).
Proof.
  destruct BCCB_eigen as [items|x]; cbn [Dynamic.product_BCCB_vector].
  2:{ apply refused_vector. intros (L & o & Q & P & sy & E & _). discriminate. }
  destruct (keys_eqb (map fst items) _) eqn:Ek; cbn [negb].
  2:{ apply refused_vector. intros (L & o & Q & P & sy & E & _).
      injection E as ->. discriminate. }
  apply keys_eqb_eq in Ek.
  destruct items as [|[k1 v1] [|[k2 v2] [|[k3 v3] [|[k4 v4] [|[k5 v5] [|]]]]]];
    try discriminate Ek.
  injection Ek as -> -> -> -> ->. cbn [map snd].
  destruct v2 as [|o| |];
    try (apply refused_vector; intros (L & o' & Q & P & sy & E & _);
         discriminate).
  destruct (str_in o ["row"; "column"]) eqn:Eo; cbn [negb].
  2:{ apply refused_vector. intros (L & o' & Q & P & sy & E & Hin & _).
      injection E as _ <- _ _ _. apply In_str_in in Hin. congruence. }
  destruct (is_integer_cases v3) as [(Q & -> & HQ & ->)|[Hn ->]]; cbn [bind].
  2:{ apply refused_vector. intros (L & o' & Q & P & sy & E & _ & HQ & _).
      injection E as _ _ -> _ _. now apply (Hn Q). }
  destruct (is_integer_cases v4) as [(P & -> & HP & ->)|[Hn ->]]; cbn [bind].
  2:{ apply refused_vector. intros (L & o' & Q' & P & sy & E & _ & _ & HP & _).
      injection E as _ _ _ -> _. now apply (Hn P). }
  destruct v1 as [| | |L];
    try (apply refused_vector; intros (L' & o' & Q' & P' & sy & E & _);
         discriminate).
  set (s := match v5 with PyStr s => s | _ => "" end).
  destruct (product_BCCB_vector_cases (BCCB_eigen.make L o Q P s) v)
    as [[Hv (w & Hw & Lw)]|[Hn He]];
    cbn [BCCB_eigen.eigenvalues BCCB_eigen.ordering BCCB_eigen.nblocks
         BCCB_eigen.npoints_per_block] in *.
  - rewrite Hw. split; [|split].
    + split; [intros _|intros _; now exists w].
      exists L, o, Q, P, v5. split; [reflexivity|exact Hv].
    + intros w' Hw'. injection Hw' as <-.
      destruct Hv as (_ & _ & _ & _ & Lv). lia.
    + intros e He. discriminate.
  - rewrite He. apply refused_vector.
    intros (L' & o' & Q' & P' & sy & E & Hv).
    injection E as <- <- <- <- _. now apply Hn.
Qed.

(** On the dictionaries the code builds, the two functions are the
    functions on the records. *)
Lemma eigenvalues_BCCB_on_record (B : BCCB0.t R) (ordering : string) :
  Dynamic.eigenvalues_BCCB
    (PyDict [("first_column", PyArray1 (BCCB0.first_column B));
             ("nblocks", PyInt (BCCB0.nblocks B));
             ("npoints_per_block", PyInt (BCCB0.npoints_per_block B));
             ("symmetry", PyStr (BCCB0.symmetry B))]) ordering =
  eigenvalues_BCCB B ordering.
Proof.
  destruct B as [c0 Q P sym].
  cbn [Dynamic.eigenvalues_BCCB map fst snd keys_eqb String.eqb Ascii.eqb
       Bool.eqb andb negb is_array1 bind BCCB0.first_column BCCB0.nblocks
       BCCB0.npoints_per_block BCCB0.symmetry].
  unfold is_integer, eigenvalues_BCCB, is_integer_positive.
  cbn [BCCB0.first_column BCCB0.nblocks BCCB0.npoints_per_block
       BCCB0.symmetry].
  destruct (0 <? Q)%Z eqn:EQ; [|reflexivity]. cbn [bind].
  destruct (0 <? P)%Z eqn:EP; [|reflexivity]. cbn [bind].
  now rewrite EQ, EP.
Qed.

Lemma product_BCCB_vector_on_record (E : BCCB_eigen.t) (v : list R)
    (check_input : bool) :
  Dynamic.product_BCCB_vector
    (PyDict [("eigenvalues", PyArray2 (BCCB_eigen.eigenvalues E));
             ("ordering", PyStr (BCCB_eigen.ordering E));
             ("nblocks", PyInt (BCCB_eigen.nblocks E));
             ("npoints_per_block", PyInt (BCCB_eigen.npoints_per_block E));
             ("symmetry", PyStr (BCCB_eigen.symmetry E))]) v check_input =
  product_BCCB_vector E v check_input.
Proof.
  destruct E as [L o Q P sym]. destruct check_input; [|reflexivity].
  cbn [Dynamic.product_BCCB_vector map fst snd keys_eqb String.eqb Ascii.eqb
       Bool.eqb andb negb BCCB_eigen.eigenvalues BCCB_eigen.ordering
       BCCB_eigen.nblocks BCCB_eigen.npoints_per_block BCCB_eigen.symmetry].
  unfold is_integer, product_BCCB_vector, is_integer_positive.
  cbn [BCCB_eigen.eigenvalues BCCB_eigen.ordering BCCB_eigen.nblocks
       BCCB_eigen.npoints_per_block].
  destruct (str_in o ["row"; "column"]) eqn:Eo; [|reflexivity]. cbn [negb].
  destruct (0 <? Q)%Z eqn:EQ; [|reflexivity]. cbn [bind].
  destruct (0 <? P)%Z eqn:EP; [|reflexivity]. cbn [bind].
  rewrite ?Eo, ?EQ, ?EP. reflexivity.
Qed.

Lemma Csum2_linear {I J : Type} (l1 : list I) (l2 : list J) s
    (x y w : I -> J -> C) :
  Csum l1 (fun a => Csum l2 (fun b =>
    Cmul (Cadd (Cscale s (x a b)) (y a b)) (w a b))) =
  Cadd (Cscale s (Csum l1 (fun a => Csum l2 (fun b => Cmul (x a b) (w a b)))))
       (Csum l1 (fun a => Csum l2 (fun b => Cmul (y a b) (w a b)))).
Proof.
  rewrite Cscale_mul, Csum_mul_l, <- Csum_add. apply Csum_ext. intros a _.
  rewrite Csum_mul_l, <- Csum_add. apply Csum_ext. intros b _.
  rewrite Cscale_mul. ring.
Qed.

Lemma dft2_linear M N s (x y : nat -> nat -> C) k1 k2 :
  dft2 M N (fun a b => Cadd (Cscale s (x a b)) (y a b)) k1 k2 =
  Cadd (Cscale s (dft2 M N x k1 k2)) (dft2 M N y k1 k2).
Proof. unfold dft2. rewrite Csum2_linear, !Cscale_mul. ring. Qed.

Lemma idft2_linear M N s (X Y : nat -> nat -> C) n1 n2 :
  idft2 M N (fun a b => Cadd (Cscale s (X a b)) (Y a b)) n1 n2 =
  Cadd (Cscale s (idft2 M N X n1 n2)) (idft2 M N Y n1 n2).
Proof. unfold idft2. rewrite Csum2_linear, !Cscale_mul. ring. Qed.

(** The filtered signal is linear in the signal. *)
Lemma spectral_linear M N s (Lf V V1 V2 : nat -> nat -> C) n1 n2 :
  (forall a b, a < M -> b < N -> V a b = Cadd (Cscale s (V1 a b)) (V2 a b)) ->
  Re (idft2 M N (fun k1 k2 => Cmul (Lf k1 k2) (dft2 M N V k1 k2)) n1 n2) =
  (s * Re (idft2 M N (fun k1 k2 => Cmul (Lf k1 k2) (dft2 M N V1 k1 k2)) n1 n2)
   + Re (idft2 M N (fun k1 k2 => Cmul (Lf k1 k2) (dft2 M N V2 k1 k2)) n1 n2))%R.
Proof.
  intros HV.
  rewrite idft2_ext with (Y := fun k1 k2 =>
    Cadd (Cscale s (Cmul (Lf k1 k2) (dft2 M N V1 k1 k2)))
         (Cmul (Lf k1 k2) (dft2 M N V2 k1 k2))).
  2:{ intros k1 k2 _ _.
      rewrite dft2_ext with (y := fun a b => Cadd (Cscale s (V1 a b)) (V2 a b))
        by exact HV.
      rewrite dft2_linear, !Cscale_mul. ring. }
  rewrite idft2_linear. unfold Re, Cadd, Cscale. simpl. reflexivity.
Qed.

Lemma axpy_tab a n (f g : nat -> R) :
  axpy a (tab n f) (tab n g) = tab n (fun x => (a * f x + g x)%R).
Proof. unfold axpy. now rewrite combine_tab, map_tab. Qed.

Lemma axpy_nth a (x y : list R) k :
  length x = length y -> k < length x ->
  nth k (axpy a x y) 0%R = (a * nth k x 0 + nth k y 0)%R.
Proof.
  intros L Hk. unfold axpy.
  rewrite nth_map_in with (dx := (0%R, 0%R)) by (rewrite length_combine; lia).
  now rewrite combine_nth.
Qed.

Lemma V_of_axpy a (v1 v2 : list R) q p i j :
  length v1 = q * p -> length v2 = q * p ->
  V_of (axpy a v1 v2) q p i j =
  Cadd (Cscale a (V_of v1 q p i j)) (V_of v2 q p i j).
Proof.
  intros L1 L2. unfold V_of.
  destruct (Nat.ltb_spec i q) as [Hi|Hi]; cbn [andb];
    [destruct (Nat.ltb_spec j p) as [Hj|Hj]|].
  - rewrite axpy_nth by (rewrite ?L1; try lia; now apply block_index_lt).
    c_ring.
  - c_ring.
  - c_ring.
Qed.

Lemma axpy_length a (x y : list R) :
  length x = length y -> length (axpy a x y) = length x.
Proof.
  intros L. unfold axpy. rewrite length_map, length_combine. lia.
Qed.

(** X15.  [product_BCCB_vector] is linear in the vector: whenever it
    returns [w1] for [v1] and [w2] for [v2] with the same dictionary of
    eigenvalues, it returns [a * w1 + w2] for [a * v1 + v2], for every real
    [a]. *)
Theorem product_BCCB_vector_linear (BCCB_eigen : BCCB_eigen.t) (a : R)
    (v1 v2 w1 w2 : list R)
    (H1 : product_BCCB_vector BCCB_eigen v1 true = Ok w1)
    (H2 : product_BCCB_vector BCCB_eigen v2 true = Ok w2) :
  product_BCCB_vector BCCB_eigen (axpy a v1 v2) true = Ok (axpy a w1 w2).
Proof.
  destruct (product_BCCB_vector_cases BCCB_eigen v1) as [[Hv1 _]|[_ E]];
    [|congruence].
  destruct (product_BCCB_vector_cases BCCB_eigen v2) as [[Hv2 _]|[_ E]];
    [|congruence].
  destruct BCCB_eigen as [L ordering Q P sym].
  cbn [BCCB_eigen.eigenvalues BCCB_eigen.ordering BCCB_eigen.nblocks
       BCCB_eigen.npoints_per_block] in Hv1, Hv2.
  destruct Hv1 as (Ho & HQ & HP & Hh & L1). destruct Hv2 as (_ & _ & _ & _ & L2).
  set (q := Z.to_nat Q) in *. set (p := Z.to_nat P) in *.
  assert (EQ : Q = Z.of_nat q) by (unfold q; lia).
  assert (EP : P = Z.of_nat p) by (unfold p; lia).
  assert (Hq : 0 < q) by (unfold q; lia).
  assert (Hp : 0 < p) by (unfold p; lia).
  assert (Lv1 : length v1 = q * p) by lia.
  assert (Lv2 : length v2 = q * p) by lia.
  assert (Lv : length (axpy a v1 v2) = q * p)
    by (rewrite axpy_length; lia).
  rewrite EQ, EP in Hh, H1, H2 |- *.
  replace (2 * Z.of_nat q)%Z with (Z.of_nat (2 * q)) in Hh by lia.
  replace (2 * Z.of_nat p)%Z with (Z.of_nat (2 * p)) in Hh by lia.
  simpl in Ho. destruct Ho as [<-|[<-|[]]].
  - change ("row" =? "row")%string with true in Hh. cbv iota in Hh.
    rewrite (@has_shape_as_tab2 _ L _ _ C0 Hh) in H1, H2 |- *.
    rewrite product_BCCB_vector_row in H1, H2 |- * by assumption.
    injection H1 as <-. injection H2 as <-.
    rewrite axpy_tab. f_equal. apply tab_ext. intros x _.
    apply spectral_linear. intros i j _ _. now apply V_of_axpy.
  - change ("column" =? "row")%string with false in Hh. cbv iota in Hh.
    rewrite (@has_shape_as_tab2 _ L _ _ C0 Hh) in H1, H2 |- *.
    rewrite product_BCCB_vector_column in H1, H2 |- * by assumption.
    injection H1 as <-. injection H2 as <-.
    rewrite axpy_tab. f_equal. apply tab_ext. intros x _.
    apply spectral_linear. intros i j _ _. now apply V_of_axpy.
Qed.

Lemma product_BCCB_vector_linear_witness :
  exists w1 w2,
    product_BCCB_vector
      (BCCB_eigen.make (tab2 2 2 (fun _ _ => C1)) "row" 1 1 "symm-symm")
      [1%R] true = Ok w1 /\
    product_BCCB_vector
      (BCCB_eigen.make (tab2 2 2 (fun _ _ => C1)) "row" 1 1 "symm-symm")
      [5%R] true = Ok w2 /\
    product_BCCB_vector
      (BCCB_eigen.make (tab2 2 2 (fun _ _ => C1)) "row" 1 1 "symm-symm")
      (axpy 3 [1%R] [5%R]) true = Ok (axpy 3 w1 w2).
Proof.
  assert (E : forall v, length v = 1 * 1 -> exists w,
            product_BCCB_vector
              (BCCB_eigen.make (tab2 2 2 (fun _ _ => C1)) "row" 1 1 "symm-symm")
              v true = Ok w).
  { intros v Lv. eexists.
    apply (@product_BCCB_vector_row (fun _ _ => C1) v 1 1 "symm-symm"); auto. }
  destruct (E [1%R] eq_refl) as [w1 E1]. destruct (E [5%R] eq_refl) as [w2 E2].
  exists w1, w2. split; [exact E1|]. split; [exact E2|].
  exact (@product_BCCB_vector_linear _ 3%R _ _ _ _ E1 E2).
Defined.

(** ** The spectral route returns the first column of the BTTB *)

Lemma Rsum_unit (n : nat) (f : nat -> R) :
  0 < n ->
  Rsum (seq 0 n) (fun y => (f y * nth y (1 :: repeat 0 (n - 1)) 0)%R) = f 0.
Proof.
  intros Hn. destruct n as [|n]; [lia|].
  replace (seq 0 (S n)) with ([0] ++ seq 1 n) by reflexivity.
  rewrite Rsum_app. rewrite (Rsum_zero (seq 1 n)).
  - unfold Rsum. cbn [fold_right nth]. ring.
  - intros y Hy. apply in_seq in Hy. destruct y as [|y]; [lia|].
    cbn [nth]. rewrite nth_repeat. ring.
Qed.

(** X16.  For each of the four pure symmetries and both orderings, the
    spectral route (first column of the BCCB, eigenvalues, product) applied
    to the first unit vector gives back [b0], the first column of the BTTB
    matrix. *)
Theorem spectral_route_returns_b0 (ss sb ordering : string) (b0 : list R)
    (nblocks npoints_per_block : Z)
    (Hss : In ss ["symm"; "skew"]) (Hsb : In sb ["symm"; "skew"])
    (Hord : In ordering ["row"; "column"])
    (HQ : (0 < nblocks)%Z) (HP : (0 < npoints_per_block)%Z)
    (Hb0 : Z.of_nat (length b0) = (nblocks * npoints_per_block)%Z) :
  (BCCB0 <- embedding_BCCB_first_column b0 nblocks npoints_per_block
              (symmetry_name ss sb) ;;
   BCCB_eigen <- eigenvalues_BCCB BCCB0 ordering ;;
   product_BCCB_vector BCCB_eigen (1 :: repeat 0 (length b0 - 1))%R true)
  = Ok b0.
Proof.
  destruct (sizes_as_nat _ HQ HP Hb0) as (EQ & EP & Hq & Hp & Hlen).
  set (q := Z.to_nat nblocks) in *. set (p := Z.to_nat npoints_per_block) in *.
  assert (Hn : 0 < q * p) by nia.
  set (e0 := (1 :: repeat 0 (length b0 - 1))%R).
  assert (Le : length e0 = q * p).
  { unfold e0. cbn [length]. rewrite repeat_length. lia. }
  rewrite EQ, EP.
  destruct (@fast_product_pure ss sb b0 e0 q p ordering) as (T & ET & EF);
    try assumption.
  unfold fast_product in EF. rewrite EF. f_equal.
  rewrite generic_BTTB_pure_entries with (p := p) in ET; try assumption.
  - injection ET as <-.
    rewrite matvec_tab2 by exact Le.
    symmetry. apply tab_eq_nth with (d := 0%R); [exact Hlen|].
    intros x Hx. symmetry. unfold e0. rewrite Hlen.
    rewrite (Rsum_unit (fun y =>
      BTTB_entry ss sb (chunks q p b0) (x / p) (y / p) (x mod p) (y mod p)))
      by exact Hn.
    rewrite Nat.Div0.div_0_l, Nat.Div0.mod_0_l.
    unfold BTTB_entry, sgn, dist.
    replace (x / p <? 0) with false by (symmetry; apply Nat.ltb_ge; lia).
    replace (x mod p <? 0) with false by (symmetry; apply Nat.ltb_ge; lia).
    cbn [andb]. rewrite !Nat.sub_0_r.
    rewrite chunks_as_tab2 with (d := 0%R) by exact Hlen.
    rewrite tab2_nth.
    + f_equal. rewrite (Nat.div_mod_eq x p) at 3. lia.
    + apply Nat.Div0.div_lt_upper_bound. lia.
    + apply Nat.mod_upper_bound. lia.
  - apply chunks_length.
  - intros col Hcol. now apply chunks_part_length in Hcol.
  - apply BTTB_metadata_pure with (p := p); try assumption.
    + apply chunks_length.
    + intros col Hcol. now apply chunks_part_length in Hcol.
Qed.

Lemma spectral_route_returns_b0_witness :
  (BCCB0 <- embedding_BCCB_first_column [2; 1; 5; 7]%R 2 2
              (symmetry_name "skew" "symm") ;;
   BCCB_eigen <- eigenvalues_BCCB BCCB0 "column" ;;
   product_BCCB_vector BCCB_eigen [1; 0; 0; 0]%R true)
  = Ok [2; 1; 5; 7]%R.
Proof.
  apply (@spectral_route_returns_b0 "skew" "symm" "column" [2; 1; 5; 7]%R 2 2);
    simpl; auto; lia.
Defined.

(** ** [compute]: the filtered transform *)























(** ** The first column of the BCCB against the dense matrix *)

Section EmbeddingIsEmbedding.
Context {A : Type} `{Scalar A}.

(** X21.  The first column that [embedding_BCCB_first_column] returns
    defines a block circulant matrix with circulant blocks that holds the
    BTTB matrix: for each of the four pure symmetries, the item of the
    first column in position [((i - j) mod 2 nblocks, (r - c) mod 2
    npoints_per_block)] of its grid is the entry [(r, c)] of block
    [(i, j)] of the matrix that [generic_BTTB] builds from the blocks of
    [b0] (for entries whose double negation is the entry itself, as for
    numbers). *)
Theorem embedding_holds_BTTB (ss sb : string) (b0 : list A)
    (nblocks npoints_per_block : Z)
    (neg_neg : forall x : A, neg (neg x) = x)
    (Hss : In ss ["symm"; "skew"]) (Hsb : In sb ["symm"; "skew"])
    (HQ : (0 < nblocks)%Z) (HP : (0 < npoints_per_block)%Z)
    (Hsize : Z.of_nat (length b0) = (nblocks * npoints_per_block)%Z) :
  let q := Z.to_nat nblocks in
  let p := Z.to_nat npoints_per_block in
  exists columns T BCCB0,
    split b0 nblocks = Ok columns /\
    generic_BTTB ss sb nblocks columns None true = Ok T /\
    embedding_BCCB_first_column b0 nblocks npoints_per_block
      (symmetry_name ss sb) = Ok BCCB0 /\
    forall i j r c, i < q -> j < q -> r < p -> c < p ->
      nth (Z.to_nat ((Z.of_nat i - Z.of_nat j) mod Z.of_nat (2 * q)) * (2 * p)
           + Z.to_nat ((Z.of_nat r - Z.of_nat c) mod Z.of_nat (2 * p)))
          (BCCB0.first_column BCCB0) zero =
      nth (j * p + c) (nth (i * p + r) T []) zero.
Proof.
  intros q p.
  destruct (sizes_as_nat _ HQ HP Hsize) as (EQ & EP & Hq & Hp & Hlen).
  fold q in EQ, Hq, Hlen. fold p in EP, Hp, Hlen.
  rewrite EQ, EP.
  assert (Lparts : length (chunks q p b0) = q) by apply chunks_length.
  assert (Hparts : forall part, In part (chunks q p b0) -> length part = p)
    by (intros part; now apply chunks_part_length).
  exists (chunks q p b0). eexists. eexists.
  split; [now apply split_ok|].
  split.
  { apply generic_BTTB_pure_entries with (p := p); try assumption.
    now apply BTTB_metadata_pure with (p := p). }
  split; [now apply embedding_value|].
  intros i j r c Hi Hj Hr Hc. cbn [BCCB0.first_column].
  rewrite (entry_of_blocks (BTTB_entry ss sb (chunks q p b0))) by assumption.
  unfold pieces.
  now apply (@embed_entry A _ neg_neg ss sb (chunks q p b0) q p i j r c).
Qed.

End EmbeddingIsEmbedding.

Lemma embedding_holds_BTTB_witness :
  exists columns T BCCB0,
    split [2; 1; 5; 7]%Z 2 = Ok columns /\
    generic_BTTB "skew" "symm" 2 columns None true = Ok T /\
    embedding_BCCB_first_column [2; 1; 5; 7]%Z 2 2 (symmetry_name "skew" "symm")
      = Ok BCCB0 /\
    nth 12 (BCCB0.first_column BCCB0) 0%Z = nth 2 (nth 0 T []) 0%Z.
Proof.
  destruct (@embedding_holds_BTTB Z Scalar_Z "skew" "symm" [2; 1; 5; 7]%Z 2 2)
    as (columns & T & B & E1 & E2 & E3 & E4);
    try (simpl; auto; lia).
  exists columns, T, B. split; [exact E1|]. split; [exact E2|].
  split; [exact E3|]. apply (E4 0 1 0 0); simpl; lia.
Defined.

(** ** Transposition of the matrices of mixed symmetry *)

Section MixedSymmetry.
Context {A : Type} `{Scalar A}.

(** X22.  For a valid table, the matrix [T] that [generic_BTTB] returns
    for a symmetric structure of skew-symmetric blocks has its transposed
    entry opposite to the entry, except on the diagonals of the blocks
    where the two are equal; for a skew-symmetric structure of symmetric
    blocks the transposed entry is opposite to the entry, except inside
    the diagonal blocks where the two are equal.  So neither matrix is
    [- T^t] unless those entries vanish. *)
Theorem generic_BTTB_mixed_symmetry_laws (Q : Z) (columns : list (list A)) rows
    (check_input : bool)
    (neg_neg : forall x : A, neg (neg x) = x)
    (Hvalid : BTTB_metadata "symm" "skew" Q columns rows = Ok tt) :
  let q := Z.to_nat Q in
  let p := length (hd [] columns) in
  (exists T,
     generic_BTTB "symm" "skew" Q columns rows check_input = Ok T /\
     forall i j r c, i < q -> j < q -> r < p -> c < p ->
       nth (i * p + r) (nth (j * p + c) T []) zero =
       if r =? c
       then nth (j * p + c) (nth (i * p + r) T []) zero
       else neg (nth (j * p + c) (nth (i * p + r) T []) zero)) /\
  (exists T,
     generic_BTTB "skew" "symm" Q columns rows check_input = Ok T /\
     forall i j r c, i < q -> j < q -> r < p -> c < p ->
       nth (i * p + r) (nth (j * p + c) T []) zero =
       if i =? j
       then nth (j * p + c) (nth (i * p + r) T []) zero
       else neg (nth (j * p + c) (nth (i * p + r) T []) zero)).
Proof.
  intros q p.
  assert (Hvalid' : BTTB_metadata "skew" "symm" Q columns rows = Ok tt).
  { destruct (BTTB_metadata_ok _ _ _ _ _ Hvalid) as (_ & _ & HQ & Hrect & Hlen).
    change ("symm" =? "gene")%string with false in Hlen. cbv iota in Hlen.
    replace Q with (Z.of_nat (Z.to_nat Q)) by lia.
    apply BTTB_metadata_intro with (p := p); simpl; auto; try lia.
    discriminate. }
  split.
  - eexists. split.
    + apply generic_BTTB_pure_valid; simpl; auto.
    + fold q p. intros i j r c Hi Hj Hr Hc.
      rewrite !entry_of_blocks by assumption.
      unfold BTTB_entry, sgn. cbn [String.eqb Ascii.eqb Bool.eqb].
      rewrite !andb_false_r, !andb_true_r.
      rewrite (dist_sym c r), (dist_sym j i).
      destruct (Nat.compare_spec r c) as [->|Hrc|Hrc];
        rewrite ?Nat.eqb_refl, ?Nat.ltb_irrefl;
        repeat match goal with
          | Hlt : ?a < ?b |- _ =>
              replace (a <? b) with true by (symmetry; apply Nat.ltb_lt; lia);
              replace (b <? a) with false by (symmetry; apply Nat.ltb_ge; lia);
              replace (a =? b) with false by (symmetry; apply Nat.eqb_neq; lia);
              replace (b =? a) with false by (symmetry; apply Nat.eqb_neq; lia);
              clear Hlt
          end;
        rewrite ?neg_neg; reflexivity.
  - eexists. split.
    + apply generic_BTTB_pure_valid; simpl; auto.
    + fold q p. intros i j r c Hi Hj Hr Hc.
      rewrite !entry_of_blocks by assumption.
      unfold BTTB_entry, sgn. cbn [String.eqb Ascii.eqb Bool.eqb].
      rewrite !andb_false_r, !andb_true_r.
      rewrite (dist_sym c r), (dist_sym j i).
      destruct (Nat.compare_spec i j) as [->|Hij|Hij];
        rewrite ?Nat.eqb_refl, ?Nat.ltb_irrefl;
        repeat match goal with
          | Hlt : ?a < ?b |- _ =>
              replace (a <? b) with true by (symmetry; apply Nat.ltb_lt; lia);
              replace (b <? a) with false by (symmetry; apply Nat.ltb_ge; lia);
              replace (a =? b) with false by (symmetry; apply Nat.eqb_neq; lia);
              replace (b =? a) with false by (symmetry; apply Nat.eqb_neq; lia);
              clear Hlt
          end;
        rewrite ?neg_neg; reflexivity.
Qed.

End MixedSymmetry.

Lemma generic_BTTB_mixed_symmetry_laws_witness :
  exists T,
    generic_BTTB "symm" "skew" 2 [[2; 1]; [5; 7]]%Z None true = Ok T /\
    nth 0 (nth 1 T []) 0%Z = Z.opp (nth 1 (nth 0 T []) 0%Z) /\
    nth 0 (nth 2 T []) 0%Z = nth 2 (nth 0 T []) 0%Z.
Proof.
  destruct (@generic_BTTB_mixed_symmetry_laws Z Scalar_Z 2 [[2; 1]; [5; 7]]%Z
              None true) as [(T & E & Hn) _].
  - intros x. apply Z.opp_involutive.
  - reflexivity.
  - exists T. split; [exact E|]. split.
    + apply (Hn 0 0 0 1); simpl; lia.
    + apply (Hn 0 1 0 0); simpl; lia.
Defined.

(** ** The eigenvalues are linear in the first column *)

Lemma entry_tab2_total M N (x : nat -> nat -> C) i j :
  entry (tab2 M N x) i j = if (i <? M) && (j <? N) then x i j else C0.
Proof.
  unfold entry, tab2.
  destruct (Nat.ltb_spec i M) as [Hi|Hi]; cbn [andb].
  - rewrite tab_nth by assumption.
    destruct (Nat.ltb_spec j N) as [Hj|Hj].
    + now apply tab_nth.
    + apply nth_overflow. now rewrite tab_length.
  - assert (E : nth i (tab M (fun i0 => tab N (x i0))) [] = [])
      by (apply nth_overflow; now rewrite tab_length).
    rewrite E. now destruct j.
Qed.

Lemma G_of_axpy a (c1 c2 : list R) ncols i j :
  length c1 = length c2 -> i * ncols + j < length c1 ->
  G_of (axpy a c1 c2) ncols i j =
  Cadd (Cscale a (G_of c1 ncols i j)) (G_of c2 ncols i j).
Proof.
  intros L Hk. unfold G_of. rewrite axpy_nth by assumption. c_ring.
Qed.

(** X23.  [eigenvalues_BCCB] is linear in the first column: under each
    ordering, the eigenvalues of [a * c1 + c2] are [a] times the
    eigenvalues of [c1] plus the eigenvalues of [c2], entry by entry. *)
Theorem eigenvalues_BCCB_linear (a : R) (c1 c2 : list R)
    (nblocks npoints_per_block : Z) (symmetry ordering : string)
    (HQ : (0 < nblocks)%Z) (HP : (0 < npoints_per_block)%Z)
    (H1 : Z.of_nat (length c1) = (4 * nblocks * npoints_per_block)%Z)
    (H2 : Z.of_nat (length c2) = (4 * nblocks * npoints_per_block)%Z)
    (Hsym : In symmetry nine_symmetries)
    (Hord : In ordering ["row"; "column"]) :
  exists L1 L2 L,
    eigenvalues_BCCB (BCCB0.make c1 nblocks npoints_per_block symmetry) ordering
      = Ok (BCCB_eigen.make L1 ordering nblocks npoints_per_block symmetry) /\
    eigenvalues_BCCB (BCCB0.make c2 nblocks npoints_per_block symmetry) ordering
      = Ok (BCCB_eigen.make L2 ordering nblocks npoints_per_block symmetry) /\
    eigenvalues_BCCB
      (BCCB0.make (axpy a c1 c2) nblocks npoints_per_block symmetry) ordering
      = Ok (BCCB_eigen.make L ordering nblocks npoints_per_block symmetry) /\
    forall k1 k2,
      entry L k1 k2 = Cadd (Cscale a (entry L1 k1 k2)) (entry L2 k1 k2).
Proof.
  set (q := Z.to_nat nblocks). set (p := Z.to_nat npoints_per_block).
  assert (EQ : nblocks = Z.of_nat q) by (unfold q; lia).
  assert (EP : npoints_per_block = Z.of_nat p) by (unfold p; lia).
  assert (Hq : 0 < q) by (unfold q; lia).
  assert (Hp : 0 < p) by (unfold p; lia).
  assert (Hs : str_in symmetry nine_symmetries = true) by now apply In_str_in.
  assert (L1 : length c1 = 4 * q * p) by lia.
  assert (L2 : length c2 = 4 * q * p) by lia.
  assert (L3 : length (axpy a c1 c2) = 4 * q * p)
    by (rewrite axpy_length; lia).
  assert (Hlin : forall k1 k2,
    Cscale (sqrt (INR (2 * q * (2 * p))))
      (dft2 (2 * q) (2 * p) (G_of (axpy a c1 c2) (2 * p)) k1 k2) =
    Cadd (Cscale a (Cscale (sqrt (INR (2 * q * (2 * p))))
                      (dft2 (2 * q) (2 * p) (G_of c1 (2 * p)) k1 k2)))
         (Cscale (sqrt (INR (2 * q * (2 * p))))
            (dft2 (2 * q) (2 * p) (G_of c2 (2 * p)) k1 k2))).
  { intros k1 k2.
    rewrite dft2_ext with (y := fun i j =>
      Cadd (Cscale a (G_of c1 (2 * p) i j)) (G_of c2 (2 * p) i j)).
    2:{ intros i j Hi Hj. apply G_of_axpy; [lia|]. rewrite L1. nia. }
    rewrite dft2_linear, !Cscale_mul. ring. }
  rewrite EQ, EP. simpl in Hord. destruct Hord as [<-|[<-|[]]].
  - eexists. eexists. eexists.
    split; [now apply eigenvalues_BCCB_row|].
    split; [now apply eigenvalues_BCCB_row|].
    split; [now apply eigenvalues_BCCB_row|].
    intros k1 k2. rewrite !entry_tab2_total.
    destruct ((k1 <? 2 * q) && (k2 <? 2 * p)); [apply Hlin|c_ring].
  - eexists. eexists. eexists.
    split; [now apply eigenvalues_BCCB_column_alt|].
    split; [now apply eigenvalues_BCCB_column_alt|].
    split; [now apply eigenvalues_BCCB_column_alt|].
    intros k1 k2. rewrite !entry_tab2_total.
    destruct ((k1 <? 2 * p) && (k2 <? 2 * q)); [apply Hlin|c_ring].
Qed.

Lemma eigenvalues_BCCB_linear_witness :
  exists L1 L2 L,
    eigenvalues_BCCB (BCCB0.make [3; 0; 1; 0]%R 1 1 "symm-symm") "row"
      = Ok (BCCB_eigen.make L1 "row" 1 1 "symm-symm") /\
    eigenvalues_BCCB (BCCB0.make [1; 1; 0; 2]%R 1 1 "symm-symm") "row"
      = Ok (BCCB_eigen.make L2 "row" 1 1 "symm-symm") /\
    eigenvalues_BCCB
      (BCCB0.make (axpy 2 [3; 0; 1; 0]%R [1; 1; 0; 2]%R) 1 1 "symm-symm") "row"
      = Ok (BCCB_eigen.make L "row" 1 1 "symm-symm") /\
    entry L 0 0 = Cadd (Cscale 2 (entry L1 0 0)) (entry L2 0 0).
Proof.
  destruct (@eigenvalues_BCCB_linear 2%R [3; 0; 1; 0]%R [1; 1; 0; 2]%R 1 1
              "symm-symm" "row") as (L1 & L2 & L & E1 & E2 & E3 & E4).
  - lia.
  - lia.
  - reflexivity.
  - reflexivity.
  - unfold nine_symmetries. simpl. tauto.
  - simpl. tauto.
  - exists L1, L2, L. split; [exact E1|]. split; [exact E2|].
    split; [exact E3|apply E4].
Defined.

(** ** The product with the circulant matrix holds the Toeplitz product *)

Lemma Toeplitz_metadata_ok {A : Type} symmetry (column : list A) row :
  Toeplitz_metadata symmetry column row = Ok tt ->
  column <> [] /\
  (In symmetry ["symm"; "skew"] \/
   (symmetry = "gene" /\
    exists r, row = Some r /\ length r + 1 = length column)).
Proof.
  unfold Toeplitz_metadata. intros E.
  destruct (str_in symmetry _) eqn:Es; [|discriminate]. cbn [negb] in E.
  destruct (Nat.eqb_spec (length column) 0) as [|Hl]; [discriminate|].
  split; [destruct column; [simpl in Hl; congruence|discriminate]|].
  apply str_in_cases in Es. destruct (pure_or_gene Es) as [->|Hp]; [|now left].
  right. split; [reflexivity|].
  change ("gene" =? "gene")%string with true in E. cbv iota in E.
  destruct row as [r|]; [|discriminate]. exists r. split; [reflexivity|].
  destruct (Nat.eqb_spec (length r + 1) (length column));
    [assumption|discriminate].
Qed.

Section CirculantAny.
Context {A : Type} `{Scalar A}.

(** The full circulant matrix for each of the three symmetries, with its
    top-left quadrant. *)
Lemma Circulant_full_any symmetry (column : list A) row ci :
  Toeplitz_metadata symmetry column row = Ok tt ->
  let P := length column in
  exists Cv,
    Circulant_from_Toeplitz symmetry column row true ci =
      Ok (tab2 (2 * P) (2 * P) (fun i j => nth (cmod (2 * P) i j) Cv zero)) /\
    forall i j, i < P -> j < P ->
      nth (cmod (2 * P) i j) Cv zero =
      Toeplitz_entry symmetry column
        (match row with Some r => r | None => [] end) i j.
Proof.
  intros Hv P. destruct (Toeplitz_metadata_ok _ _ _ Hv) as [Hne Hc].
  assert (HP : 0 < P) by (subst P; destruct column; [congruence|simpl; lia]).
  destruct Hc as [Hs|(-> & r & -> & Hl)].
  - exists (fwd_piece symmetry column). split.
    + replace (Circulant_from_Toeplitz symmetry column row true ci)
        with (Circulant_from_Toeplitz symmetry column None true ci)
        by (simpl in Hs; destruct Hs as [<-|[<-|[]]]; reflexivity).
      now apply Circulant_full.
    + intros i j Hi Hj. rewrite fwd_piece_entry with (p := P) by auto.
      now rewrite Toeplitz_entry_pure.
  - set (Cv := column ++ [zero] ++ rev r).
    assert (LC : length Cv = 2 * P).
    { unfold Cv. rewrite !length_app, length_rev. simpl. subst P. lia. }
    exists Cv. split.
    + unfold Circulant_from_Toeplitz.
      replace (if ci then Toeplitz_metadata "gene" column (Some r) else Ok tt)
        with (@Ok unit tt) by (destruct ci; [now rewrite Hv|reflexivity]).
      cbn [bind String.eqb Ascii.eqb Bool.eqb].
      replace (hstack1 [column; [zero]; slice_rev r]) with Cv
        by (unfold hstack1, slice_rev, Cv; cbn [concat]; now rewrite app_nil_r).
      fold P.
      replace (2 * Z.of_nat P)%Z with (Z.of_nat (2 * P)) by lia.
      replace (-2 * Z.of_nat P)%Z with (- Z.of_nat (2 * P))%Z by lia.
      rewrite arange_up, arange_neg, outer_sum_tab.
      rewrite fancy_tab2 with (d := zero) by (intros; lia).
      rewrite LC. f_equal.
    + intros i j Hi Hj. rewrite cmod_cases by assumption.
      unfold Toeplitz_entry. change ("gene" =? "gene")%string with true.
      cbv iota. unfold Cv.
      destruct (Nat.ltb_spec i j) as [Hij|Hij].
      * rewrite app_nth2 by (fold P; lia). fold P.
        rewrite app_nth2 by (simpl; lia). simpl length.
        rewrite rev_nth by lia. f_equal. lia.
      * now rewrite app_nth1 by (fold P; lia).
Qed.

End CirculantAny.

(** X24.  The circulant matrix does the work of the Toeplitz matrix: for
    each of the three symmetries and every valid column (and row), the
    first [P] items of the product of the [2 P] x [2 P] matrix of
    [Circulant_from_Toeplitz] with the vector [v] followed by [P] zeros
    are the product of the [P] x [P] Toeplitz matrix (built by
    [generic_BTTB] as a single block) with [v]. *)
Theorem Circulant_product_holds_Toeplitz (symmetry : string) (column : list R)
    (row : option (list R)) (v : list R) (check_input : bool)
    (Hvalid : Toeplitz_metadata symmetry column row = Ok tt)
    (Hv : length v = length column) :
  let P := length column in
  exists M T,
    Circulant_from_Toeplitz symmetry column row true check_input = Ok M /\
    generic_BTTB "symm" symmetry 1 [column]
      (match row with Some r => Some [r] | None => None end) check_input = Ok T /\
    firstn P (matvec M (v ++ repeat 0%R P)) = matvec T v.
Proof.
  intros P.
  destruct (@Circulant_full_any R _ symmetry column row check_input Hvalid)
    as (Cv & EM & Etop).
  fold P in EM, Etop.
  destruct (Toeplitz_metadata_ok _ _ _ Hvalid) as [Hne Hc].
  assert (HP : 0 < P) by (subst P; destruct column; [congruence|simpl; lia]).
  assert (Hmeta : BTTB_metadata "symm" symmetry (Z.of_nat 1) [column]
                    (match row with Some r => Some [r] | None => None end)
                  = Ok tt).
  { apply BTTB_metadata_intro with (p := P).
    - simpl. auto.
    - destruct Hc as [Hs|(-> & _)]; simpl in *; intuition.
    - lia.
    - intros col [<-|[]]. reflexivity.
    - reflexivity.
    - intros ->. destruct Hc as [Hs|(_ & r & -> & Hl)].
      + simpl in Hs. destruct Hs as [E|[E|[]]]; discriminate.
      + eexists. split; [reflexivity|]. split; [reflexivity|].
        intros r' [<-|[]]. exact Hl. }
  eexists. eexists. split; [exact EM|]. split.
  { change 1%Z with (Z.of_nat 1).
    apply generic_BTTB_all_entries; [exact Hmeta|discriminate]. }
  rewrite Nat2Z.id. cbn [hd]. fold P. rewrite Nat.mul_1_l.
  rewrite matvec_tab2 by (rewrite length_app, repeat_length; lia).
  rewrite matvec_tab2 by exact Hv.
  rewrite firstn_tab by lia.
  apply tab_ext. intros x Hx.
  rewrite Rsum_restrict with (n := P).
  - apply Rsum_ext. intros y Hy. apply in_seq in Hy.
    rewrite app_nth1 by lia. f_equal.
    rewrite Etop by lia.
    rewrite !Nat.div_small, !Nat.mod_small by lia.
    unfold generic_entry, block_row, sgn.
    cbn [String.eqb Ascii.eqb Bool.eqb dist Nat.ltb Nat.leb Nat.sub nth andb].
    destruct row; reflexivity.
  - lia.
  - intros y Hy. rewrite app_nth2 by lia. rewrite nth_repeat. ring.
Qed.

Lemma Circulant_product_holds_Toeplitz_witness :
  exists M T,
    Circulant_from_Toeplitz "gene" [2; 1; 3]%R (Some [7; 8]%R) true true = Ok M /\
    generic_BTTB "symm" "gene" 1 [[2; 1; 3]]%R (Some [[7; 8]]%R) true = Ok T /\
    firstn 3 (matvec M ([1; 0; 2] ++ repeat 0 3)%R) = matvec T [1; 0; 2]%R.
Proof.
  apply (@Circulant_product_holds_Toeplitz "gene" [2; 1; 3]%R (Some [7; 8]%R)
           [1; 0; 2]%R true); reflexivity.
Defined.

(** ** A symmetric structure of symmetric blocks has real eigenvalues *)

Lemma Rsum_rev {I : Type} (l : list I) f : Rsum (rev l) f = Rsum l f.
Proof.
  induction l as [|x l IH]; [reflexivity|].
  simpl rev. rewrite Rsum_app, IH. unfold Rsum. simpl. ring.
Qed.

(** A sum over [0 .. M-1] read at the reflected indices [(M - n) mod M]. *)
Lemma Rsum_reflect (M : nat) (f : nat -> R) :
  0 < M ->
  Rsum (seq 0 M) (fun n => f ((M - n) mod M)) = Rsum (seq 0 M) f.
Proof.
  intros HM. destruct M as [|m]; [lia|].
  replace (seq 0 (S m)) with ([0] ++ seq 1 m) by reflexivity.
  rewrite !Rsum_app. f_equal.
  - unfold Rsum. cbn [fold_right]. rewrite Nat.sub_0_r, Nat.Div0.mod_same.
    reflexivity.
  - rewrite Rsum_ext with (g := fun n => f (S m - n)).
    2:{ intros n Hn. apply in_seq in Hn. f_equal. apply Nat.mod_small. lia. }
    rewrite <- (Rsum_rev (seq 1 m)).
    rewrite <- Rsum_map with (h := fun n => S m - n) (f := f). f_equal.
    rewrite <- seq_shift. fold (tab m S). rewrite rev_tab, map_tab.
    apply tab_ext. intros i Hi. lia.
Qed.

Lemma snd_Csum {I : Type} (l : list I) (f : I -> C) :
  snd (Csum l f) = Rsum l (fun i => snd (f i)).
Proof.
  induction l as [|x l IH]; [reflexivity|].
  unfold Csum, Rsum in *. simpl. now rewrite IH.
Qed.

Lemma reflect_ratio (M n k : nat) :
  0 < M -> n < M ->
  exists K : Z,
    (INR k * INR ((M - n) mod M) / INR M = IZR K - INR k * INR n / INR M)%R.
Proof.
  intros HM Hn.
  assert (HMr : (0 < INR M)%R) by (apply lt_0_INR; lia).
  destruct n as [|n].
  - exists 0%Z. rewrite Nat.sub_0_r, Nat.Div0.mod_same. simpl INR.
    field. lra.
  - exists (Z.of_nat k). rewrite Nat.mod_small by lia.
    rewrite minus_INR by lia. rewrite <- INR_IZR_INZ. field. lra.
Qed.

(** The phase at the reflected indices is the opposite phase, up to a
    multiple of [2 pi]. *)
Lemma sin_phase_reflect M N k1 k2 n1 n2 :
  0 < M -> 0 < N -> n1 < M -> n2 < N ->
  sin (- phase M N k1 k2 ((M - n1) mod M) ((N - n2) mod N)) =
  (- sin (- phase M N k1 k2 n1 n2))%R.
Proof.
  intros HM HN H1 H2.
  destruct (reflect_ratio k1 HM H1) as [K1 E1].
  destruct (reflect_ratio k2 HN H2) as [K2 E2].
  rewrite (sin_neg (phase M N k1 k2 n1 n2)), Ropp_involutive.
  change (sin (- phase M N k1 k2 ((M - n1) mod M) ((N - n2) mod N)))
    with (snd (cis (- phase M N k1 k2 ((M - n1) mod M) ((N - n2) mod N)))).
  change (sin (phase M N k1 k2 n1 n2))
    with (snd (cis (phase M N k1 k2 n1 n2))).
  f_equal.
  replace (- phase M N k1 k2 ((M - n1) mod M) ((N - n2) mod N))%R
    with (phase M N k1 k2 n1 n2 + 2 * PI * IZR (- (K1 + K2)))%R.
  - rewrite cis_add, cis_2PI_Z. ring.
  - unfold phase. rewrite E1, E2. rewrite opp_IZR, plus_IZR. ring.
Qed.

(** The transform of a real grid that is even in both indices is real. *)
Lemma even_grid_real_transform M N (g : nat -> nat -> R) k1 k2 :
  0 < M -> 0 < N ->
  (forall a b, a < M -> b < N ->
     g ((M - a) mod M) ((N - b) mod N) = g a b) ->
  snd (Csum (seq 0 M) (fun n1 => Csum (seq 0 N) (fun n2 =>
         Cmul (RtoC (g n1 n2)) (cis (- phase M N k1 k2 n1 n2))))) = 0%R.
Proof.
  intros HM HN Heven.
  set (F := fun n1 n2 => (g n1 n2 * sin (- phase M N k1 k2 n1 n2))%R).
  assert (E : snd (Csum (seq 0 M) (fun n1 => Csum (seq 0 N) (fun n2 =>
                Cmul (RtoC (g n1 n2)) (cis (- phase M N k1 k2 n1 n2))))) =
              Rsum (seq 0 M) (fun n1 => Rsum (seq 0 N) (fun n2 => F n1 n2))).
  { rewrite snd_Csum. apply Rsum_ext. intros n1 _.
    rewrite snd_Csum. apply Rsum_ext. intros n2 _.
    unfold F, Cmul, RtoC, cis. simpl. ring. }
  rewrite E. clear E.
  set (X := Rsum (seq 0 M) (fun n1 => Rsum (seq 0 N) (fun n2 => F n1 n2))).
  assert (E2 : X = Rsum (seq 0 M) (fun n1 => Rsum (seq 0 N) (fun n2 =>
                     F ((M - n1) mod M) ((N - n2) mod N)))).
  { unfold X.
    rewrite <- (Rsum_reflect (fun n1 => Rsum (seq 0 N) (fun n2 => F n1 n2)) HM).
    apply Rsum_ext. intros n1 _.
    now rewrite <- (Rsum_reflect (fun n2 => F ((M - n1) mod M) n2) HN). }
  assert (E3 : (X + X = 0)%R).
  { rewrite E2 at 2. unfold X. rewrite <- Rsum_add.
    apply Rsum_zero. intros n1 Hn1. rewrite <- Rsum_add.
    apply Rsum_zero. intros n2 Hn2. apply in_seq in Hn1, Hn2.
    unfold F. rewrite Heven by lia. rewrite sin_phase_reflect by lia. ring. }
  lra.
Qed.

(** Reflecting an index of the doubled grid keeps the index of the block
    (or of the item of a block) behind it. *)
Lemma fold_reflect (h x : nat) :
  0 < h -> x < 2 * h ->
  ((((2 * h - x) mod (2 * h)) =? h) = (x =? h) /\
   (if (2 * h - x) mod (2 * h) <? h
    then (2 * h - x) mod (2 * h) else 2 * h - (2 * h - x) mod (2 * h)) =
   (if x <? h then x else 2 * h - x)) \/ x = h.
Proof.
  intros Hh Hx. destruct x as [|x].
  - rewrite Nat.sub_0_r, Nat.Div0.mod_same. left.
    replace (0 <? h) with true by (symmetry; apply Nat.ltb_lt; lia).
    split; reflexivity.
  - rewrite Nat.mod_small by lia.
    destruct (Nat.eq_dec (S x) h) as [E|E]; [now right|left].
    split.
    + destruct (Nat.eqb_spec (2 * h - S x) h); destruct (Nat.eqb_spec (S x) h);
        lia || reflexivity.
    + destruct (Nat.ltb_spec (2 * h - S x) h); destruct (Nat.ltb_spec (S x) h);
        lia.
Qed.

Lemma fwd_symm_nth (bi : list R) (p b : nat) :
  length bi = p -> 0 < p -> b < 2 * p ->
  nth b (fwd_piece "symm" bi) 0%R =
  if b =? p then 0%R else nth (if b <? p then b else 2 * p - b) bi 0%R.
Proof.
  intros L Hp Hb. unfold fwd_piece, hstack1, reflect1.
  cbn [String.eqb Ascii.eqb Bool.eqb concat zero Scalar_R].
  rewrite app_nil_r.
  destruct (Nat.eqb_spec b p) as [->|Hne].
  - rewrite app_nth2 by lia. now rewrite L, Nat.sub_diag.
  - destruct (Nat.ltb_spec b p) as [Hlt|Hge].
    + now rewrite app_nth1 by lia.
    + rewrite app_nth2 by lia. rewrite L.
      rewrite app_nth2 by (simpl; lia). simpl length.
      unfold slice_rev_to0.
      replace (b - p - 1) with (p - 1 - (2 * p - b)) by lia.
      apply nth_rev_tl; lia.
Qed.

(** The first column for a symmetric structure of symmetric blocks, item
    by item on its grid. *)
Lemma symm_first_column_value (parts : list (list R)) (q p a b : nat) :
  length parts = q -> (forall part, In part parts -> length part = p) ->
  0 < q -> 0 < p -> a < 2 * q -> b < 2 * p ->
  nth (a * (2 * p) + b) (concat (pieces "symm" "symm" parts p)) 0%R =
  if (a =? q) || (b =? p) then 0%R
  else nth (if b <? p then b else 2 * p - b)
           (nth (if a <? q then a else 2 * q - a) parts []) 0%R.
Proof.
  intros Lq Lp Hq Hp Ha Hb.
  rewrite nth_concat_uniform with (w := 2 * p);
    [|intros pc; now apply pieces_uniform|assumption].
  unfold pieces.
  destruct (Nat.eqb_spec a q) as [->|Hne]; cbn [orb].
  - rewrite app_nth2 by (rewrite length_map; lia).
    rewrite length_map, Lq, Nat.sub_diag. cbn [app nth].
    unfold zeros. apply nth_repeat.
  - destruct (Nat.ltb_spec a q) as [Hlt|Hge].
    + rewrite app_nth1 by (rewrite length_map; lia).
      rewrite nth_map_in with (dx := []) by lia.
      rewrite fwd_symm_nth with (p := p); try assumption; [reflexivity|].
      apply Lp, nth_In. lia.
    + rewrite app_nth2 by (rewrite length_map; lia).
      rewrite length_map, Lq.
      rewrite app_nth2 by (simpl; lia). simpl length.
      assert (Lr : length (slice_rev_to0 parts) = q - 1).
      { unfold slice_rev_to0. rewrite length_rev.
        destruct parts; simpl in *; lia. }
      rewrite nth_map_in with (dx := []) by lia.
      replace (nth (a - q - 1) (slice_rev_to0 parts) [])
        with (nth (2 * q - a) parts []).
      2:{ unfold slice_rev_to0.
          replace (a - q - 1) with (q - 1 - (2 * q - a)) by lia.
          symmetry. apply nth_rev_tl; lia. }
      change (bwd_piece "symm" "symm" (nth (2 * q - a) parts []))
        with (fwd_piece "symm" (nth (2 * q - a) parts [])).
      rewrite fwd_symm_nth with (p := p); try assumption; [reflexivity|].
      apply Lp, nth_In. lia.
Qed.

Lemma half_reflect (h : nat) : 0 < h -> (2 * h - h) mod (2 * h) = h.
Proof.
  intros Hh. replace (2 * h - h) with h by lia. apply Nat.mod_small. lia.
Qed.

Lemma symm_first_column_even (parts : list (list R)) (q p a b : nat) :
  length parts = q -> (forall part, In part parts -> length part = p) ->
  0 < q -> 0 < p -> a < 2 * q -> b < 2 * p ->
  nth ((2 * q - a) mod (2 * q) * (2 * p) + (2 * p - b) mod (2 * p))
      (concat (pieces "symm" "symm" parts p)) 0%R =
  nth (a * (2 * p) + b) (concat (pieces "symm" "symm" parts p)) 0%R.
Proof.
  intros Lq Lp Hq Hp Ha Hb.
  rewrite !symm_first_column_value with (q := q)
    by (assumption || (apply Nat.mod_upper_bound; lia)).
  destruct (fold_reflect Hq Ha) as [[Ea Fa]|Ea];
    destruct (fold_reflect Hp Hb) as [[Eb Fb]|Eb].
  - now rewrite Ea, Eb, Fa, Fb.
  - subst b. rewrite half_reflect by assumption.
    now rewrite Nat.eqb_refl, !orb_true_r.
  - subst a. rewrite half_reflect by assumption.
    now rewrite Nat.eqb_refl.
  - subst a. rewrite half_reflect by assumption.
    now rewrite Nat.eqb_refl.
Qed.

(** X25.  For a symmetric block Toeplitz matrix with symmetric Toeplitz
    blocks, the eigenvalues that [eigenvalues_BCCB] returns for the first
    column built by [embedding_BCCB_first_column] are real: every entry of
    the matrix of eigenvalues has imaginary part zero, under both
    orderings. *)
Theorem symm_symm_eigenvalues_are_real (b0 : list R)
    (nblocks npoints_per_block : Z) (ordering : string)
    (HQ : (0 < nblocks)%Z) (HP : (0 < npoints_per_block)%Z)
    (Hsize : Z.of_nat (length b0) = (nblocks * npoints_per_block)%Z)
    (Hord : In ordering ["row"; "column"]) :
  exists BCCB0 L,
    embedding_BCCB_first_column b0 nblocks npoints_per_block "symm-symm"
      = Ok BCCB0 /\
    eigenvalues_BCCB BCCB0 ordering =
      Ok (BCCB_eigen.make L ordering nblocks npoints_per_block "symm-symm") /\
    forall k1 k2, snd (entry L k1 k2) = 0%R.
Proof.
  destruct (sizes_as_nat _ HQ HP Hsize) as (EQ & EP & Hq & Hp & Hlen).
  set (q := Z.to_nat nblocks) in *. set (p := Z.to_nat npoints_per_block) in *.
  rewrite EQ, EP.
  set (parts := chunks q p b0).
  set (c0 := concat (pieces "symm" "symm" parts p)).
  assert (Lparts : length parts = q) by apply chunks_length.
  assert (Hparts : forall part, In part parts -> length part = p)
    by (intros part; now apply chunks_part_length).
  assert (Lc0 : length c0 = 4 * q * p)
    by now apply embedding_value_length.
  assert (Hs : str_in "symm-symm" nine_symmetries = true) by reflexivity.
  assert (Hreal : forall k1 k2,
    snd (Cscale (sqrt (INR (2 * q * (2 * p))))
           (dft2 (2 * q) (2 * p) (G_of c0 (2 * p)) k1 k2)) = 0%R).
  { intros k1 k2. rewrite unscaled_dft2 by lia.
    apply (@even_grid_real_transform (2 * q) (2 * p)
             (fun a b => nth (a * (2 * p) + b) c0 0%R)); try lia.
    intros a b Ha Hb. now apply symm_first_column_even with (q := q). }
  exists (BCCB0.make c0 (Z.of_nat q) (Z.of_nat p) "symm-symm").
  simpl in Hord. destruct Hord as [<-|[<-|[]]].
  - eexists.
    split; [apply (@embedding_value R _ "symm" "symm"); simpl; auto|].
    split; [now apply eigenvalues_BCCB_row|].
    intros k1 k2. rewrite entry_tab2_total.
    destruct ((k1 <? 2 * q) && (k2 <? 2 * p)); [apply Hreal|reflexivity].
  - eexists.
    split; [apply (@embedding_value R _ "symm" "symm"); simpl; auto|].
    split; [now apply eigenvalues_BCCB_column_alt|].
    intros k1 k2. rewrite entry_tab2_total.
    destruct ((k1 <? 2 * p) && (k2 <? 2 * q)); [apply Hreal|reflexivity].
Qed.

Lemma symm_symm_eigenvalues_are_real_witness :
  exists BCCB0 L,
    embedding_BCCB_first_column [2; 1; 5; 7]%R 2 2 "symm-symm" = Ok BCCB0 /\
    eigenvalues_BCCB BCCB0 "row" = Ok (BCCB_eigen.make L "row" 2 2 "symm-symm") /\
    snd (entry L 1 3) = 0%R.
Proof.
  destruct (@symm_symm_eigenvalues_are_real [2; 1; 5; 7]%R 2 2 "row")
    as (B & L & E1 & E2 & E3).
  - lia.
  - lia.
  - reflexivity.
  - simpl. tauto.
  - exists B, L. split; [exact E1|]. split; [exact E2|apply E3].
Defined.

(** * The fast product and the dense product *)

(** ** The compact route and the dense product *)

(** X26.  The compact route, as the code has it.  For each of the four
    pure symmetries, a real first column [b0] of [nblocks *
    npoints_per_block] items and a real vector [v] of the same length,
    under either ordering: [product_BCCB_vector] applied to the
    eigenvalues that [eigenvalues_BCCB] computes from the first column
    returned by [embedding_BCCB_first_column] returns, in exact
    arithmetic, the product of the dense matrix [generic_BTTB] (built from
    the blocks of [b0]) with [v]. *)
Theorem compact_route_equals_dense (ss sb ordering : string) (b0 v : list R)
    (nblocks npoints_per_block : Z)
    (Hss : In ss ["symm"; "skew"]) (Hsb : In sb ["symm"; "skew"])
    (Hord : In ordering ["row"; "column"])
    (HQ : (0 < nblocks)%Z) (HP : (0 < npoints_per_block)%Z)
    (Hb0 : Z.of_nat (length b0) = (nblocks * npoints_per_block)%Z)
    (Hv : Z.of_nat (length v) = (nblocks * npoints_per_block)%Z) :
  exists columns T,
    split b0 nblocks = Ok columns /\
    BTTB_metadata ss sb nblocks columns None = Ok tt /\
    generic_BTTB ss sb nblocks columns None true = Ok T /\
    (BCCB0 <- embedding_BCCB_first_column b0 nblocks npoints_per_block
                (symmetry_name ss sb) ;;
     BCCB_eigen <- eigenvalues_BCCB BCCB0 ordering ;;
     product_BCCB_vector BCCB_eigen v true) = Ok (matvec T v).
Proof.
  destruct (@sizes_as_nat _ _ _ HQ HP Hb0) as (EQ & EP & Hq & Hp & L).
  assert (Lv : length v = Z.to_nat nblocks * Z.to_nat npoints_per_block) by lia.
  set (q := Z.to_nat nblocks) in *. set (p := Z.to_nat npoints_per_block) in *.
  clearbody q p. subst nblocks npoints_per_block.
  destruct (@fast_product_pure ss sb b0 v q p ordering) as (T & ET & EF);
    try assumption.
  exists (chunks q p b0), T.
  split; [now apply split_ok|].
  split; [|split; [exact ET|exact EF]].
  apply BTTB_metadata_pure with (p := p); auto using chunks_length.
  intros col Hcol. now apply chunks_part_length in Hcol.
Qed.

Lemma compact_route_equals_dense_witness :
  exists columns T,
    split [2; 1; 5; 7]%R 2 = Ok columns /\
    BTTB_metadata "skew" "symm" 2 columns None = Ok tt /\
    generic_BTTB "skew" "symm" 2 columns None true = Ok T /\
    (BCCB0 <- embedding_BCCB_first_column [2; 1; 5; 7]%R 2 2
                (symmetry_name "skew" "symm") ;;
     BCCB_eigen <- eigenvalues_BCCB BCCB0 "column" ;;
     product_BCCB_vector BCCB_eigen [1; 0; 0; 1]%R true) = Ok (matvec T [1; 0; 0; 1]%R).
Proof.
  apply (@compact_route_equals_dense "skew" "symm" "column"
           [2; 1; 5; 7]%R [1; 0; 0; 1]%R 2 2);
    [simpl; auto|simpl; auto|simpl; auto|lia|lia|reflexivity|reflexivity].
Defined.

(** ** The nine symmetries *)

Lemma symmetry_name_in_nine ss sb :
  In ss ["gene"; "symm"; "skew"] -> In sb ["gene"; "symm"; "skew"] ->
  str_in (symmetry_name ss sb) nine_symmetries = true.
Proof.
  intros Hs Hb. simpl in Hs, Hb.
  destruct Hs as [<-|[<-|[<-|[]]]]; destruct Hb as [<-|[<-|[<-|[]]]];
    reflexivity.
Qed.

(** An index of the doubled grid, read back as a pair of indices of the
    first block column or of the first block row: the pair keeps the
    side of the diagonal and the distance to it. *)
Lemma fold_index (h i j : nat) :
  i < h -> j < h ->
  let a := cmod (2 * h) i j in
  ((if a <? h then a else 0) <? (if a <? h then 0 else 2 * h - a)) = (i <? j) /\
  (if a <? h then 0 else 2 * h - a) - (if a <? h then a else 0) = j - i /\
  (if a <? h then a else 0) - (if a <? h then 0 else 2 * h - a) = i - j.
Proof.
  intros Hi Hj a. unfold a. rewrite cmod_cases by assumption.
  destruct (Nat.ltb_spec i j) as [Hlt|Hge].
  - destruct (Nat.ltb_spec (2 * h - (j - i)) h); [lia|].
    split; [apply Nat.ltb_lt; lia|lia].
  - destruct (Nat.ltb_spec (i - j) h); [|lia].
    split; [apply Nat.ltb_ge; lia|lia].
Qed.

Lemma generic_entry_fold ss sb (q p : nat) (columns : list (list R)) rows
    (i j r c : nat) :
  i < q -> j < q -> r < p -> c < p ->
  let a := cmod (2 * q) i j in
  let b := cmod (2 * p) r c in
  generic_entry ss sb q columns rows
    (if a <? q then a else 0) (if a <? q then 0 else 2 * q - a)
    (if b <? p then b else 0) (if b <? p then 0 else 2 * p - b) =
  generic_entry ss sb q columns rows i j r c.
Proof.
  intros Hi Hj Hr Hc a b.
  destruct (fold_index Hi Hj) as (A1 & A2 & A3). fold a in A1, A2, A3.
  destruct (fold_index Hr Hc) as (B1 & B2 & B3). fold b in B1, B2, B3.
  unfold generic_entry, block_row, Toeplitz_entry, dist.
  rewrite A1, B1.
  replace (q + ((if a <? q then 0 else 2 * q - a) - (if a <? q then a else 0)) - 1)
    with (q + (j - i) - 1) by lia.
  rewrite A2, A3, B2, B3. reflexivity.
Qed.

(** Every matrix of [generic_BTTB] has an embedding first column. *)
Lemma embeds_exists ss sb (q p : nat) (columns : list (list R)) rows :
  0 < q -> 0 < p ->
  exists c0,
    embeds c0 q p
      (tab2 (q * p) (q * p) (fun x y =>
         generic_entry ss sb q columns rows (x / p) (y / p) (x mod p) (y mod p))).
Proof.
  intros Hq Hp.
  exists (tab (2 * q * (2 * p)) (fun x =>
    let a := x / (2 * p) in
    let b := x mod (2 * p) in
    generic_entry ss sb q columns rows
      (if a <? q then a else 0) (if a <? q then 0 else 2 * q - a)
      (if b <? p then b else 0) (if b <? p then 0 else 2 * p - b))).
  split; [rewrite tab_length; lia|].
  intros i j r c Hi Hj Hr Hc.
  assert (Ha : cmod (2 * q) i j < 2 * q) by (apply cmod_lt; lia).
  assert (Hb : cmod (2 * p) r c < 2 * p) by (apply cmod_lt; lia).
  rewrite tab_nth by now apply block_index_lt.
  destruct (divmod_block (cmod (2 * q) i j) Hb) as [-> ->]. cbv zeta.
  rewrite generic_entry_fold by assumption. symmetry.
  exact (@entry_of_blocks R _ q p (generic_entry ss sb q columns rows)
           i j r c Hi Hj Hr Hc).
Qed.

(** The circular convolution with an embedding first column is the dense
    product. *)
Lemma circ_product_embeds (c0 v : list R) (q p : nat)
    (E : nat -> nat -> R) :
  0 < p -> length v = q * p ->
  embeds c0 q p (tab2 (q * p) (q * p) E) ->
  circ_product c0 v q p = matvec (tab2 (q * p) (q * p) E) v.
Proof.
  intros Hp Lv [_ Hc].
  rewrite matvec_tab2 by assumption. unfold circ_product.
  apply tab_ext. intros x Hx. rewrite Rsum_blocks.
  apply Rsum_ext. intros j Hj. apply in_seq in Hj.
  apply Rsum_ext. intros c Hc'. apply in_seq in Hc'.
  rewrite Rmult_comm. f_equal.
  assert (Hxq : x / p < q) by (apply Nat.Div0.div_lt_upper_bound; lia).
  assert (Hxp : x mod p < p) by (apply Nat.mod_upper_bound; lia).
  rewrite Hc by lia.
  rewrite tab2_nth by (try apply block_index_lt; lia).
  f_equal. rewrite (Nat.div_mod_eq x p) at 3. lia.
Qed.

(** C1.  For a table that passes the validation, with at least one point
    per block, any of the nine symmetries, both orderings and every real
    vector [v] of [nblocks * npoints_per_block] items:

    - with a generic structure and a single block, [generic_BTTB] raises
      ValueError, so there is no dense matrix to multiply;
    - in every other case [generic_BTTB] returns the dense matrix [T], a
      block circulant matrix with circulant blocks that embeds [T] exists,
      and for the first column [c0] of every such matrix
      [product_BCCB_vector], applied to the eigenvalues that
      [eigenvalues_BCCB] computes from [c0], returns in exact arithmetic
      the product of [T] with [v]. *)
Theorem fast_product_equals_dense (ss sb ordering : string) (nblocks : Z)
    (columns : list (list R)) (rows : option (list (list R))) (v : list R)
    (check_input : bool)
    (Hvalid : BTTB_metadata ss sb nblocks columns rows = Ok tt)
    (HP : 0 < length (hd [] columns))
    (Hord : In ordering ["row"; "column"])
    (Hv : length v = Z.to_nat nblocks * length (hd [] columns)) :
  let q := Z.to_nat nblocks in
  let p := length (hd [] columns) in
  (ss = "gene" -> nblocks = 1%Z ->
   generic_BTTB ss sb nblocks columns rows check_input = Err ValueError) /\
  ((ss = "gene" -> (2 <= nblocks)%Z) ->
   exists T,
     generic_BTTB ss sb nblocks columns rows check_input = Ok T /\
     (exists c0, embeds c0 q p T) /\
     forall c0, embeds c0 q p T ->
       (BCCB_eigen <- eigenvalues_BCCB
                        (BCCB0.make c0 nblocks (Z.of_nat p)
                           (symmetry_name ss sb)) ordering ;;
        product_BCCB_vector BCCB_eigen v true) = Ok (matvec T v)).
Proof.
  intros q p. split.
  - intros -> ->.
    destruct (BTTB_metadata_ok _ _ _ _ _ Hvalid) as (_ & Hb & _).
    destruct (pure_or_gene Hb) as [->|Hb'];
      [now apply gene_gene_one_block|now apply gene_pure_one_block].
  - intros Hgene.
    destruct (BTTB_metadata_ok _ _ _ _ _ Hvalid) as (Hs & Hb & HQ & _ & _).
    assert (EQ : nblocks = Z.of_nat q) by (unfold q; lia).
    assert (Hq : 0 < q) by (unfold q; lia).
    eexists. split; [now apply generic_BTTB_all_entries|].
    fold q p. split; [now apply embeds_exists|].
    intros c0 Hc0. rewrite <- (circ_product_embeds (c0 := c0)); try assumption.
    rewrite EQ. destruct Hc0 as [Lc _].
    simpl in Hord. destruct Hord as [<-|[<-|[]]].
    + apply fast_product_row; auto using symmetry_name_in_nine.
    + apply fast_product_column; auto using symmetry_name_in_nine.
Qed.

Lemma fast_product_equals_dense_witness :
  exists T,
    generic_BTTB "gene" "gene" 2 [[2; 1]; [5; 7]; [3; 4]]%R
      (Some [[6]; [8]; [9]]%R) true = Ok T /\
    (exists c0, embeds c0 2 2 T) /\
    forall c0, embeds c0 2 2 T ->
      (BCCB_eigen <- eigenvalues_BCCB (BCCB0.make c0 2 2 "gene-gene") "column" ;;
       product_BCCB_vector BCCB_eigen [1; 0; 0; 1]%R true) =
      Ok (matvec T [1; 0; 0; 1]%R).
Proof.
  apply (@fast_product_equals_dense "gene" "gene" "column" 2
           [[2; 1]; [5; 7]; [3; 4]]%R (Some [[6]; [8]; [9]]%R)
           [1; 0; 0; 1]%R true);
    [reflexivity|simpl; lia|simpl; auto|reflexivity|intros _; lia].
Defined.
